(** * A shallow embedding of the SkipList C library (skiplist.c)

    The C program builds a skip list out of heap nodes that are linked in
    four directions.  We model the heap as a finite map from addresses to
    node records, the C functions as programs of a small state-and-error
    monad over that heap, and prove properties of the functions with respect
    to an abstract description (a header column and a list of element
    columns) of a well-formed node graph. *)

From stdpp Require Import base option list gmap fin_maps sorting.
From Stdlib Require Import ZArith Lia.

Open Scope Z_scope.

(** ** Memory model *)

(** Addresses of heap cells; the C null pointer is [None : option loc]. *)
Definition loc := positive.

(** [struct _sl_node].  The payload [void *_data] is an address-sized integer;
    [NULL] is [0]. *)
Record node := Node {
  _prev_node : option loc;
  _next_node : option loc;
  _prev_layer : option loc;
  _next_layer : option loc;
  _data : Z
}.

(** The state the C functions run in: the allocated cells, the number of
    values already drawn from [rand()], and the log of the addresses passed
    to [free()], most recent first. *)
Record world := World {
  mem : gmap loc node;
  flips : nat;
  freed : list loc
}.

(** [struct skip_list].  The structure is passed and returned by value in the
    model; [_size] is a C [int], modelled without overflow. *)
Record skip_list := SkipList {
  _first_node : loc;
  _gt_func : Z → Z → bool;
  _size : Z
}.

(** ** The monad of C computations

    A computation takes a world and either fails ([None]: a null or dangling
    pointer is dereferenced, a cell is freed that is not allocated, or the
    fuel of a loop ran out) or returns a value and the new world. *)
Definition M (A : Type) : Type := world → option (A * world).

Definition ret {A} (a : A) : M A := λ w, Some (a, w).
Definition bind {A B} (c : M A) (k : A → M B) : M B :=
  λ w, match c w with
       | Some (a, w') => k a w'
       | None => None
       end.
Definition fail {A} : M A := λ _, None.

Notation "'let*' x ':=' c 'in' k" := (bind c (λ x, k))
  (at level 10, x name, c at level 100, k at level 200).
Notation "c ';;;' k" := (bind c (λ _, k))
  (at level 100, k at level 200, right associativity).

(** [*p] for a node pointer. *)
Definition load (l : loc) : M node :=
  λ w, match mem w !! l with
       | Some nd => Some (nd, w)
       | None => None
       end.

(** [*p = nd] for an allocated cell. *)
Definition store (l : loc) (nd : node) : M unit :=
  λ w, match mem w !! l with
       | Some _ => Some (tt, World (<[l := nd]> (mem w)) (flips w) (freed w))
       | None => None
       end.

(** Field assignments [nd._prev_node = v], and so on. *)
Definition with_prev_node (v : option loc) (nd : node) : node :=
  Node v (_next_node nd) (_prev_layer nd) (_next_layer nd) (_data nd).

Definition with_next_node (v : option loc) (nd : node) : node :=
  Node (_prev_node nd) v (_prev_layer nd) (_next_layer nd) (_data nd).

Definition with_prev_layer (v : option loc) (nd : node) : node :=
  Node (_prev_node nd) (_next_node nd) v (_next_layer nd) (_data nd).

Definition with_next_layer (v : option loc) (nd : node) : node :=
  Node (_prev_node nd) (_next_node nd) (_prev_layer nd) v (_data nd).

(** [l->_prev_node = v], and so on. *)
Definition set_prev_node (l : loc) (v : option loc) : M unit :=
  let* nd := load l in store l (with_prev_node v nd).

Definition set_next_node (l : loc) (v : option loc) : M unit :=
  let* nd := load l in store l (with_next_node v nd).

Definition set_prev_layer (l : loc) (v : option loc) : M unit :=
  let* nd := load l in store l (with_prev_layer v nd).

Definition set_next_layer (l : loc) (v : option loc) : M unit :=
  let* nd := load l in store l (with_next_layer v nd).

(** [malloc] followed by the initialisation of all five fields: the new cell
    is at an address that is not allocated. *)
Definition malloc (nd : node) : M loc :=
  λ w, let l := fresh (dom (mem w)) in
       Some (l, World (<[l := nd]> (mem w)) (flips w) (freed w)).

(** [free]: the cell must be allocated; the address is logged. *)
Definition free (l : loc) : M unit :=
  λ w, match mem w !! l with
       | Some _ => Some (tt, World (delete l (mem w)) (flips w) (l :: freed w))
       | None => None
       end.

Section Program.

(** The outcomes of [rand() % 2], in the order in which they are drawn. *)
Variable coins : nat → bool.

(** [_coin_flip]: 1 is heads. *)
Definition _coin_flip : M bool :=
  λ w, Some (coins (flips w), World (mem w) (S (flips w)) (freed w)).

(** The [while] loop of [_find_previous]: walk forward while the next node
    exists and the target is greater than its payload. *)
Fixpoint scan_forward (fuel : nat) (gt_func : Z → Z → bool)
    (temp_node : loc) (data : Z) : M loc :=
  match fuel with
  | O => fail
  | S fuel' =>
      let* t := load temp_node in
      match _next_node t with
      | None => ret temp_node
      | Some nx =>
          let* n := load nx in
          if gt_func data (_data n)
          then scan_forward fuel' gt_func nx data
          else ret temp_node
      end
  end.

Fixpoint _find_previous (fuel : nat) (gt_func : Z → Z → bool)
    (current_node : loc) (data : Z) : M loc :=
  match fuel with
  | O => fail
  | S fuel' =>
      let* temp_node := scan_forward fuel' gt_func current_node data in
      let* t := load temp_node in
      match _next_layer t with
      | None => ret temp_node
      | Some down => _find_previous fuel' gt_func down data
      end
  end.

Fixpoint _delete_node (fuel : nat) (del_sl_node : option loc) : M unit :=
  match fuel with
  | O => fail
  | S fuel' =>
      match del_sl_node with
      | None => ret tt
      | Some del =>
          let* d := load del in
          _delete_node fuel' (_prev_layer d);;;
          let* d := load del in
          let* temp_prev_node :=
            match _prev_node d with Some p => ret p | None => fail end in
          set_next_node temp_prev_node (_next_node d);;;
          let* d := load del in
          match _next_node d with
          | Some nx => set_prev_node nx (Some temp_prev_node)
          | None => ret tt
          end;;;
          free del
      end
  end.

(** The [while] loop of [_insert_node]: walk left to the nearest node that
    has a node above it; at a header that has none, a new header takes its
    place in the level and the old header becomes the header of a new top
    level (the [break] leaves the loop at the new header). *)
Fixpoint climb (fuel : nat) (temp_node : loc) : M loc :=
  match fuel with
  | O => fail
  | S fuel' =>
      let* t := load temp_node in
      match _prev_layer t with
      | Some _ => ret temp_node
      | None =>
          match _prev_node t with
          | None =>
              let* new_layer :=
                malloc (Node None (_next_node t) (Some temp_node)
                             (_next_layer t) 0) in
              let* t := load temp_node in
              match _next_node t with
              | Some nx => set_prev_node nx (Some new_layer)
              | None => ret tt
              end;;;
              let* t := load temp_node in
              match _next_layer t with
              | Some dn => set_prev_layer dn (Some new_layer)
              | None => ret tt
              end;;;
              set_next_node temp_node None;;;
              set_next_layer temp_node (Some new_layer);;;
              ret new_layer
          | Some p => climb fuel' p
          end
      end
  end.

Fixpoint _insert_node (fuel : nat) (prev_node : loc)
    (next_layer : option loc) (data : Z) : M loc :=
  match fuel with
  | O => fail
  | S fuel' =>
      let* p := load prev_node in
      let* new_node :=
        malloc (Node (Some prev_node) (_next_node p) None next_layer data) in
      set_next_node prev_node (Some new_node);;;
      let* n := load new_node in
      match _next_node n with
      | Some nx => set_prev_node nx (Some new_node)
      | None => ret tt
      end;;;
      let* heads := _coin_flip in
      (if heads then
         let* temp_node := climb fuel' prev_node in
         let* t := load temp_node in
         let* temp_node :=
           match _prev_layer t with Some u => ret u | None => fail end in
         let* up := _insert_node fuel' temp_node (Some new_node) data in
         set_prev_layer new_node (Some up)
       else ret tt);;;
      ret new_node
  end.

Fixpoint _reduce_height (fuel : nat) (head_node : loc) : M loc :=
  match fuel with
  | O => fail
  | S fuel' =>
      let* h := load head_node in
      match _next_layer h, _next_node h with
      | Some temp_next_layer, None =>
          free head_node;;;
          set_prev_layer temp_next_layer None;;;
          _reduce_height fuel' temp_next_layer
      | _, _ => ret head_node
      end
  end.

Fixpoint _delete_skip_list (fuel : nat) (current_node : option loc) : M unit :=
  match fuel with
  | O => fail
  | S fuel' =>
      match current_node with
      | None => ret tt
      | Some cur =>
          let* c := load cur in
          _delete_skip_list fuel' (_next_layer c);;;
          let* c := load cur in
          _delete_skip_list fuel' (_next_node c);;;
          let* c := load cur in
          match _prev_layer c with
          | Some up => set_next_layer up None
          | None => ret tt
          end;;;
          free cur
      end
  end.

(** *** Public functions *)

Definition skip_list_create (gt_func : Z → Z → bool) : M skip_list :=
  let* first := malloc (Node None None None None 0) in
  ret (SkipList first gt_func 0).

Definition skip_list_destroy (fuel : nat) (del_skip_list : skip_list) : M Z :=
  _delete_skip_list fuel (Some (_first_node del_skip_list));;;
  ret 0.

Definition skip_list_size (sl : skip_list) : Z := _size sl.

Definition skip_list_contains (fuel : nat) (sl : skip_list) (data : Z) : M Z :=
  let* prev_node := _find_previous fuel (_gt_func sl) (_first_node sl) data in
  let* p := load prev_node in
  match _next_node p with
  | None => ret 0
  | Some nx =>
      let* n := load nx in
      ret (if decide (_data n = data) then 1 else 0)
  end.

Definition skip_list_remove (fuel : nat) (sl : skip_list) (data : Z)
    : M (Z * skip_list) :=
  let* prev_node := _find_previous fuel (_gt_func sl) (_first_node sl) data in
  let* p := load prev_node in
  match _next_node p with
  | None => ret (0, sl)
  | Some nx =>
      let* n := load nx in
      if decide (_data n = data) then
        _delete_node fuel (Some nx);;;
        let* first := _reduce_height fuel (_first_node sl) in
        ret (1, SkipList first (_gt_func sl) (_size sl - 1))
      else ret (0, sl)
  end.

Definition skip_list_insert (fuel : nat) (sl : skip_list) (data : Z)
    : M (Z * skip_list) :=
  let* prev_node := _find_previous fuel (_gt_func sl) (_first_node sl) data in
  let* p := load prev_node in
  let* present :=
    match _next_node p with
    | None => ret false
    | Some nx => let* n := load nx in ret (bool_decide (_data n = data))
    end in
  if present then ret (0, sl)
  else
    _insert_node fuel prev_node None data;;;
    ret (1, SkipList (_first_node sl) (_gt_func sl) (_size sl + 1)).

End Program.

(** ** Links between nodes *)

(** The horizontal links of the node at [x]. *)
Definition hlink (m : gmap loc node) (x : loc) (p n : option loc) : Prop :=
  ∃ nd, m !! x = Some nd ∧ _prev_node nd = p ∧ _next_node nd = n.

(** The vertical links and the payload of the node at [x]: [u] is the node
    above ([_prev_layer]), [d] the node below ([_next_layer]). *)
Definition vlink (m : gmap loc node) (x : loc) (u d : option loc) (v : Z)
    : Prop :=
  ∃ nd, m !! x = Some nd ∧ _prev_layer nd = u ∧ _next_layer nd = d ∧
        _data nd = v.

Definition hd_or {A} (l : list A) (e : option A) : option A :=
  match l with
  | [] => e
  | x :: _ => Some x
  end.

Definition last_or {A} (l : list A) (p : option A) : option A :=
  match last l with
  | Some x => Some x
  | None => p
  end.

(** The last element of [hd :: l]. *)
Definition lastl {A} (hd : A) (l : list A) : A := default hd (last l).

(** A doubly linked segment: the nodes of [l] in order, the first one with
    predecessor [p], the last one with successor [e]. *)
Fixpoint dseg (m : gmap loc node) (p : option loc) (l : list loc)
    (e : option loc) : Prop :=
  match l with
  | [] => True
  | x :: l' => hlink m x p (hd_or l' e) ∧ dseg m (Some x) l' e
  end.

(** A column of nodes, bottom first: each node is linked down to the one
    before it, carries payload [v], and the node at index [i] is linked up to
    [upf i]. *)
Definition vcolg (m : gmap loc node) (v : Z) (upf : nat → option loc)
    (c : list loc) : Prop :=
  ∀ (i : nat) x, c !! i = Some x →
    vlink m x (upf i) (match i with O => None | S j => c !! j end) v.

Definition up_full (c : list loc) : nat → option loc := λ i, c !! S i.

Definition up_from (k : nat) (c : list loc) : nat → option loc :=
  λ i, if decide (i < k)%nat then None else c !! S i.

(** ** The abstract description of a skip list

    An element is a column: its payload and its nodes, level 0 first.  The
    structure is the column [H] of the headers, level 0 first, and the list
    of the element columns from left to right. *)
Abbreviation column := (Z * list loc)%type.

(** The nodes of level [i], from left to right, without the header. *)
Definition lev (i : nat) (cols : list column) : list loc :=
  omap (λ c : column, c.2 !! i) cols.

(** The payloads of level [i]. *)
Definition levd (i : nat) (cols : list column) : list Z :=
  omap (λ c : column, if decide (i < length c.2)%nat then Some c.1 else None)
       cols.

Definition nodes_of (H : list loc) (cols : list column) : list loc :=
  H ++ mjoin (cols.*2).

Definition shape (H : list loc) (cols : list column) : Prop :=
  H ≠ [] ∧ NoDup (nodes_of H cols) ∧
  Forall (λ c : column, (length c.2 ≤ length H)%nat) cols.

Definition rows (m : gmap loc node) (H : list loc) (cols : list column)
    : Prop :=
  ∀ (i : nat) hd, H !! i = Some hd → dseg m None (hd :: lev i cols) None.

Definition hcol (m : gmap loc node) (H : list loc) : Prop :=
  vcolg m 0 (up_full H) H.

Definition vcol (m : gmap loc node) (c : column) : Prop :=
  vcolg m c.1 (up_full c.2) c.2.

(** Well-formed node graph. *)
Definition wf (m : gmap loc node) (H : list loc) (cols : list column) : Prop :=
  shape H cols ∧ Forall (λ c : column, c.2 ≠ []) cols ∧
  rows m H cols ∧ hcol m H ∧ Forall (vcol m) cols.

(** Well-formed but for one column, between [C1] and [C2], that is being
    built or taken down: it may be empty, and its upward links are [upf]. *)
Definition wfp (m : gmap loc node) (H : list loc) (C1 : list column)
    (v : Z) (c : list loc) (upf : nat → option loc) (C2 : list column)
    : Prop :=
  shape H (C1 ++ (v, c) :: C2) ∧ Forall (λ c : column, c.2 ≠ []) (C1 ++ C2) ∧
  rows m H (C1 ++ (v, c) :: C2) ∧ hcol m H ∧ Forall (vcol m) (C1 ++ C2) ∧
  vcolg m v upf c.

(** The skip list [sl] in world [w] is the well-formed graph [(H, cols)]:
    its first node is the topmost header. *)
Definition represents (w : world) (sl : skip_list) (H : list loc)
    (cols : list column) : Prop :=
  last H = Some (_first_node sl) ∧ wf (mem w) H cols.

(** The position of a search for [data] in level [i]: the columns [C1] to
    the left of the position end with the column of the current node, whose
    payload is ordered before the target, or are empty, at the header. *)
Definition before_target (gt : Z → Z → bool) (data : Z) (i : nat)
    (C1 : list column) : Prop :=
  C1 = [] ∨ ∃ C c, C1 = C ++ [c] ∧ is_Some (c.2 !! i) ∧ gt data c.1 = true.

(** The columns [C2] to the right of the position are empty or begin with a
    payload that the target is not greater than. *)
Definition stops_at (gt : Z → Z → bool) (data : Z) (C2 : list column) : Prop :=
  C2 = [] ∨ ∃ c C, C2 = c :: C ∧ gt data c.1 = false.

(** ** The comparison contract *)

(** Two payloads are order-equal when neither is greater than the other. *)
Definition order_eq (gt : Z → Z → bool) (a b : Z) : Prop :=
  gt a b = false ∧ gt b a = false.

(** Strictly increasing: every element is greater than all the earlier
    ones. *)
Definition strictly_sorted (gt : Z → Z → bool) (l : list Z) : Prop :=
  StronglySorted (λ a b, gt b a = true) l.

Definition gt_irreflexive (gt : Z → Z → bool) : Prop := ∀ a, gt a a = false.

Definition gt_transitive (gt : Z → Z → bool) : Prop :=
  ∀ a b c, gt a b = true → gt b c = true → gt a c = true.

(** Distinct payload pointers are never order-equal. *)
Definition gt_total (gt : Z → Z → bool) : Prop :=
  ∀ a b, a ≠ b → gt a b = true ∨ gt b a = true.

(** ** Heaps that agree on links *)

(** [m'] has the horizontal links of [m] at the nodes outside [S]. *)
Definition hkeep (m m' : gmap loc node) (S : list loc) : Prop :=
  ∀ x p n, x ∉ S → hlink m x p n → hlink m' x p n.

(** [m'] has the vertical links and payloads of [m] at the nodes outside
    [S]. *)
Definition vkeep (m m' : gmap loc node) (S : list loc) : Prop :=
  ∀ x u d v, x ∉ S → vlink m x u d v → vlink m' x u d v.

(** ** The heap during teardown

    [after_free N F m0] is the heap [m0] after the nodes [F] of the
    structure with nodes [N] have been freed: the cells of [F] are gone, and
    the nodes of the structure that were linked down to a freed node have a
    null downward link. *)
Definition nulldown (F : list loc) (nd : node) : node :=
  match _next_layer nd with
  | Some d => if decide (d ∈ F) then with_next_layer None nd else nd
  | None => nd
  end.

Definition after_free (N F : list loc) (m0 : gmap loc node) : gmap loc node :=
  map_imap (λ y nd, if decide (y ∈ F) then None
                    else Some (if decide (y ∈ N) then nulldown F nd else nd))
           m0.

(** Level [i] with its header. *)
Definition row (H : list loc) (cols : list column) (i : nat) : list loc :=
  match H !! i with
  | Some hd => hd :: lev i cols
  | None => []
  end.

(** The levels below level [n], the highest first. *)
Fixpoint rows_upto (H : list loc) (cols : list column) (n : nat) : list loc :=
  match n with
  | O => []
  | S i => row H cols i ++ rows_upto H cols i
  end.

(** ** Computations and their fuel *)

(** [c'] returns whatever [c] returns. *)
Definition mle {A} (c c' : M A) : Prop := ∀ w r, c w = Some r → c' w = Some r.

(** [c] draws no coin. *)
Definition keeps_flips {A} (c : M A) : Prop :=
  ∀ w r w', c w = Some (r, w') → flips w' = flips w.

(** [c] only reads. *)
Definition keeps_world {A} (c : M A) : Prop :=
  ∀ w r w', c w = Some (r, w') → w' = w.

(** ** Observations on the heap

    The claims about levels are stated on what a traversal of the heap
    finds, not on the abstract description. *)

(** The nodes after [x] in its level, following [_next_node]. *)
Fixpoint forward (fuel : nat) (m : gmap loc node) (x : loc)
    : option (list loc) :=
  match fuel with
  | O => None
  | S fuel' =>
      match m !! x with
      | None => None
      | Some nd =>
          match _next_node nd with
          | None => Some []
          | Some y => (y ::.) <$> forward fuel' m y
          end
      end
  end.

(** The header [x] and the headers below it, following [_next_layer]; the
    last one is the header of level 0 (the walk at the start of
    [skip_list_print]). *)
Fixpoint descend (fuel : nat) (m : gmap loc node) (x : loc)
    : option (list loc) :=
  match fuel with
  | O => None
  | S fuel' =>
      match m !! x with
      | None => None
      | Some nd =>
          match _next_layer nd with
          | None => Some [x]
          | Some y => (x ::.) <$> descend fuel' m y
          end
      end
  end.

Definition payload (m : gmap loc node) (x : loc) : option Z :=
  _data <$> m !! x.

Definition payloads (m : gmap loc node) (l : list loc) : option (list Z) :=
  mapM (payload m) l.

(** The node below [x]. *)
Definition below (m : gmap loc node) (x : loc) : option loc :=
  m !! x ≫= _next_layer.

(** The nodes of level [i] that have a node above them: the nodes that the
    nodes of level [i + 1] are linked down to. *)
Definition lev_below (i : nat) (cols : list column) : list loc :=
  omap (λ c : column, c.2 !! S i ≫= λ _, c.2 !! i) cols.

(** The payloads of level 0, in the order of the [_next_node] links from the
    header of level 0. *)
Definition level0_payloads (fuel : nat) (w : world) (sl : skip_list)
    : option (list Z) :=
  hs ← descend fuel (mem w) (_first_node sl);
  h0 ← last hs;
  l ← forward fuel (mem w) h0;
  payloads (mem w) l.

(** The nodes that can be reached from [x] by [_next_node] and
    [_next_layer] links. *)
Definition link (m : gmap loc node) (x y : loc) : Prop :=
  ∃ nd, m !! x = Some nd ∧ (_next_node nd = Some y ∨ _next_layer nd = Some y).

Definition reachable_from (m : gmap loc node) (x y : loc) : Prop :=
  rtc (link m) x y.

(** ** Histories of a skip list *)

(** The skip lists that [skip_list_create] and any sequence of calls of
    [skip_list_insert] and [skip_list_remove] that return produce, for the
    coin outcomes [coins]. *)
Inductive reachable (coins : nat → bool) : world → skip_list → Prop :=
  | reach_create gt_func w0 sl w :
      skip_list_create gt_func w0 = Some (sl, w) →
      reachable coins w sl
  | reach_insert w sl fuel data r sl' w' :
      reachable coins w sl →
      skip_list_insert coins fuel sl data w = Some ((r, sl'), w') →
      reachable coins w' sl'
  | reach_remove w sl fuel data r sl' w' :
      reachable coins w sl →
      skip_list_remove fuel sl data w = Some ((r, sl'), w') →
      reachable coins w' sl'.

(** [k] heads and then tails, from the next draw on. *)
Definition heads_then_tails (coins : nat → bool) (w : world) (k : nat)
    : Prop :=
  (∀ j : nat, (j < k)%nat → coins (flips w + j)%nat = true) ∧
  coins (flips w + k)%nat = false.

(** ** Example inputs *)

(** The comparison of the driver, [fifo_gt]: the payloads are integers cast
    to pointers. *)
Definition fifo_gt (a b : Z) : bool := Z.gtb a b.

(** A comparison of records by a key: the payload pointers [2k] and [2k+1]
    are two records with key [k]. *)
Definition key_gt (a b : Z) : bool := Z.gtb (a / 2) (b / 2).

(** Coin outcomes: heads at the first and at the fourth draw. *)
Definition demo_coins (n : nat) : bool :=
  match n with
  | 0%nat | 3%nat => true
  | _ => false
  end.

Definition empty_world : world := World ∅ 0 [].

(** Inserting a list of payloads, one after the other. *)
Fixpoint insert_all (coins : nat → bool) (fuel : nat) (ds : list Z)
    (sl : skip_list) : M skip_list :=
  match ds with
  | [] => ret sl
  | d :: ds' =>
      let* r := skip_list_insert coins fuel sl d in
      insert_all coins fuel ds' r.2
  end.

(** The driver's comparison, and three insertions with one promotion for the
    first and one for the third: level 1 holds 10 and 20, level 0 holds 10,
    20 and 30. *)
Definition demo_sl : skip_list := SkipList 1%positive fifo_gt 3.

Definition demo_world : world :=
  Eval vm_compute in
    match (let* sl := skip_list_create fifo_gt in
           insert_all demo_coins 20 [10; 30; 20] sl) empty_world with
    | Some (_, w) => w
    | None => empty_world
    end.

Definition demo_H : list loc := [3%positive; 1%positive].

Definition demo_cols : list column :=
  [(10, [2%positive; 4%positive]); (20, [6%positive; 7%positive]);
   (30, [5%positive])].

(** The comparison by keys, and the record 10 (key 5) inserted. *)
Definition key_sl : skip_list := SkipList 1%positive key_gt 1.

Definition key_world : world :=
  Eval vm_compute in
    match (let* sl := skip_list_create key_gt in
           insert_all demo_coins 20 [10] sl) (World ∅ 1 []) with
    | Some (_, w) => w
    | None => empty_world
    end.

Definition key_H : list loc := [1%positive].

Definition key_cols : list column := [(10, [2%positive])].

(** ** The rest of the library: the search for a node, the printer and the
    driver *)

From stdpp Require Import strings pretty.

Open Scope Z_scope.

(** [_find_node]: the [return] inside the [while] loop leaves the function
    after the first step forward. *)
Definition _find_node (fuel : nat) (gt_func : Z → Z → bool)
    (current_node : loc) (data : Z) : M loc :=
  let* t := load current_node in
  let* stepped :=
    match _next_node t with
    | None => ret None
    | Some nx =>
        let* n := load nx in
        ret (if gt_func data (_data n) then Some nx else None)
    end in
  match stepped with
  | Some nx => ret nx
  | None =>
      let* t := load current_node in
      match _next_layer t with
      | None => ret current_node
      | Some down => _find_previous fuel gt_func down data
      end
  end.

(** *** The printer *)

(** The pieces of text of the three [printf] calls of [skip_list_print]. *)
Definition tab : string := String (Ascii.ascii_of_nat 9) EmptyString.
Definition newline : string := String (Ascii.ascii_of_nat 10) EmptyString.
Definition dash : string := "-" +:+ tab +:+ "-".
Definition arrow (data : Z) : string := "->" +:+ pretty data.

(** The first loop of [skip_list_print]: down to the header of level 0. *)
Fixpoint to_level0 (fuel : nat) (l0_list : loc) : M loc :=
  match fuel with
  | O => fail
  | S fuel' =>
      let* l := load l0_list in
      match _next_layer l with
      | Some down => to_level0 fuel' down
      | None => ret l0_list
      end
  end.

(** The innermost loop: the condition reads the payload of the node after
    [l0_list_node] before it tests that this node exists. *)
Fixpoint print_skip (fuel : nat) (gt_func : Z → Z → bool)
    (current_node l0_list_node : loc) : M (list string * loc) :=
  match fuel with
  | O => fail
  | S fuel' =>
      let* c := load current_node in
      let* l := load l0_list_node in
      match _next_node l with
      | None => fail
      | Some nx =>
          let* n := load nx in
          if gt_func (_data c) (_data n) then
            let* r := print_skip fuel' gt_func current_node nx in
            ret (dash :: r.1, r.2)
          else ret ([], l0_list_node)
      end
  end.

(** The loop over the nodes of all levels. *)
Fixpoint print_rows (fuel : nat) (gt_func : Z → Z → bool) (l0_list : loc)
    (current_layer : loc) (current_node : option loc) (l0_list_node : loc)
    : M (list string) :=
  match fuel with
  | O => fail
  | S fuel' =>
      let* more :=
        match current_node with
        | Some _ => ret true
        | None =>
            let* cl := load current_layer in
            ret (bool_decide (is_Some (_next_layer cl)))
        end in
      if more then
        let* r :=
          match current_node with
          | Some cur =>
              let* s := print_skip fuel' gt_func cur l0_list_node in
              let* c := load cur in
              ret (s.1 ++ [arrow (_data c)], _next_node c, s.2)
          | None => ret ([], None, l0_list_node)
          end in
        let '(text, current_node, l0_list_node) := r in
        match current_node with
        | Some _ =>
            let* rest := print_rows fuel' gt_func l0_list current_layer
                           current_node l0_list_node in
            ret (text ++ rest)
        | None =>
            let* cl := load current_layer in
            match _next_layer cl with
            | Some down =>
                let* rest := print_rows fuel' gt_func l0_list down
                               (Some down) l0_list in
                ret (text ++ newline :: rest)
            | None =>
                let* rest := print_rows fuel' gt_func l0_list current_layer
                               None l0_list_node in
                ret (text ++ rest)
            end
        end
      else ret []
  end.

(** [skip_list_print]: the result is the text it prints, one piece for each
    [printf]. *)
Definition skip_list_print (fuel : nat) (sl : skip_list) : M (list string) :=
  let* l0_list := to_level0 fuel (_first_node sl) in
  let* c := load (_first_node sl) in
  match _next_node c with
  | Some _ =>
      let* text := print_rows fuel (_gt_func sl) l0_list (_first_node sl)
                     (Some (_first_node sl)) l0_list in
      ret (text ++ [newline])
  | None => ret []
  end.

(** *** The driver *)

Section Driver.

Variable coins : nat → bool.

(** [for(long i = 0; i < 30; i += 2) skip_list_insert(test_list, i)]; [n]
    bounds the number of iterations. *)
Fixpoint main_insert (n fuel : nat) (i : Z) (sl : skip_list) : M skip_list :=
  match n with
  | O => fail
  | S n' =>
      if decide (i < 30) then
        let* r := skip_list_insert coins fuel sl i in
        main_insert n' fuel (i + 2) r.2
      else ret sl
  end.

(** [for(long j = 0; j < 30; ++j) printf(..., skip_list_contains(...))]. *)
Fixpoint main_contains (n fuel : nat) (j : Z) (sl : skip_list)
    : M (list string) :=
  match n with
  | O => fail
  | S n' =>
      if decide (j < 30) then
        let* r := skip_list_contains fuel sl j in
        let* rest := main_contains n' fuel (j + 1) sl in
        ret (("Contains " +:+ pretty j +:+ ": " +:+ pretty r +:+ newline)
               :: rest)
      else ret []
  end.

(** [for(long i = 0; i < 30; i += 4) skip_list_remove(test_list, i)]. *)
Fixpoint main_remove (n fuel : nat) (i : Z) (sl : skip_list) : M skip_list :=
  match n with
  | O => fail
  | S n' =>
      if decide (i < 30) then
        let* r := skip_list_remove fuel sl i in
        main_remove n' fuel (i + 4) r.2
      else ret sl
  end.

(** [main]: the text printed and the exit status. *)
Definition main (fuel : nat) : M (list string * Z) :=
  let* test_list := skip_list_create fifo_gt in
  let* test_list := main_insert fuel fuel 0 test_list in
  let* text1 := main_contains fuel fuel 0 test_list in
  let* text2 := skip_list_print fuel test_list in
  let* test_list := main_remove fuel fuel 0 test_list in
  let* text3 := skip_list_print fuel test_list in
  skip_list_destroy fuel test_list;;;
  ret (text1 ++ text2 ++ newline :: text3, 0).

(** *** Sequences of calls of the public functions *)

Inductive call :=
  | Insert (data : Z)
  | Remove (data : Z)
  | Contains (data : Z).

Definition run_call (fuel : nat) (c : call) (sl : skip_list)
    : M (Z * skip_list) :=
  match c with
  | Insert data => skip_list_insert coins fuel sl data
  | Remove data => skip_list_remove fuel sl data
  | Contains data =>
      let* r := skip_list_contains fuel sl data in ret (r, sl)
  end.

(** The calls of [cs] one after the other; the results in order. *)
Fixpoint run_calls (fuel : nat) (cs : list call) (sl : skip_list)
    : M (list Z * skip_list) :=
  match cs with
  | [] => ret ([], sl)
  | c :: cs' =>
      let* r := run_call fuel c sl in
      let* rs := run_calls fuel cs' r.2 in
      ret (r.1 :: rs.1, rs.2)
  end.

End Driver.

(** The same calls on a finite set of payload pointers. *)
Definition set_call (S : gset Z) (c : call) : Z * gset Z :=
  match c with
  | Insert data => if decide (data ∈ S) then (0, S) else (1, {[data]} ∪ S)
  | Remove data => if decide (data ∈ S) then (1, S ∖ {[data]}) else (0, S)
  | Contains data => (if decide (data ∈ S) then 1 else 0, S)
  end.

Fixpoint set_calls (S : gset Z) (cs : list call) : list Z * gset Z :=
  match cs with
  | [] => ([], S)
  | c :: cs' =>
      let r := set_call S c in
      let rs := set_calls r.2 cs' in
      (r.1 :: rs.1, rs.2)
  end.

(** Every run of heads ends: no insertion promotes for ever. *)
Definition fair (coins : nat → bool) : Prop :=
  ∀ n : nat, ∃ k : nat, coins (n + k)%nat = false.

(** ** The state of a skip list in use *)

(** The top level is not empty, unless it is level 0. *)
Definition top_used (H : list loc) (cols : list column) : Prop :=
  length H = 1%nat ∨ lev (pred (length H)) cols ≠ [].

(** A well-formed graph with strictly increasing payloads, whose count is
    the number of its elements. *)
Definition ordered (w : world) (sl : skip_list) (H : list loc)
    (cols : list column) : Prop :=
  represents w sl H cols ∧
  strictly_sorted (_gt_func sl) (cols.*1) ∧
  _size sl = Z.of_nat (length cols).

(** A comparison that is a strict total order of the payload pointers. *)
Definition gt_strict_total (gt : Z → Z → bool) : Prop :=
  gt_irreflexive gt ∧ gt_transitive gt ∧ gt_total gt.

(** ** The text of the printer

    What [skip_list_print] prints, as a function of the payloads of the
    levels; [None] when the printer reads the node after the last node of
    level 0. *)

(** The number of payloads at the front of [l0] that [c] is greater than;
    the comparison with the payload after them must be possible. *)
Fixpoint skip_count (gt : Z → Z → bool) (c : Z) (l0 : list Z) : option nat :=
  match l0 with
  | [] => None
  | p :: l0' => if gt c p then S <$> skip_count gt c l0' else Some 0%nat
  end.

(** The text for the nodes with payloads [row], when [l0] are the payloads
    of level 0 after the current position in level 0. *)
Fixpoint row_text (gt : Z → Z → bool) (l0 row : list Z)
    : option (list string) :=
  match row with
  | [] => Some []
  | c :: row' =>
      n ← skip_count gt c l0;
      t ← row_text gt (drop n l0) row';
      Some (replicate n dash ++ arrow c :: t)
  end.

(** The text for the levels [rows], the highest first: each level starts
    with its header, whose payload is null; a newline separates two
    levels. *)
Fixpoint rows_text (gt : Z → Z → bool) (l0 : list Z) (rows : list (list Z))
    : option (list string) :=
  match rows with
  | [] => Some []
  | r :: rows' =>
      t ← row_text gt l0 (0 :: r);
      match rows' with
      | [] => Some t
      | _ :: _ => ts ← rows_text gt l0 rows'; Some (t ++ newline :: ts)
      end
  end.

(** The text for a skip list with the levels [rows], of which the last is
    level 0: nothing is printed when the top level is empty, and a newline
    ends the text otherwise. *)
Definition print_text (gt : Z → Z → bool) (rows : list (list Z))
    : option (list string) :=
  match rows with
  | (_ :: _) :: _ =>
      t ← rows_text gt (default [] (last rows)) rows; Some (t ++ [newline])
  | _ => Some []
  end.

(** The payloads of the levels [n - 1], ..., 0. *)
Fixpoint levels_below (n : nat) (cols : list column) : list (list Z) :=
  match n with
  | O => []
  | S i => levd i cols :: levels_below i cols
  end.

(** ** More example inputs *)

(** The driver's comparison, and the payload -1 inserted: the null pointer
    is ordered after the only payload. *)
Definition neg_sl : skip_list := SkipList 1%positive fifo_gt 1.

Definition neg_world : world :=
  Eval vm_compute in
    match (let* sl := skip_list_create fifo_gt in
           insert_all demo_coins 20 [-1] sl) (World ∅ 1 []) with
    | Some (_, w) => w
    | None => empty_world
    end.

Definition neg_H : list loc := [1%positive].

Definition neg_cols : list column := [(-1, [2%positive])].

(** ** The cells of the heap that a call leaves alone *)

(** [m'] is [m] at the cells outside [N]. *)
Definition same_outside (N : list loc) (m m' : gmap loc node) : Prop :=
  ∀ x, x ∉ N → m' !! x = m !! x.

(** The heap [m] is the heap [m0] and, besides, the cells [N]. *)
Definition extends (m0 m : gmap loc node) (N : list loc) : Prop :=
  (∀ x, x ∈ N → m0 !! x = None) ∧ same_outside N m0 m.

(** The skip lists of the histories that begin with [skip_list_create] on
    the heap [m0]. *)
Inductive history (coins : nat → bool) (m0 : gmap loc node)
    : world → skip_list → Prop :=
  | hist_create gt_func w0 sl w :
      mem w0 = m0 →
      skip_list_create gt_func w0 = Some (sl, w) →
      history coins m0 w sl
  | hist_insert w sl fuel data r sl' w' :
      history coins m0 w sl →
      skip_list_insert coins fuel sl data w = Some ((r, sl'), w') →
      history coins m0 w' sl'
  | hist_remove w sl fuel data r sl' w' :
      history coins m0 w sl →
      skip_list_remove fuel sl data w = Some ((r, sl'), w') →
      history coins m0 w' sl'.

(** ** The loops of the driver *)

(** The values [i], [i + step], ... of the counter of a [for] loop with
    [c] rounds. *)
Fixpoint range_from (step : Z) (c : nat) (i : Z) : list Z :=
  match c with
  | O => []
  | S c' => i :: range_from step c' (i + step)
  end.

(** The line that the driver prints for [skip_list_contains(test_list, j)]
    with the result [r]. *)
Definition contains_line (j r : Z) : string :=
  "Contains " +:+ pretty j +:+ ": " +:+ pretty r +:+ newline.

(** ** Histories without ties *)

(** [data] and each other pointer of [l] are ordered, one way or the
    other. *)
Definition ordered_against (gt : Z → Z → bool) (data : Z) (l : list Z)
    : Prop :=
  ∀ p, p ∈ l → p ≠ data → gt data p = true ∨ gt p data = true.

(** The skip lists of the histories in which each pointer passed to
    [skip_list_insert] is ordered against the pointers that level 0 holds at
    the time of the call. *)
Inductive reachable_apart (coins : nat → bool) : world → skip_list → Prop :=
  | apart_create gt_func w0 sl w :
      skip_list_create gt_func w0 = Some (sl, w) →
      reachable_apart coins w sl
  | apart_insert w sl (n : nat) l fuel data r sl' w' :
      reachable_apart coins w sl →
      level0_payloads n w sl = Some l →
      ordered_against (_gt_func sl) data l →
      skip_list_insert coins fuel sl data w = Some ((r, sl'), w') →
      reachable_apart coins w' sl'
  | apart_remove w sl fuel data r sl' w' :
      reachable_apart coins w sl →
      skip_list_remove fuel sl data w = Some ((r, sl'), w') →
      reachable_apart coins w' sl'.

(** The comparison by keys and the records 10, 20, 31 and 4 (keys 5, 10, 15
    and 2) inserted in this order: the comparison has ties, but there is none
    among these records. *)
Definition keys_sl : skip_list := SkipList 1%positive key_gt 4.

Definition keys_world : world :=
  Eval vm_compute in
    match (let* sl := skip_list_create key_gt in
           insert_all demo_coins 20 [10; 20; 31; 4] sl) empty_world with
    | Some (_, w) => w
    | None => empty_world
    end.

(** The demo list after 10 was removed: level 1 holds 20 only, level 0 holds
    20 and 30. *)
Definition rest_sl : skip_list := SkipList 1%positive fifo_gt 2.

Definition rest_world : world :=
  Eval vm_compute in
    match skip_list_remove 20 demo_sl 10 demo_world with
    | Some (_, w) => w
    | None => empty_world
    end.

Definition rest_cols : list column :=
  [(20, [6%positive; 7%positive]); (30, [5%positive])].
(** ** Running computations *)

Lemma run_bind {A B} (c : M A) (k : A → M B) w a w' :
  c w = Some (a, w') → bind c k w = k a w'.
Proof. unfold bind. by intros ->. Qed.

Lemma bind_inv {A B} (c : M A) (k : A → M B) w r :
  bind c k w = Some r → ∃ a w', c w = Some (a, w') ∧ k a w' = Some r.
Proof. unfold bind. destruct (c w) as [[a w']|]; [eauto | done]. Qed.

Lemma bind_assoc {A B C} (c : M A) (k1 : A → M B) (k2 : B → M C) w :
  bind (bind c k1) k2 w = bind c (λ a, bind (k1 a) k2) w.
Proof. unfold bind. by destruct (c w) as [[a w']|]. Qed.

Lemma bind_ret {A B} (a : A) (k : A → M B) w : bind (ret a) k w = k a w.
Proof. done. Qed.

Lemma load_ok m fl fr l nd :
  m !! l = Some nd → load l (World m fl fr) = Some (nd, World m fl fr).
Proof. unfold load. simpl. by intros ->. Qed.

Lemma store_ok m fl fr l nd nd' :
  m !! l = Some nd →
  store l nd' (World m fl fr) = Some (tt, World (<[l := nd']> m) fl fr).
Proof. unfold store. simpl. by intros ->. Qed.

Lemma store_alter (m : gmap loc node) l nd (f : node → node) :
  m !! l = Some nd → <[l := f nd]> m = alter f l m.
Proof.
  intros Hl. apply map_eq. intros j. rewrite lookup_alter.
  destruct (decide (l = j)) as [->|?].
  - by rewrite lookup_insert_eq, Hl.
  - by rewrite lookup_insert_ne.
Qed.

Lemma set_prev_node_ok m fl fr l v nd :
  m !! l = Some nd →
  set_prev_node l v (World m fl fr) =
  Some (tt, World (alter (with_prev_node v) l m) fl fr).
Proof.
  intros Hl. unfold set_prev_node.
  rewrite (run_bind _ _ _ _ _ (load_ok _ _ _ _ _ Hl)).
  rewrite <- (store_alter _ _ _ _ Hl). by eapply store_ok.
Qed.

Lemma set_next_node_ok m fl fr l v nd :
  m !! l = Some nd →
  set_next_node l v (World m fl fr) =
  Some (tt, World (alter (with_next_node v) l m) fl fr).
Proof.
  intros Hl. unfold set_next_node.
  rewrite (run_bind _ _ _ _ _ (load_ok _ _ _ _ _ Hl)).
  rewrite <- (store_alter _ _ _ _ Hl). by eapply store_ok.
Qed.

Lemma set_prev_layer_ok m fl fr l v nd :
  m !! l = Some nd →
  set_prev_layer l v (World m fl fr) =
  Some (tt, World (alter (with_prev_layer v) l m) fl fr).
Proof.
  intros Hl. unfold set_prev_layer.
  rewrite (run_bind _ _ _ _ _ (load_ok _ _ _ _ _ Hl)).
  rewrite <- (store_alter _ _ _ _ Hl). by eapply store_ok.
Qed.

Lemma set_next_layer_ok m fl fr l v nd :
  m !! l = Some nd →
  set_next_layer l v (World m fl fr) =
  Some (tt, World (alter (with_next_layer v) l m) fl fr).
Proof.
  intros Hl. unfold set_next_layer.
  rewrite (run_bind _ _ _ _ _ (load_ok _ _ _ _ _ Hl)).
  rewrite <- (store_alter _ _ _ _ Hl). by eapply store_ok.
Qed.

Lemma malloc_ok m fl fr nd :
  malloc nd (World m fl fr) =
  Some (fresh (dom m), World (<[fresh (dom m) := nd]> m) fl fr).
Proof. done. Qed.

Lemma free_ok m fl fr l nd :
  m !! l = Some nd →
  free l (World m fl fr) = Some (tt, World (delete l m) fl (l :: fr)).
Proof. unfold free. simpl. by intros ->. Qed.

Lemma fresh_not_alloc (m : gmap loc node) : m !! fresh (dom m) = None.
Proof. apply not_elem_of_dom, is_fresh. Qed.


(** ** Lists of nodes *)

Lemma lastl_nil {A} (hd : A) : lastl hd [] = hd.
Proof. done. Qed.

Lemma lastl_snoc {A} (hd : A) l x : lastl hd (l ++ [x]) = x.
Proof. unfold lastl. by rewrite last_snoc. Qed.

Lemma lastl_app_cons {A} (hd : A) l x l' :
  lastl hd (l ++ x :: l') = lastl x l'.
Proof.
  unfold lastl. rewrite last_app. simpl.
  destruct l' as [|y l']; [done|]. rewrite last_cons.
  destruct (last (y :: l')) eqn:E; [done|].
  by apply last_None in E.
Qed.

Lemma lastl_last {A} (hd : A) l : last (hd :: l) = Some (lastl hd l).
Proof.
  unfold lastl. rewrite last_cons. by destruct (last l).
Qed.

Lemma last_or_nil {A} (p : option A) : last_or [] p = p.
Proof. done. Qed.

Lemma last_or_snoc {A} (l : list A) x p : last_or (l ++ [x]) p = Some x.
Proof. unfold last_or. by rewrite last_snoc. Qed.

Lemma last_or_cons {A} (hd : A) l p : last_or (hd :: l) p = Some (lastl hd l).
Proof. unfold last_or. by rewrite lastl_last. Qed.

Lemma hd_or_app {A} (l1 l2 : list A) e :
  hd_or (l1 ++ l2) e = hd_or l1 (hd_or l2 e).
Proof. by destruct l1. Qed.

(** ** Links and heap updates *)

Lemma hlink_alloc m x p n : hlink m x p n → is_Some (m !! x).
Proof. intros (nd & -> & _). eauto. Qed.

Lemma vlink_alloc m x u d v : vlink m x u d v → is_Some (m !! x).
Proof. intros (nd & -> & _). eauto. Qed.

Lemma hlink_fun m x p n p' n' :
  hlink m x p n → hlink m x p' n' → p = p' ∧ n = n'.
Proof. intros (nd & E & <- & <-) (nd' & E' & <- & <-). by simplify_eq. Qed.

Lemma vlink_fun m x u d v u' d' v' :
  vlink m x u d v → vlink m x u' d' v' → u = u' ∧ d = d' ∧ v = v'.
Proof.
  intros (nd & E & <- & <- & <-) (nd' & E' & <- & <- & <-). by simplify_eq.
Qed.

Lemma hlink_insert_eq m x nd :
  hlink (<[x := nd]> m) x (_prev_node nd) (_next_node nd).
Proof. exists nd. by rewrite lookup_insert_eq. Qed.

Lemma vlink_insert_eq m x nd :
  vlink (<[x := nd]> m) x (_prev_layer nd) (_next_layer nd) (_data nd).
Proof. exists nd. by rewrite lookup_insert_eq. Qed.

Lemma hlink_insert_ne m x y nd p n :
  x ≠ y → hlink m x p n → hlink (<[y := nd]> m) x p n.
Proof. intros ? (nd' & ? & ?). exists nd'. by rewrite lookup_insert_ne. Qed.

Lemma vlink_insert_ne m x y nd u d v :
  x ≠ y → vlink m x u d v → vlink (<[y := nd]> m) x u d v.
Proof. intros ? (nd' & ? & ?). exists nd'. by rewrite lookup_insert_ne. Qed.

Lemma hlink_delete_ne m x y p n :
  x ≠ y → hlink m x p n → hlink (delete y m) x p n.
Proof. intros ? (nd' & ? & ?). exists nd'. by rewrite lookup_delete_ne. Qed.

Lemma vlink_delete_ne m x y u d v :
  x ≠ y → vlink m x u d v → vlink (delete y m) x u d v.
Proof. intros ? (nd' & ? & ?). exists nd'. by rewrite lookup_delete_ne. Qed.

(** An update of the vertical links of a node keeps all horizontal links. *)
Lemma hlink_insert_v m x y nd nd' p n :
  m !! y = Some nd →
  _prev_node nd' = _prev_node nd → _next_node nd' = _next_node nd →
  hlink m x p n → hlink (<[y := nd']> m) x p n.
Proof.
  intros Hy E1 E2 (nd0 & Hx & <- & <-).
  destruct (decide (x = y)) as [->|Hne].
  - simplify_eq. exists nd'. by rewrite lookup_insert_eq.
  - exists nd0. by rewrite lookup_insert_ne.
Qed.

(** An update of the horizontal links of a node keeps all vertical links. *)
Lemma vlink_insert_h m x y nd nd' u d v :
  m !! y = Some nd →
  _prev_layer nd' = _prev_layer nd → _next_layer nd' = _next_layer nd →
  _data nd' = _data nd →
  vlink m x u d v → vlink (<[y := nd']> m) x u d v.
Proof.
  intros Hy E1 E2 E3 (nd0 & Hx & <- & <- & <-).
  destruct (decide (x = y)) as [->|Hne].
  - simplify_eq. exists nd'. by rewrite lookup_insert_eq.
  - exists nd0. by rewrite lookup_insert_ne.
Qed.

(** ** Doubly linked segments *)

Lemma dseg_app m p l1 l2 e :
  dseg m p (l1 ++ l2) e ↔
  dseg m p l1 (hd_or l2 e) ∧ dseg m (last_or l1 p) l2 e.
Proof.
  revert p. induction l1 as [|x l1 IH]; intros p; simpl.
  - rewrite last_or_nil. naive_solver.
  - rewrite IH, hd_or_app.
    assert (last_or (x :: l1) p = last_or l1 (Some x)) as ->.
    { unfold last_or. rewrite last_cons. by destruct (last l1). }
    naive_solver.
Qed.

(** Heaps that agree on the horizontal links of the nodes of a segment. *)
Lemma dseg_frame m m' p l e :
  (∀ x p n, x ∈ l → hlink m x p n → hlink m' x p n) →
  dseg m p l e → dseg m' p l e.
Proof.
  revert p. induction l as [|x l IH]; intros p Hf; simpl; [done|].
  intros [Hx Hl]. split.
  - apply Hf; [left | done].
  - apply IH; [|done]. intros y ???. apply Hf. by right.
Qed.

Lemma dseg_insert_ne m p l e y nd :
  y ∉ l → dseg m p l e → dseg (<[y := nd]> m) p l e.
Proof.
  intros Hy. apply dseg_frame. intros x ?? Hx. apply hlink_insert_ne.
  intros ->. done.
Qed.

Lemma dseg_delete_ne m p l e y :
  y ∉ l → dseg m p l e → dseg (delete y m) p l e.
Proof.
  intros Hy. apply dseg_frame. intros x ?? Hx. apply hlink_delete_ne.
  intros ->. done.
Qed.

Lemma dseg_insert_v m p l e y nd nd' :
  m !! y = Some nd →
  _prev_node nd' = _prev_node nd → _next_node nd' = _next_node nd →
  dseg m p l e → dseg (<[y := nd']> m) p l e.
Proof.
  intros. eapply dseg_frame; [|done]. intros. by eapply hlink_insert_v.
Qed.

Lemma dseg_alloc m p l e x : dseg m p l e → x ∈ l → is_Some (m !! x).
Proof.
  revert p. induction l as [|y l IH]; intros p; simpl.
  - by intros _ ?%elem_of_nil.
  - intros [Hy Hl] [->|Hx]%elem_of_cons; [by eapply hlink_alloc | eauto].
Qed.

(** The links of the node just before a cut of a segment. *)
Lemma dseg_before m p l1 t l2 e :
  dseg m p (l1 ++ t :: l2) e → hlink m t (last_or l1 p) (hd_or l2 e).
Proof. rewrite dseg_app. simpl. naive_solver. Qed.

(** ** Columns *)

Lemma vcolg_frame m m' v upf c :
  (∀ x u d, x ∈ c → vlink m x u d v → vlink m' x u d v) →
  vcolg m v upf c → vcolg m' v upf c.
Proof.
  intros Hf Hc i x Hx. apply Hf; [by eapply list_elem_of_lookup_2 | by apply Hc].
Qed.

Lemma vcolg_insert_ne m v upf c y nd :
  y ∉ c → vcolg m v upf c → vcolg (<[y := nd]> m) v upf c.
Proof.
  intros Hy. apply vcolg_frame. intros x ?? Hx. apply vlink_insert_ne.
  intros ->. done.
Qed.

Lemma vcolg_delete_ne m v upf c y :
  y ∉ c → vcolg m v upf c → vcolg (delete y m) v upf c.
Proof.
  intros Hy. apply vcolg_frame. intros x ?? Hx. apply vlink_delete_ne.
  intros ->. done.
Qed.

Lemma vcolg_insert_h m v upf c y nd nd' :
  m !! y = Some nd →
  _prev_layer nd' = _prev_layer nd → _next_layer nd' = _next_layer nd →
  _data nd' = _data nd →
  vcolg m v upf c → vcolg (<[y := nd']> m) v upf c.
Proof.
  intros. eapply vcolg_frame; [|done]. intros. by eapply vlink_insert_h.
Qed.

Lemma vcolg_alloc m v upf c x : vcolg m v upf c → x ∈ c → is_Some (m !! x).
Proof.
  intros Hc [i Hi]%list_elem_of_lookup_1. eapply vlink_alloc, Hc, Hi.
Qed.

(** ** Levels *)

Lemma lev_nil i : lev i [] = [].
Proof. done. Qed.

Lemma lev_app i C1 C2 : lev i (C1 ++ C2) = lev i C1 ++ lev i C2.
Proof. apply omap_app. Qed.

Lemma lev_cons_Some i (c : column) C x :
  c.2 !! i = Some x → lev i (c :: C) = x :: lev i C.
Proof. unfold lev. simpl. by intros ->. Qed.

Lemma lev_cons_None i (c : column) C :
  c.2 !! i = None → lev i (c :: C) = lev i C.
Proof. unfold lev. simpl. by intros ->. Qed.

Lemma lev_snoc_Some i (c : column) C x :
  c.2 !! i = Some x → lev i (C ++ [c]) = lev i C ++ [x].
Proof. intros E. by rewrite lev_app, (lev_cons_Some _ _ _ _ E). Qed.

Lemma lev_snoc_None i (c : column) C :
  c.2 !! i = None → lev i (C ++ [c]) = lev i C.
Proof.
  intros E. by rewrite lev_app, (lev_cons_None _ _ _ E), lev_nil, app_nil_r.
Qed.

Lemma elem_of_lev i cols x :
  x ∈ lev i cols ↔ ∃ c : column, c ∈ cols ∧ c.2 !! i = Some x.
Proof. unfold lev. rewrite list_elem_of_omap. naive_solver. Qed.

Lemma lev_zero cols :
  Forall (λ c : column, c.2 ≠ []) cols → length (lev 0 cols) = length cols.
Proof.
  induction 1 as [|[v [|x c]] cols Hc _ IH]; simpl; [done|done|].
  unfold lev in *. simpl. by rewrite IH.
Qed.

Lemma lev_short i cols :
  Forall (λ c : column, (length c.2 ≤ i)%nat) cols → lev i cols = [].
Proof.
  induction 1 as [|c cols Hc _ IH]; [done|].
  rewrite lev_cons_None; [done|]. by apply lookup_ge_None_2.
Qed.

Lemma lev_nil_short i cols :
  lev i cols = [] → Forall (λ c : column, (length c.2 ≤ i)%nat) cols.
Proof.
  induction cols as [|c cols IH]; [done|].
  destruct (c.2 !! i) as [x|] eqn:E.
  - by rewrite (lev_cons_Some _ _ _ _ E).
  - rewrite (lev_cons_None _ _ _ E). intros ?. constructor; [|by apply IH].
    by apply lookup_ge_None_1.
Qed.

(** ** Searching *)

Lemma dseg_lastl_next m p hd L1 L2 e :
  dseg m p (hd :: L1 ++ L2) e →
  ∃ nd, m !! lastl hd L1 = Some nd ∧ _next_node nd = hd_or L2 e.
Proof.
  destruct (decide (L1 = [])) as [->|Hne].
  - simpl. intros [(nd & ? & ? & ?) _]. eauto.
  - destruct (exists_last Hne) as (L & t & ->).
    rewrite lastl_snoc, <- app_assoc. simpl.
    intros [_ (nd & ? & ? & ?)%dseg_before]. eauto.
Qed.

Lemma vcol_data m (c : column) i x :
  vcol m c → c.2 !! i = Some x → ∃ nd, m !! x = Some nd ∧ _data nd = c.1.
Proof. intros Hc Hx. destruct (Hc i x Hx) as (nd & ? & ? & ? & ?). eauto. Qed.

Section Search.
Variable gt : Z → Z → bool.
Variable data : Z.

Lemma scan_forward_spec m fl fr hd i C2 : ∀ C1 fuel,
  dseg m None (hd :: lev i (C1 ++ C2)) None →
  Forall (vcol m) C2 →
  (length C2 < fuel)%nat →
  ∃ A B, C2 = A ++ B ∧
    scan_forward fuel gt (lastl hd (lev i C1)) data (World m fl fr) =
      Some (lastl hd (lev i (C1 ++ A)), World m fl fr) ∧
    (A = [] ∨ ∃ A' c, A = A' ++ [c] ∧ is_Some (c.2 !! i) ∧ gt data c.1 = true) ∧
    (∀ B1 c B2, B = B1 ++ c :: B2 → lev i B1 = [] → is_Some (c.2 !! i) →
       gt data c.1 = false).
Proof.
  induction C2 as [|c C2 IH]; intros C1 fuel Hrow Hv Hfuel.
  - exists [], []. destruct fuel as [|fuel]; [simpl in Hfuel; lia|].
    split; [done|]. split; [|split; [by left|]].
    + rewrite app_nil_r in *. simpl.
      rewrite <- (app_nil_r (lev i C1)) in Hrow.
      apply dseg_lastl_next in Hrow as (nd & Hnd & Hnx). simpl in Hnx.
      rewrite (run_bind _ _ _ _ _ (load_ok _ _ _ _ _ Hnd)). by rewrite Hnx.
    + intros B1 ? ? E. by destruct B1.
  - destruct fuel as [|fuel]; [simpl in Hfuel; lia|]. simpl in Hfuel.
    apply Forall_cons in Hv as [Hc Hv].
    destruct (c.2 !! i) as [x|] eqn:Ex.
    + pose proof Hrow as Hrow'.
      rewrite lev_app, (lev_cons_Some _ _ _ _ Ex) in Hrow'.
      apply dseg_lastl_next in Hrow' as (nd & Hnd & Hnx). simpl in Hnx.
      destruct (vcol_data _ _ _ _ Hc Ex) as (ndx & Hndx & Hdx).
      destruct (gt data c.1) eqn:Hgt.
      * destruct (IH (C1 ++ [c]) fuel) as (A & B & -> & Hrun & HA & HB);
          [by rewrite <- app_assoc | done | lia |].
        exists (c :: A), B. split; [done|]. split; [|split].
        -- simpl.
           rewrite (run_bind _ _ _ _ _ (load_ok _ _ _ _ _ Hnd)), Hnx.
           rewrite (run_bind _ _ _ _ _ (load_ok _ _ _ _ _ Hndx)), Hdx, Hgt.
           rewrite (lev_snoc_Some _ _ _ _ Ex), lastl_snoc in Hrun.
           rewrite Hrun. by rewrite <- app_assoc.
        -- right. destruct HA as [->|(A' & c' & -> & ? & ?)].
           ++ exists [], c. rewrite Ex. eauto.
           ++ exists (c :: A'), c'. eauto.
        -- done.
      * exists [], (c :: C2). split; [done|]. split; [|split; [by left|]].
        -- simpl.
           rewrite (run_bind _ _ _ _ _ (load_ok _ _ _ _ _ Hnd)), Hnx.
           rewrite (run_bind _ _ _ _ _ (load_ok _ _ _ _ _ Hndx)), Hdx, Hgt.
           by rewrite app_nil_r.
        -- intros [|c' B1] c0 B2 E HB1 Hc0; simpl in E; injection E as <- ->;
             [done|].
           by rewrite (lev_cons_Some _ _ _ _ Ex) in HB1.
    + destruct (IH (C1 ++ [c]) (S fuel)) as (A & B & -> & Hrun & HA & HB);
        [by rewrite <- app_assoc | done | lia |].
      rewrite (lev_snoc_None _ _ _ Ex) in Hrun.
      destruct HA as [->|HA].
      * exists [], (c :: B). split; [done|]. split; [|split; [by left|]].
        -- rewrite Hrun. rewrite !app_nil_r. by rewrite (lev_snoc_None _ _ _ Ex).
        -- intros [|c' B1] c0 B2 E HB1 Hc0; simpl in E; injection E as <- ->.
           ++ rewrite Ex in Hc0. by destruct Hc0.
           ++ eapply HB; [done| |done].
              by rewrite (lev_cons_None _ _ _ Ex) in HB1.
      * exists (c :: A), B. split; [done|]. split; [|split].
        -- rewrite Hrun. by rewrite <- app_assoc.
        -- right. destruct HA as (A' & c' & -> & ? & ?).
           exists (c :: A'), c'. eauto.
        -- done.
Qed.

Lemma find_previous_from m fl fr H cols h0 :
  wf m H cols → H !! 0%nat = Some h0 →
  ∀ i hd C1 C2 fuel,
    H !! i = Some hd → cols = C1 ++ C2 → before_target gt data i C1 →
    (length cols + i + 1 < fuel)%nat →
    ∃ D1 D2, cols = D1 ++ D2 ∧
      _find_previous fuel gt (lastl hd (lev i C1)) data (World m fl fr) =
        Some (lastl h0 (lev 0 D1), World m fl fr) ∧
      before_target gt data 0 D1 ∧ stops_at gt data D2.
Proof.
  intros (Hsh & Hne & Hrows & Hhc & Hvc) Hh0.
  assert (∀ i hd C1 C2 fuel,
    H !! i = Some hd → cols = C1 ++ C2 → (length cols + i + 1 < S fuel)%nat →
    ∃ A B, C2 = A ++ B ∧
    scan_forward fuel gt (lastl hd (lev i C1)) data (World m fl fr) =
      Some (lastl hd (lev i (C1 ++ A)), World m fl fr) ∧
    (A = [] ∨ ∃ A' c, A = A' ++ [c] ∧ is_Some (c.2 !! i) ∧ gt data c.1 = true) ∧
    (∀ B1 c B2, B = B1 ++ c :: B2 → lev i B1 = [] → is_Some (c.2 !! i) →
       gt data c.1 = false)) as Hscan_at.
  { intros i hd C1 C2 fuel Hhd -> Hfuel. rewrite length_app in Hfuel.
    apply scan_forward_spec;
      [by apply Hrows | by apply Forall_app in Hvc as [_ ?] | lia]. }
  induction i as [|j IH]; intros hd C1 C2 fuel Hhd -> Hbt Hfuel;
    (destruct fuel as [|fuel]; [lia|]);
    destruct (Hscan_at _ hd C1 C2 fuel Hhd eq_refl Hfuel)
      as (A & B & -> & Hscan & HA & HB).
  - assert (hd = h0) as -> by congruence.
    exists (C1 ++ A), B. split; [by rewrite app_assoc|].
    split; [|split].
    + simpl. rewrite (run_bind _ _ _ _ _ Hscan).
      assert (∃ nd, m !! lastl h0 (lev 0 (C1 ++ A)) = Some nd ∧
                    _next_layer nd = None) as (nd & Hnd & Hdn).
      { destruct (decide (C1 ++ A = [])) as [->|Hnil].
        - destruct (Hhc _ _ Hh0) as (nd & ? & ? & ? & ?). eauto.
        - destruct (exists_last Hnil) as (C & c & E). rewrite E.
          assert (is_Some (c.2 !! 0%nat)) as [x Hx].
          { destruct HA as [->|(A' & c' & -> & ? & ?)].
            - rewrite app_nil_r in E. subst C1.
              destruct Hbt as [?|(C' & c' & E' & ? & ?)];
                [by destruct C|].
              by apply app_inj_tail in E' as [_ <-].
            - rewrite app_assoc in E. by apply app_inj_tail in E as [_ <-]. }
          rewrite (lev_snoc_Some _ _ _ _ Hx), lastl_snoc.
          assert (vcol m c) as Hc.
          { eapply Forall_forall; [exact Hvc|]. rewrite app_assoc, E.
            set_solver. }
          destruct (Hc _ _ Hx) as (nd & ? & ? & ? & ?). eauto. }
      rewrite (run_bind _ _ _ _ _ (load_ok _ _ _ _ _ Hnd)). by rewrite Hdn.
    + destruct HA as [->|(A' & c' & -> & ? & ?)].
      * by rewrite app_nil_r.
      * right. exists (C1 ++ A'), c'. by rewrite app_assoc.
    + destruct B as [|c B]; [by left|]. right. exists c, B. split; [done|].
      apply (HB [] c B); [done|done|].
      assert (c.2 ≠ []) as Hc.
      { eapply Forall_forall in Hne; [exact Hne|]. set_solver. }
      destruct c.2; [done|]. simpl. eauto.
  - assert (is_Some (H !! j)) as [hj Hhj].
    { apply lookup_lt_is_Some. apply lookup_lt_Some in Hhd. lia. }
    assert (before_target gt data (S j) (C1 ++ A)) as Hbt'.
    { destruct HA as [->|(A' & c' & -> & ? & ?)].
      - by rewrite app_nil_r.
      - right. exists (C1 ++ A'), c'. by rewrite app_assoc. }
    assert (∃ nd, m !! lastl hd (lev (S j) (C1 ++ A)) = Some nd ∧
               _next_layer nd = Some (lastl hj (lev j (C1 ++ A))) ∧
               before_target gt data j (C1 ++ A)) as (nd & Hnd & Hdn & Hbtj).
    { destruct Hbt' as [E|(C & c & E & [x Hx] & Hgt)]; rewrite E.
      - destruct (Hhc _ _ Hhd) as (nd & ? & ? & Hd & ?).
        rewrite !lev_nil, !lastl_nil.
        exists nd. split; [done|]. split; [congruence|]. by left.
      - rewrite (lev_snoc_Some _ _ _ _ Hx), lastl_snoc.
        assert (vcol m c) as Hc.
        { eapply Forall_forall; [exact Hvc|].
          rewrite app_assoc, E. set_solver. }
        destruct (Hc _ _ Hx) as (nd & ? & ? & Hd & ?).
        assert (is_Some (c.2 !! j)) as [y Hy].
        { apply lookup_lt_is_Some. apply lookup_lt_Some in Hx. lia. }
        exists nd. split; [done|]. split.
        + rewrite (lev_snoc_Some _ _ _ _ Hy), lastl_snoc. congruence.
        + right. exists C, c. eauto. }
    destruct (IH hj (C1 ++ A) B fuel) as (D1 & D2 & E & Hrun & ? & ?);
      [done | by rewrite app_assoc | done | rewrite !length_app in *; lia |].
    exists D1, D2. split; [by rewrite <- E, app_assoc|]. split; [|done].
    cbn [_find_previous]. rewrite (run_bind _ _ _ _ _ Hscan).
    rewrite (run_bind _ _ _ _ _ (load_ok _ _ _ _ _ Hnd)). by rewrite Hdn.
Qed.

End Search.

Lemma wf_header0 m H cols : wf m H cols → ∃ h0, H !! 0%nat = Some h0.
Proof. intros ((HH & _) & _). destruct H; [done|]. eauto. Qed.

Lemma last_lookup_pred {A} (l : list A) x :
  last l = Some x → l !! pred (length l) = Some x.
Proof. by rewrite last_lookup. Qed.

Lemma wf_bottom m H cols (c : column) :
  wf m H cols → c ∈ cols →
  ∃ x nd, c.2 !! 0%nat = Some x ∧ m !! x = Some nd ∧ _data nd = c.1 ∧
          _next_layer nd = None.
Proof.
  intros (_ & Hne & _ & _ & Hvc) Hc.
  eapply Forall_forall in Hne; [|exact Hc].
  eapply Forall_forall in Hvc; [|exact Hc].
  destruct c.2 as [|x l] eqn:E; [done|].
  destruct (Hvc 0%nat x) as (nd & ? & ? & ? & ?); [by rewrite E|].
  exists x, nd. eauto.
Qed.

Section Search.
Variable gt : Z → Z → bool.
Variable data : Z.

(** The outcome of the search from the topmost header, with what the callers
    read next: the node after the one returned. *)
Lemma find_previous_top m fl fr H cols top fuel :
  wf m H cols → last H = Some top →
  (length cols + length H < fuel)%nat →
  ∃ D1 D2 h0 prev p, cols = D1 ++ D2 ∧ H !! 0%nat = Some h0 ∧
    _find_previous fuel gt top data (World m fl fr) =
      Some (prev, World m fl fr) ∧
    prev = lastl h0 (lev 0 D1) ∧ m !! prev = Some p ∧
    before_target gt data 0 D1 ∧ stops_at gt data D2 ∧
    match D2 with
    | [] => _next_node p = None
    | c :: _ => ∃ x nd, c.2 !! 0%nat = Some x ∧ _next_node p = Some x ∧
                        m !! x = Some nd ∧ _data nd = c.1
    end.
Proof.
  intros Hwf Htop Hfuel.
  destruct (wf_header0 _ _ _ Hwf) as [h0 Hh0].
  apply last_lookup_pred in Htop.
  destruct (find_previous_from gt data m fl fr H cols h0 Hwf Hh0
              (pred (length H)) top [] cols fuel)
    as (D1 & D2 & E & Hrun & Hbt & Hst);
    [done | done | by left | apply lookup_lt_Some in Htop; lia |].
  rewrite lev_nil, lastl_nil in Hrun.
  pose proof Hwf as (_ & _ & Hrows & _ & _).
  specialize (Hrows _ _ Hh0). rewrite E, lev_app in Hrows.
  apply dseg_lastl_next in Hrows as (p & Hp & Hnx).
  exists D1, D2, h0, (lastl h0 (lev 0 D1)), p.
  repeat (split; [done|]).
  destruct D2 as [|c D2]; [done|].
  destruct (wf_bottom m H cols c Hwf) as (x & nd & Hx & Hnd & Hd & _);
    [rewrite E; set_solver|].
  exists x, nd. rewrite (lev_cons_Some _ _ _ _ Hx) in Hnx. eauto.
Qed.

End Search.

(** ** Strictly increasing payloads *)

Lemma sorted_app_inv gt (l1 l2 : list Z) :
  strictly_sorted gt (l1 ++ l2) →
  strictly_sorted gt l1 ∧ strictly_sorted gt l2 ∧
  ∀ a b, a ∈ l1 → b ∈ l2 → gt b a = true.
Proof.
  unfold strictly_sorted. induction l1 as [|x l1 IH]; simpl.
  - intros ?. split; [constructor|]. split; [done|]. by intros ?? ?%elem_of_nil.
  - intros [Hs Hx]%StronglySorted_inv. destruct (IH Hs) as (? & ? & Hc).
    split; [|split; [done|]].
    + constructor; [done|]. apply Forall_app in Hx. tauto.
    + intros a b [->|?]%elem_of_cons ?; [|by eauto].
      rewrite Forall_forall in Hx. apply Hx. set_solver.
Qed.

(** In a sorted list the search splits the payloads in those before the
    target and those not before it. *)
Lemma sorted_split gt data (D1 D2 : list column) :
  gt_transitive gt →
  strictly_sorted gt ((D1 ++ D2).*1) →
  before_target gt data 0 D1 → stops_at gt data D2 →
  Forall (λ c : column, gt data c.1 = true) D1 ∧
  Forall (λ c : column, gt data c.1 = false) D2.
Proof.
  intros gt_trans.
  rewrite fmap_app. intros (Hs1 & Hs2 & _)%sorted_app_inv Hbt Hst. split.
  - destruct Hbt as [->|(C & c & -> & _ & Hc)]; [done|].
    rewrite fmap_app in Hs1. apply sorted_app_inv in Hs1 as (_ & _ & Hlt).
    apply Forall_app. split; [|by constructor].
    apply Forall_forall. intros c' Hc'. eapply gt_trans; [exact Hc|].
    apply Hlt; [by apply list_elem_of_fmap_2 | set_solver].
  - destruct Hst as [->|(c & C & -> & Hc)]; [done|].
    constructor; [done|]. apply Forall_forall. intros c' Hc'.
    destruct (gt data c'.1) eqn:E; [|done].
    assert (gt c'.1 c.1 = true) as Hlt.
    { simpl in Hs2. apply StronglySorted_inv in Hs2 as [_ Hall].
      rewrite Forall_forall in Hall. by apply Hall, list_elem_of_fmap_2. }
    by rewrite (gt_trans _ _ _ E Hlt) in Hc.
Qed.

(** A stored payload is found right after the position of the search. *)
Lemma sorted_found gt data (D1 D2 : list column) :
  gt_irreflexive gt → gt_transitive gt →
  strictly_sorted gt ((D1 ++ D2).*1) →
  before_target gt data 0 D1 → stops_at gt data D2 →
  data ∈ (D1 ++ D2).*1 → ∃ c C, D2 = c :: C ∧ c.1 = data.
Proof.
  intros gt_irr gt_trans Hs Hbt Hst Hin.
  destruct (sorted_split _ _ _ _ gt_trans Hs Hbt Hst) as [H1 H2].
  rewrite fmap_app in Hin, Hs. apply elem_of_app in Hin as [Hin|Hin].
  - apply list_elem_of_fmap in Hin as (c & -> & Hc).
    rewrite Forall_forall in H1. specialize (H1 _ Hc). by rewrite gt_irr in H1.
  - destruct D2 as [|c C]; [by apply elem_of_nil in Hin|].
    exists c, C. split; [done|].
    simpl in Hin. apply elem_of_cons in Hin as [->|Hin]; [done|].
    apply sorted_app_inv in Hs as (_ & Hs2 & _). simpl in Hs2.
    apply StronglySorted_inv in Hs2 as [_ Hall].
    rewrite Forall_forall in Hall. specialize (Hall _ Hin).
    apply Forall_cons in H2 as [Hc _]. congruence.
Qed.

(** ** Distinctness of the nodes *)

Lemma NoDup_join_elem {A} (L : list (list A)) l :
  NoDup (mjoin L) → l ∈ L → NoDup l.
Proof.
  induction L as [|l' L IH]; simpl; [by intros _ ?%elem_of_nil|].
  intros (? & ? & ?)%NoDup_app [->|?]%elem_of_cons; eauto.
Qed.

Lemma NoDup_join_unique {A} (L : list (list A)) (i j : nat) l l' x :
  NoDup (mjoin L) → L !! i = Some l → L !! j = Some l' →
  x ∈ l → x ∈ l' → i = j.
Proof.
  revert i j. induction L as [|l0 L IH]; intros i j; simpl; [done|].
  intros (Hl0 & Hdis & HL)%NoDup_app Hi Hj Hx Hx'.
  destruct i as [|i], j as [|j]; simplify_eq/=; [done| | |f_equal; eauto].
  - exfalso. eapply Hdis; [done|]. apply list_elem_of_join.
    exists l'. split; [done | by eapply list_elem_of_lookup_2].
  - exfalso. eapply Hdis; [done|]. apply list_elem_of_join.
    exists l. split; [done | by eapply list_elem_of_lookup_2].
Qed.

(** A node is at one place only: one level of one column. *)
Lemma column_place_unique (cols : list column) (a b : nat) ca cb
    (i j : nat) x :
  NoDup (mjoin (cols.*2)) →
  cols !! a = Some ca → cols !! b = Some cb →
  ca.2 !! i = Some x → cb.2 !! j = Some x → a = b ∧ i = j.
Proof.
  intros Hnd Ha Hb Hi Hj.
  assert (a = b) as ->.
  { eapply (NoDup_join_unique (cols.*2) a b ca.2 cb.2 x); [done| | | |].
    - by rewrite list_lookup_fmap, Ha.
    - by rewrite list_lookup_fmap, Hb.
    - by eapply list_elem_of_lookup_2.
    - by eapply list_elem_of_lookup_2. }
  split; [done|]. simplify_eq.
  eapply NoDup_lookup; [|exact Hi|exact Hj].
  eapply NoDup_join_elem; [exact Hnd|].
  apply list_elem_of_fmap_2. by eapply list_elem_of_lookup_2.
Qed.

Lemma level_unique_cols (cols : list column) (i j : nat) x :
  NoDup (mjoin (cols.*2)) → x ∈ lev i cols → x ∈ lev j cols → i = j.
Proof.
  intros Hnd (ca & [a Ha]%list_elem_of_lookup_1 & Hi)%elem_of_lev
             (cb & [b Hb]%list_elem_of_lookup_1 & Hj)%elem_of_lev.
  by destruct (column_place_unique cols a b ca cb i j x).
Qed.

Lemma lev_in_nodes i cols x : x ∈ lev i cols → x ∈ mjoin (cols.*2).
Proof.
  intros (c & Hc & Hx)%elem_of_lev. apply list_elem_of_join. exists c.2.
  split; [by eapply list_elem_of_lookup_2 | by apply list_elem_of_fmap_2].
Qed.

Lemma row_level_unique H cols (i j : nat) hi hj x :
  NoDup (nodes_of H cols) →
  H !! i = Some hi → H !! j = Some hj →
  x ∈ hi :: lev i cols → x ∈ hj :: lev j cols → i = j.
Proof.
  unfold nodes_of. intros (HH & Hdis & Hc)%NoDup_app Hi Hj.
  intros [->|Hx]%elem_of_cons [E|Hx']%elem_of_cons.
  - subst. eapply (NoDup_lookup H); eauto.
  - exfalso. eapply (Hdis hi); [by eapply list_elem_of_lookup_2|].
    by eapply lev_in_nodes.
  - subst. exfalso. eapply (Hdis hj); [by eapply list_elem_of_lookup_2|].
    by eapply lev_in_nodes.
  - eapply (level_unique_cols cols i j x); eauto.
Qed.

Lemma NoDup_lev i cols : NoDup (mjoin (cols.*2)) → NoDup (lev i cols).
Proof.
  induction cols as [|c cols IH]; [constructor|].
  intros Hnd. rewrite fmap_cons in Hnd. simpl in Hnd.
  apply NoDup_app in Hnd as (Hc & Hdis & Hcs).
  destruct (c.2 !! i) as [x|] eqn:E.
  - rewrite (lev_cons_Some _ _ _ _ E). constructor; [|by apply IH].
    intros Hx%lev_in_nodes. eapply Hdis; [|done].
    by eapply list_elem_of_lookup_2.
  - rewrite (lev_cons_None _ _ _ E). by apply IH.
Qed.

Lemma NoDup_row H cols i hd :
  NoDup (nodes_of H cols) → H !! i = Some hd → NoDup (hd :: lev i cols).
Proof.
  unfold nodes_of. intros (HH & Hdis & Hc)%NoDup_app Hi.
  constructor; [|by apply NoDup_lev].
  intros Hx%lev_in_nodes. eapply Hdis; [|done].
  by eapply list_elem_of_lookup_2.
Qed.

(** ** Splicing a node into and out of a segment *)

Lemma dseg_keep m m' S p l e :
  hkeep m m' S → (∀ x, x ∈ l → x ∉ S) → dseg m p l e → dseg m' p l e.
Proof. intros Hk Hd. apply dseg_frame. intros x ????. apply Hk; eauto. Qed.

Lemma vcolg_keep m m' S v upf c :
  vkeep m m' S → (∀ x, x ∈ c → x ∉ S) → vcolg m v upf c → vcolg m' v upf c.
Proof. intros Hk Hd. apply vcolg_frame. intros x ????. apply Hk; eauto. Qed.

Lemma dseg_splice_in m m' p0 A prev new L2 e :
  dseg m p0 (A ++ prev :: L2) e → NoDup (A ++ prev :: L2) →
  hkeep m m' (prev :: option_list (head L2)) →
  hlink m' prev (last_or A p0) (Some new) →
  hlink m' new (Some prev) (hd_or L2 e) →
  (∀ nx L2', L2 = nx :: L2' → hlink m' nx (Some new) (hd_or L2' e)) →
  dseg m' p0 (A ++ prev :: new :: L2) e.
Proof.
  intros Hseg Hnd Hk Hprev Hnew Hnx.
  apply dseg_app in Hseg as [HA [_ HL2]].
  apply NoDup_app in Hnd as (_ & HdA & [HpL2 HndL2]%NoDup_cons).
  apply dseg_app. split; [|split; [done|split; [done|]]].
  - eapply dseg_keep; [exact Hk| |exact HA].
    intros x Hx [->|Hin]%elem_of_cons; [by eapply HdA; [|left]|].
    destruct L2 as [|nx L2']; simpl in Hin; [by apply elem_of_nil in Hin|].
    apply list_elem_of_singleton in Hin as ->.
    eapply HdA; [done|]. right. by left.
  - destruct L2 as [|nx L2']; [done|]. simpl in *. destruct HL2 as [_ HL2].
    split; [by eapply Hnx|].
    apply NoDup_cons in HndL2 as [Hnx' _].
    eapply dseg_keep; [exact Hk| |exact HL2].
    intros x Hx [->|Hin]%elem_of_cons.
    + apply HpL2. by right.
    + apply list_elem_of_singleton in Hin as ->. done.
Qed.

Lemma dseg_splice_out m m' p0 A prev x L2 e :
  dseg m p0 (A ++ prev :: x :: L2) e → NoDup (A ++ prev :: x :: L2) →
  hkeep m m' (prev :: x :: option_list (head L2)) →
  hlink m' prev (last_or A p0) (hd_or L2 e) →
  (∀ nx L2', L2 = nx :: L2' → hlink m' nx (Some prev) (hd_or L2' e)) →
  dseg m' p0 (A ++ prev :: L2) e.
Proof.
  intros Hseg Hnd Hk Hprev Hnx.
  apply dseg_app in Hseg as [HA [_ [_ HL2]]].
  apply NoDup_app in Hnd as (_ & HdA & [HpL2 [HxL2 HndL2]%NoDup_cons]%NoDup_cons).
  apply dseg_app. split; [|split; [done|]].
  - eapply dseg_keep; [exact Hk| |exact HA].
    intros y Hy [->|[->|Hin]%elem_of_cons]%elem_of_cons.
    + by eapply HdA; [|left].
    + eapply HdA; [done|]. right. by left.
    + destruct L2 as [|nx L2']; simpl in Hin; [by apply elem_of_nil in Hin|].
      apply list_elem_of_singleton in Hin as ->.
      eapply HdA; [done|]. right. right. by left.
  - destruct L2 as [|nx L2']; [done|]. simpl in *. destruct HL2 as [_ HL2].
    split; [by eapply Hnx|].
    apply NoDup_cons in HndL2 as [Hnx' _].
    eapply dseg_keep; [exact Hk| |exact HL2].
    intros y Hy [->|[->|Hin]%elem_of_cons]%elem_of_cons.
    + apply HpL2. right. by right.
    + apply HxL2. by right.
    + apply list_elem_of_singleton in Hin as ->. done.
Qed.

Lemma cons_snoc_lastl {A} (hd : A) (L : list A) :
  ∃ B, hd :: L = B ++ [lastl hd L] ∧ last_or B None = last (removelast (hd :: L)).
Proof.
  destruct (decide (L = [])) as [->|Hne].
  - exists []. done.
  - destruct (exists_last Hne) as (L' & t & ->).
    exists (hd :: L'). rewrite lastl_snoc. split; [done|].
    rewrite app_comm_cons, removelast_last. unfold last_or.
    by destruct (last (hd :: L')).
Qed.

(** ** The effect of heap updates on links *)

Lemma hkeep_refl m S : hkeep m m S.
Proof. by intros x p n _. Qed.

Lemma vkeep_refl m S : vkeep m m S.
Proof. by intros x u d v _. Qed.

Lemma hkeep_trans m1 m2 m3 S1 S2 S :
  hkeep m1 m2 S1 → hkeep m2 m3 S2 → S1 ⊆ S → S2 ⊆ S → hkeep m1 m3 S.
Proof. intros H1 H2 ?? x p n Hx Hl. apply H2, H1; set_solver. Qed.

Lemma vkeep_trans m1 m2 m3 S1 S2 S :
  vkeep m1 m2 S1 → vkeep m2 m3 S2 → S1 ⊆ S → S2 ⊆ S → vkeep m1 m3 S.
Proof. intros H1 H2 ?? x u d v Hx Hl. apply H2, H1; set_solver. Qed.

Lemma hkeep_alloc m x nd S : m !! x = None → hkeep m (<[x := nd]> m) S.
Proof.
  intros Hx y p n _ Hl. apply hlink_insert_ne; [|done].
  intros ->. apply hlink_alloc in Hl as [? ?]. congruence.
Qed.

Lemma vkeep_alloc m x nd S : m !! x = None → vkeep m (<[x := nd]> m) S.
Proof.
  intros Hx y u d v _ Hl. apply vlink_insert_ne; [|done].
  intros ->. apply vlink_alloc in Hl as [? ?]. congruence.
Qed.

Lemma hkeep_free m x : hkeep m (delete x m) [x].
Proof. intros y p n Hy Hl. apply hlink_delete_ne; [set_solver|done]. Qed.

Lemma vkeep_free m x : vkeep m (delete x m) [x].
Proof. intros y u d v Hy Hl. apply vlink_delete_ne; [set_solver|done]. Qed.

Lemma hlink_alter m (f : node → node) l x p n :
  hlink m x p n →
  (x = l → ∀ nd, _prev_node nd = p → _next_node nd = n →
     _prev_node (f nd) = p ∧ _next_node (f nd) = n) →
  hlink (alter f l m) x p n.
Proof.
  intros (nd & Hx & Hp & Hn) Hf. unfold hlink. rewrite lookup_alter.
  destruct (decide (l = x)) as [->|?].
  - rewrite Hx. simpl. exists (f nd). split; [done|]. by apply Hf.
  - exists nd. done.
Qed.

Lemma vlink_alter m (f : node → node) l x u d v :
  vlink m x u d v →
  (x = l → ∀ nd, _prev_layer nd = u → _next_layer nd = d → _data nd = v →
     _prev_layer (f nd) = u ∧ _next_layer (f nd) = d ∧ _data (f nd) = v) →
  vlink (alter f l m) x u d v.
Proof.
  intros (nd & Hx & Hu & Hd & Hv) Hf. unfold vlink. rewrite lookup_alter.
  destruct (decide (l = x)) as [->|?].
  - rewrite Hx. simpl. exists (f nd). split; [done|]. by apply Hf.
  - exists nd. done.
Qed.

Lemma hkeep_set_prev_node m l v : hkeep m (alter (with_prev_node v) l m) [l].
Proof. intros x p n Hx Hl. apply hlink_alter; [done|]. set_solver. Qed.

Lemma hkeep_set_next_node m l v : hkeep m (alter (with_next_node v) l m) [l].
Proof. intros x p n Hx Hl. apply hlink_alter; [done|]. set_solver. Qed.

Lemma hkeep_set_prev_layer m l v S :
  hkeep m (alter (with_prev_layer v) l m) S.
Proof. intros x p n Hx Hl. apply hlink_alter; [done|]. by intros _ nd. Qed.

Lemma hkeep_set_next_layer m l v S :
  hkeep m (alter (with_next_layer v) l m) S.
Proof. intros x p n Hx Hl. apply hlink_alter; [done|]. by intros _ nd. Qed.

Lemma vkeep_set_prev_node m l v S :
  vkeep m (alter (with_prev_node v) l m) S.
Proof. intros x u d w Hx Hl. apply vlink_alter; [done|]. by intros _ nd. Qed.

Lemma vkeep_set_next_node m l v S :
  vkeep m (alter (with_next_node v) l m) S.
Proof. intros x u d w Hx Hl. apply vlink_alter; [done|]. by intros _ nd. Qed.

Lemma vkeep_set_prev_layer m l v : vkeep m (alter (with_prev_layer v) l m) [l].
Proof. intros x u d w Hx Hl. apply vlink_alter; [done|]. set_solver. Qed.

Lemma vkeep_set_next_layer m l v : vkeep m (alter (with_next_layer v) l m) [l].
Proof. intros x u d w Hx Hl. apply vlink_alter; [done|]. set_solver. Qed.

Lemma hlink_set_prev_node m l v p n :
  hlink m l p n → hlink (alter (with_prev_node v) l m) l v n.
Proof.
  intros (nd & Hx & Hp & Hn). unfold hlink. rewrite lookup_alter, decide_True by done.
  rewrite Hx. by exists (with_prev_node v nd).
Qed.

Lemma hlink_set_next_node m l v p n :
  hlink m l p n → hlink (alter (with_next_node v) l m) l p v.
Proof.
  intros (nd & Hx & Hp & Hn). unfold hlink. rewrite lookup_alter, decide_True by done.
  rewrite Hx. by exists (with_next_node v nd).
Qed.

Lemma vlink_set_prev_layer m l w u d v :
  vlink m l u d v → vlink (alter (with_prev_layer w) l m) l w d v.
Proof.
  intros (nd & Hx & Hu & Hd & Hv). unfold vlink. rewrite lookup_alter, decide_True by done.
  rewrite Hx. by exists (with_prev_layer w nd).
Qed.

Lemma vlink_set_next_layer m l w u d v :
  vlink m l u d v → vlink (alter (with_next_layer w) l m) l u w v.
Proof.
  intros (nd & Hx & Hu & Hd & Hv). unfold vlink. rewrite lookup_alter, decide_True by done.
  rewrite Hx. by exists (with_next_layer w nd).
Qed.

Lemma hlink_vlink m x p n u d v :
  hlink m x p n → vlink m x u d v →
  m !! x = Some (Node p n u d v).
Proof.
  intros (nd & Hx & <- & <-) (nd' & Hx' & <- & <- & <-). simplify_eq.
  by destruct nd.
Qed.

(** ** Graphs with a pending column *)

Lemma lev_mid i C1 v (c : list loc) C2 :
  lev i (C1 ++ (v, c) :: C2) = lev i C1 ++ option_list (c !! i) ++ lev i C2.
Proof.
  rewrite lev_app. f_equal. unfold lev at 1. simpl. by destruct (c !! i).
Qed.

Lemma lev_mid_None i C1 v (c : list loc) C2 :
  c !! i = None → lev i (C1 ++ (v, c) :: C2) = lev i C1 ++ lev i C2.
Proof. intros E. by rewrite lev_mid, E. Qed.

Lemma lev_mid_Some i C1 v (c : list loc) C2 x :
  c !! i = Some x → lev i (C1 ++ (v, c) :: C2) = lev i C1 ++ x :: lev i C2.
Proof. intros E. by rewrite lev_mid, E. Qed.

Lemma nodes_of_mid H C1 v (c : list loc) C2 :
  nodes_of H (C1 ++ (v, c) :: C2) ≡ₚ c ++ nodes_of H (C1 ++ C2).
Proof.
  unfold nodes_of. rewrite !fmap_app, !join_app, fmap_cons. simpl.
  rewrite !(app_assoc _ _ (mjoin C2.*2)), (app_assoc H).
  rewrite (Permutation_app_comm c). by rewrite <- !app_assoc.
Qed.

Lemma wfp_alloc m H C1 v c upf C2 x :
  wfp m H C1 v c upf C2 → x ∈ nodes_of H (C1 ++ (v, c) :: C2) →
  is_Some (m !! x).
Proof.
  intros (_ & _ & _ & Hh & Hv & Hc). rewrite nodes_of_mid.
  unfold nodes_of. rewrite !elem_of_app, list_elem_of_join.
  intros [?|[?|(l & Hx & (c0 & -> & Hc0)%list_elem_of_fmap)]].
  - eapply vcolg_alloc; [exact Hc|done].
  - eapply vcolg_alloc; [exact Hh|done].
  - eapply Forall_forall in Hv; [|exact Hc0].
    eapply vcolg_alloc; [exact Hv|done].
Qed.

Lemma wfp_fresh m H C1 v c upf C2 :
  wfp m H C1 v c upf C2 →
  fresh (dom m) ∉ nodes_of H (C1 ++ (v, c) :: C2).
Proof.
  intros Hwf Hin. apply (wfp_alloc _ _ _ _ _ _ _ _ Hwf) in Hin as [nd Hnd].
  by rewrite fresh_not_alloc in Hnd.
Qed.

Lemma wfp_change m m' H C1 v c upf C2 c' upf' (i : nat) hd :
  wfp m H C1 v c upf C2 →
  H !! i = Some hd →
  (∀ j : nat, j ≠ i → c' !! j = c !! j) →
  NoDup (nodes_of H (C1 ++ (v, c') :: C2)) →
  (length c' ≤ length H)%nat →
  hkeep m m' (hd :: lev i (C1 ++ (v, c) :: C2)) →
  vkeep m m' c →
  dseg m' None (hd :: lev i (C1 ++ (v, c') :: C2)) None →
  vcolg m' v upf' c' →
  wfp m' H C1 v c' upf' C2.
Proof.
  intros ((HH & Hnd & Hlen) & Hne & Hrows & Hh & Hv & Hc)
    Hhd Hsame Hnd' Hlen' Hhk Hvk Hrow Hcol.
  assert (∀ x, x ∈ c → x ∉ nodes_of H (C1 ++ C2)) as Hdis.
  { intros x Hx Hx'. rewrite nodes_of_mid in Hnd.
    apply NoDup_app in Hnd as (_ & Hd & _). by eapply Hd. }
  split; [|split; [done|split; [|split; [|split; [|done]]]]].
  - split; [done|]. split; [done|].
    apply Forall_app in Hlen as [? [_ ?]%Forall_cons].
    apply Forall_app. split; [done|]. by constructor.
  - intros j hj Hhj. destruct (decide (j = i)) as [->|Hji].
    { by simplify_eq. }
    rewrite lev_mid, (Hsame _ Hji), <- (lev_mid j C1 v c C2).
    eapply dseg_keep; [exact Hhk| |by apply Hrows].
    intros x Hx Hx'. apply Hji.
    by eapply (row_level_unique H (C1 ++ (v, c) :: C2) j i hj hd x).
  - eapply vcolg_keep; [exact Hvk| |exact Hh].
    intros x Hx Hx'. eapply Hdis; [done|]. unfold nodes_of. set_solver.
  - apply Forall_forall. intros c0 Hc0.
    eapply vcolg_keep; [exact Hvk| |by eapply Forall_forall in Hv].
    intros x Hx Hx'. eapply Hdis; [done|]. unfold nodes_of.
    apply elem_of_app. right. apply list_elem_of_join. exists c0.2.
    split; [done|]. by apply list_elem_of_fmap_2.
Qed.

(** ** Linking a new node into a level *)

Lemma last_lookup_S (c : list loc) (i : nat) :
  length c = i → last c = match i with O => None | S j => c !! j end.
Proof. intros <-. rewrite last_lookup. by destruct c. Qed.

Lemma link_new_wfp m H C1 v c C2 hd :
  wfp m H C1 v c (λ _, None) C2 → H !! length c = Some hd →
  let prev := lastl hd (lev (length c) C1) in
  let new := fresh (dom m) in
  ∃ p, m !! prev = Some p ∧
    let m1 := <[new := Node (Some prev) (_next_node p) None (last c) v]> m in
    let m2 := alter (with_next_node (Some new)) prev m1 in
    let m3 := match _next_node p with
              | Some nx => alter (with_prev_node (Some new)) nx m2
              | None => m2
              end in
    new ≠ prev ∧
    (∀ nx, _next_node p = Some nx → is_Some (m !! nx) ∧ nx ≠ new ∧ nx ≠ prev) ∧
    wfp m3 H C1 v (c ++ [new]) (λ _, None) C2.
Proof.
  intros Hwf Hhd prev new.
  pose proof Hwf as ((HH & Hnd & Hlen) & Hne & Hrows & Hh & Hv & Hc).
  pose proof (Hrows _ _ Hhd) as Hrow.
  assert (c !! length c = None) as Hci by (by apply lookup_ge_None_2).
  rewrite (lev_mid_None _ _ _ _ _ Hci) in Hrow.
  pose proof (NoDup_row _ _ _ _ Hnd Hhd) as Hndrow.
  rewrite (lev_mid_None _ _ _ _ _ Hci) in Hndrow.
  destruct (cons_snoc_lastl hd (lev (length c) C1)) as (B & EB & _).
  fold prev in EB.
  rewrite app_comm_cons, EB, <- app_assoc in Hrow, Hndrow.
  change ([prev] ++ ?l) with (prev :: l) in Hrow, Hndrow.
  pose proof (dseg_before _ _ _ _ _ _ Hrow) as Hprev.
  pose proof Hprev as (p & Hp & Hpp & Hpn).
  exists p. split; [done|]. intros m1 m2 m3.
  assert (m !! new = None) as Hnew by apply fresh_not_alloc.
  assert (new ≠ prev) as Hnp by congruence.
  assert (∀ nx, _next_node p = Some nx →
            is_Some (m !! nx) ∧ nx ≠ new ∧ nx ≠ prev ∧
            (∃ L2', lev (length c) C2 = nx :: L2')) as Hnx.
  { intros nx Enx. rewrite Hpn in Enx.
    destruct (lev (length c) C2) as [|nx' L2'] eqn:EL; simplify_eq/=.
    assert (is_Some (m !! nx)) as Hs.
    { eapply dseg_alloc; [exact Hrow|]. set_solver. }
    split; [done|]. split; [intros ->; destruct Hs; congruence|].
    split; [|eauto]. intros ->.
    apply NoDup_app in Hndrow as (_ & _ & Hd). apply NoDup_cons in Hd as [Hd _].
    set_solver. }
  split; [done|]. split; [intros nx Enx; destruct (Hnx nx Enx); tauto|].
  assert (hkeep m m1 [] ∧ vkeep m m1 []) as [Hk1 Hv1].
  { split; [by apply hkeep_alloc | by apply vkeep_alloc]. }
  assert (hkeep m1 m2 [prev] ∧ vkeep m1 m2 []) as [Hk2 Hv2].
  { split; [apply hkeep_set_next_node | apply vkeep_set_next_node]. }
  assert (hkeep m2 m3 (option_list (_next_node p)) ∧ vkeep m2 m3 [])
    as [Hk3 Hv3].
  { subst m3. destruct (_next_node p) as [nx|]; simpl.
    - split; [apply hkeep_set_prev_node | apply vkeep_set_prev_node].
    - split; [apply hkeep_refl | apply vkeep_refl]. }
  assert (hkeep m m3 (prev :: option_list (_next_node p))) as Hk.
  { eapply (hkeep_trans m m2 m3 [prev]); [|exact Hk3|set_solver|set_solver].
    eapply (hkeep_trans m m1 m2 [] [prev]);
      [exact Hk1|exact Hk2|set_solver|set_solver]. }
  assert (vkeep m m3 []) as Hvk.
  { eapply (vkeep_trans m m2 m3 []); [|exact Hv3|done|done].
    eapply (vkeep_trans m m1 m2 [] []); [exact Hv1|exact Hv2|done|done]. }
  assert (vkeep m1 m3 []) as Hvk1.
  { eapply (vkeep_trans m1 m2 m3 [] []); [exact Hv2|exact Hv3|done|done]. }
  eapply (wfp_change m m3 H C1 v c _ C2 (c ++ [new]) _ (length c) hd);
    [done|done| | | | | | |].
  - intros j Hj. destruct (decide (j < length c)%nat).
    + by rewrite lookup_app_l.
    + rewrite !lookup_ge_None_2; [done|lia|rewrite length_app; simpl; lia].
  - eapply NoDup_Permutation_proper; [apply nodes_of_mid|].
    rewrite <- app_assoc. simpl.
    eapply NoDup_Permutation_proper;
      [symmetry; apply Permutation_middle|].
    constructor.
    + pose proof (wfp_fresh _ _ _ _ _ _ _ Hwf) as Hf. fold new in Hf.
      by rewrite nodes_of_mid in Hf.
    + by rewrite <- nodes_of_mid.
  - rewrite length_app. simpl. apply lookup_lt_Some in Hhd. lia.
  - rewrite (lev_mid_None _ _ _ _ _ Hci).
    intros x q n Hx. apply Hk. intros Hin. apply Hx.
    rewrite Hpn in Hin. rewrite app_comm_cons, EB.
    destruct (lev (length c) C2); set_solver.
  - intros x u d w _ Hl. apply Hvk; [set_solver|done].
  - rewrite (lev_mid_Some _ _ _ _ _ new)
      by (by rewrite lookup_app_r, Nat.sub_diag).
    rewrite app_comm_cons, EB, <- app_assoc.
    change ([prev] ++ ?l) with (prev :: l).
    eapply dseg_splice_in; [exact Hrow|exact Hndrow| | | |].
    + intros x q n Hx. apply Hk. rewrite Hpn.
      by destruct (lev (length c) C2).
    + apply Hk3.
      { destruct (_next_node p) as [nx|] eqn:Enx; simpl; [|set_solver].
        destruct (Hnx nx eq_refl) as (_ & _ & ? & _). set_solver. }
      subst m2. eapply hlink_set_next_node, Hk1; [set_solver|exact Hprev].
    + apply Hk3.
      { destruct (_next_node p) as [nx|] eqn:Enx; simpl; [|set_solver].
        destruct (Hnx nx eq_refl) as (_ & ? & _). set_solver. }
      apply Hk2; [set_solver|]. subst m1.
      rewrite <- Hpn.
      apply (hlink_insert_eq m new
               (Node (Some prev) (_next_node p) None (last c) v)).
    + intros nx L2' EL2. rewrite EL2 in Hrow, Hpn. simpl in Hpn.
      apply dseg_app in Hrow as [_ [_ [Hnxl _]]]. simpl in Hnxl.
      rewrite last_or_snoc in Hnxl || rewrite last_or_cons in Hnxl || idtac.
      destruct (Hnx nx Hpn) as (_ & ? & ? & _).
      subst m3. rewrite Hpn.
      eapply hlink_set_prev_node. apply Hk2; [set_solver|].
      apply Hk1; [set_solver|]. exact Hnxl.
  - intros j x Hx.
    destruct (decide (j < length c)%nat) as [Hlt|Hge].
    + rewrite lookup_app_l in Hx by done.
      apply Hvk; [set_solver|].
      pose proof (Hc j x Hx) as Hl. destruct j as [|j]; [done|].
      rewrite lookup_app_l by lia. done.
    + assert (j = length c) as ->.
      { apply lookup_lt_Some in Hx. rewrite length_app in Hx. simpl in Hx. lia. }
      rewrite lookup_app_r, Nat.sub_diag in Hx by done.
      simpl in Hx. injection Hx as <-.
      apply Hvk1; [set_solver|]. subst m1.
      assert (match length c with
              | O => None
              | S j0 => (c ++ [new]) !! j0
              end = last c) as ->.
      { rewrite (last_lookup_S c (length c) eq_refl).
        destruct (length c) eqn:El; [done|]. rewrite lookup_app_l; [done|lia]. }
      apply (vlink_insert_eq m new
               (Node (Some prev) (_next_node p) None (last c) v)).
Qed.

(** ** Heaps that agree outside a set of cells *)

Lemma same_outside_refl N m : same_outside N m m.
Proof. by intros x _. Qed.

Lemma same_outside_trans N m1 m2 m3 :
  same_outside N m1 m2 → same_outside N m2 m3 → same_outside N m1 m3.
Proof. intros H12 H23 x Hx. by rewrite H23, H12. Qed.

Lemma same_outside_mono N N' m m' :
  N ⊆ N' → same_outside N m m' → same_outside N' m m'.
Proof. intros Hsub Hs x Hx. apply Hs. intros ?. apply Hx. by apply Hsub. Qed.

Lemma same_outside_insert N m m' x nd :
  x ∈ N → same_outside N m m' → same_outside N m (<[x := nd]> m').
Proof.
  intros Hx Hs y Hy. rewrite lookup_insert_ne; [by apply Hs|]. by intros ->.
Qed.

Lemma same_outside_alter N m m' x (f : node → node) :
  x ∈ N → same_outside N m m' → same_outside N m (alter f x m').
Proof.
  intros Hx Hs y Hy. rewrite lookup_alter_ne; [by apply Hs|]. by intros ->.
Qed.

Lemma same_outside_delete N m m' x :
  x ∈ N → same_outside N m m' → same_outside N m (delete x m').
Proof.
  intros Hx Hs y Hy. rewrite lookup_delete_ne; [by apply Hs|]. by intros ->.
Qed.

(** A cell that is not allocated after a change that kept the cells of [N]
    allocated was not allocated before. *)
Lemma same_outside_None N m m' x :
  same_outside N m m' → (∀ y, y ∈ N → is_Some (m' !! y)) →
  m' !! x = None → m !! x = None.
Proof.
  intros Hs Hall Hx. destruct (decide (x ∈ N)) as [Hin|Hnin].
  - destruct (Hall x Hin) as [? ?]. congruence.
  - by rewrite <- (Hs x Hnin).
Qed.

Lemma lastl_elem {A} (hd : A) (l : list A) : lastl hd l ∈ hd :: l.
Proof.
  pose proof (lastl_last hd l) as Hl. rewrite last_lookup in Hl.
  by apply list_elem_of_lookup_2 in Hl.
Qed.

Lemma nodes_of_row H cols (i : nat) hd x :
  H !! i = Some hd → x ∈ hd :: lev i cols → x ∈ nodes_of H cols.
Proof.
  intros Hhd [->|Hx]%elem_of_cons; unfold nodes_of; apply elem_of_app.
  - left. by eapply list_elem_of_lookup_2.
  - right. by eapply lev_in_nodes.
Qed.

(** The nodes of a graph with a pending column. *)
Lemma elem_of_nodes_mid H C1 v (c : list loc) C2 x :
  x ∈ nodes_of H (C1 ++ (v, c) :: C2) ↔
  x ∈ H ∨ x ∈ c ∨ x ∈ mjoin ((C1 ++ C2).*2).
Proof.
  rewrite nodes_of_mid. unfold nodes_of. rewrite !elem_of_app. tauto.
Qed.

(** ** Climbing to the level above *)

(** The walk to the left ends at the nearest node that has a node above it,
    which is the last node of the level above among the same columns. *)
Lemma climb_found m fl fr (i : nat) hd hd' R e d C1 : ∀ fuel,
  dseg m None (hd :: lev i C1 ++ R) e →
  Forall (vcol m) C1 →
  vlink m hd (Some hd') d 0 →
  (length C1 < fuel)%nat →
  ∃ t nd, climb fuel (lastl hd (lev i C1)) (World m fl fr) =
            Some (t, World m fl fr) ∧
    m !! t = Some nd ∧
    _prev_layer nd = Some (lastl hd' (lev (S i) C1)).
Proof.
  revert R. induction C1 as [|c C1 IH] using rev_ind; intros R fuel Hrow Hv Hhd Hfuel.
  - destruct fuel as [|fuel]; [simpl in Hfuel; lia|].
    rewrite !lev_nil, !lastl_nil. destruct Hhd as (nd & Hnd & Hu & _).
    exists hd, nd. split; [|done]. simpl.
    rewrite (run_bind _ _ _ _ _ (load_ok _ _ _ _ _ Hnd)). by rewrite Hu.
  - rewrite length_app in Hfuel. simpl in Hfuel.
    destruct fuel as [|fuel]; [lia|].
    apply Forall_app in Hv as [Hv [Hc _]%Forall_cons].
    destruct (c.2 !! i) as [x|] eqn:Ex.
    + specialize (Hc _ _ Ex).
      rewrite (lev_snoc_Some _ _ _ _ Ex), lastl_snoc.
      rewrite (lev_snoc_Some _ _ _ _ Ex), <- app_assoc in Hrow.
      change ([x] ++ R) with (x :: R) in Hrow.
      pose proof Hrow as Hrow'.
      rewrite app_comm_cons in Hrow'.
      apply dseg_before in Hrow' as (nd & Hnd & Hp & _).
      rewrite last_or_cons in Hp.
      destruct Hc as (nd' & Hnd' & Hu & _).
      assert (nd' = nd) as -> by congruence.
      unfold up_full in Hu.
      destruct (c.2 !! S i) as [y|] eqn:Ey.
      * exists x, nd. rewrite (lev_snoc_Some _ _ _ _ Ey), lastl_snoc.
        split; [|done]. simpl.
        rewrite (run_bind _ _ _ _ _ (load_ok _ _ _ _ _ Hnd)). by rewrite Hu.
      * destruct (IH (x :: R) fuel) as (t & ndt & Hrun & Hndt & Hut);
          [done|done|done|lia|].
        exists t, ndt. rewrite (lev_snoc_None _ _ _ Ey). split; [|done].
        simpl. rewrite (run_bind _ _ _ _ _ (load_ok _ _ _ _ _ Hnd)).
        by rewrite Hu, Hp.
    + rewrite (lev_snoc_None _ _ _ Ex) in *.
      assert (c.2 !! S i = None) as Ey.
      { apply lookup_ge_None_2. apply lookup_ge_None_1 in Ex. lia. }
      rewrite (lev_snoc_None _ _ _ Ey).
      apply (IH R); [done|done|done|lia].
Qed.

(** At the top level no node has a node above it: the walk reaches the
    header. *)
Lemma climb_to_header m fl fr (i : nat) hd R e C1 : ∀ fuel,
  dseg m None (hd :: lev i C1 ++ R) e →
  Forall (vcol m) C1 →
  Forall (λ c : column, (length c.2 ≤ S i)%nat) C1 →
  ∃ k, (k ≤ length C1)%nat ∧
    ∀ fuel', fuel = (k + fuel')%nat →
      climb fuel (lastl hd (lev i C1)) (World m fl fr) =
      climb fuel' hd (World m fl fr).
Proof.
  revert R. induction C1 as [|c C1 IH] using rev_ind; intros R fuel Hrow Hv Hlen.
  - exists 0%nat. split; [done|]. by intros fuel' ->.
  - apply Forall_app in Hv as [Hv [Hc _]%Forall_cons].
    apply Forall_app in Hlen as [Hlen [Hlc _]%Forall_cons].
    rewrite length_app. simpl.
    destruct (c.2 !! i) as [x|] eqn:Ex.
    + specialize (Hc _ _ Ex).
      rewrite (lev_snoc_Some _ _ _ _ Ex), lastl_snoc.
      rewrite (lev_snoc_Some _ _ _ _ Ex), <- app_assoc in Hrow.
      change ([x] ++ R) with (x :: R) in Hrow.
      pose proof Hrow as Hrow'.
      rewrite app_comm_cons in Hrow'.
      apply dseg_before in Hrow' as (nd & Hnd & Hp & _).
      rewrite last_or_cons in Hp.
      destruct Hc as (nd' & Hnd' & Hu & _).
      assert (nd' = nd) as -> by congruence.
      unfold up_full in Hu. rewrite lookup_ge_None_2 in Hu by done.
      destruct (IH (x :: R) (pred fuel) Hrow Hv Hlen) as (k & Hk & Hrun).
      exists (S k). split; [lia|]. intros fuel' ->. simpl.
      rewrite (run_bind _ _ _ _ _ (load_ok _ _ _ _ _ Hnd)).
      rewrite Hu, Hp. by apply Hrun.
    + rewrite (lev_snoc_None _ _ _ Ex) in *.
      destruct (IH R fuel Hrow Hv Hlen) as (k & Hk & Hrun).
      exists k. split; [lia|done].
Qed.

(** ** A new top level *)

Lemma new_layer_wfp m H0 f C1 v c upf C2 :
  wfp m (H0 ++ [f]) C1 v c upf C2 →
  let i := length H0 in
  let cs := C1 ++ (v, c) :: C2 in
  let g := fresh (dom m) in
  ∃ nf, m !! f = Some nf ∧ _prev_layer nf = None ∧ _prev_node nf = None ∧
    _next_node nf = hd_or (lev i cs) None ∧ _next_layer nf = last H0 ∧
    let m1 := <[g := Node None (_next_node nf) (Some f) (_next_layer nf) 0]> m in
    let m2 := match _next_node nf with
              | Some nx => alter (with_prev_node (Some g)) nx m1
              | None => m1
              end in
    let m3 := match _next_layer nf with
              | Some dn => alter (with_prev_layer (Some g)) dn m2
              | None => m2
              end in
    let m4 := alter (with_next_node None) f m3 in
    let m5 := alter (with_next_layer (Some g)) f m4 in
    g ≠ f ∧
    (∀ nx, _next_node nf = Some nx → is_Some (m !! nx) ∧ nx ≠ g ∧ nx ≠ f) ∧
    (∀ dn, _next_layer nf = Some dn → is_Some (m !! dn) ∧ dn ≠ g ∧ dn ≠ f) ∧
    wfp m5 (H0 ++ [g; f]) C1 v c upf C2.
Proof.
  intros Hwf i cs g.
  pose proof Hwf as ((HH & Hnd & Hlen) & Hne & Hrows & Hh & Hv & Hc).
  assert ((H0 ++ [f]) !! i = Some f) as Hf.
  { by rewrite lookup_app_r, Nat.sub_diag. }
  pose proof (Hrows _ _ Hf) as Hrow. fold cs in Hrow.
  pose proof (NoDup_row _ _ _ _ Hnd Hf) as Hndrow. fold cs in Hndrow.
  pose proof (Hh _ _ Hf) as Hvf. unfold up_full in Hvf.
  rewrite lookup_ge_None_2 in Hvf by (rewrite length_app; simpl; lia).
  assert (match i with O => None | S j => (H0 ++ [f]) !! j end = last H0) as Edn.
  { rewrite last_lookup. subst i. destruct (length H0) eqn:E; [by destruct H0|].
    simpl. rewrite lookup_app_l; [done|lia]. }
  rewrite Edn in Hvf.
  pose proof Hrow as [Hhf Hrest]. simpl in Hhf.
  pose proof (hlink_vlink _ _ _ _ _ _ _ Hhf Hvf) as Hnf.
  eexists. split; [exact Hnf|]. simpl.
  split; [done|]. split; [done|]. split; [by destruct (lev i cs)|].
  split; [done|].
  set (m1 := <[g := Node None (hd_or (lev i cs) None) (Some f) (last H0) 0]> m).
  set (m2 := match hd_or (lev i cs) None with
             | Some nx => alter (with_prev_node (Some g)) nx m1
             | None => m1
             end).
  set (m3 := match last H0 with
             | Some dn => alter (with_prev_layer (Some g)) dn m2
             | None => m2
             end).
  set (m4 := alter (with_next_node None) f m3).
  set (m5 := alter (with_next_layer (Some g)) f m4).
  assert (m !! g = None) as Hg by apply fresh_not_alloc.
  assert (g ≠ f) as Hgf by congruence.
  assert (g ∉ nodes_of (H0 ++ [f]) cs) as Hgn by by apply (wfp_fresh _ _ _ _ _ _ _ Hwf).
  assert (∀ x, is_Some (m !! x) → x ≠ g) as Hng.
  { intros x [? ?] ->. congruence. }
  assert (∀ nx, hd_or (lev i cs) None = Some nx →
             is_Some (m !! nx) ∧ nx ≠ g ∧ nx ≠ f ∧ (∃ L, lev i cs = nx :: L)) as Hnx.
  { intros nx E. destruct (lev i cs) as [|nx' L] eqn:EL; simplify_eq/=.
    assert (is_Some (m !! nx)) by (destruct Hrest as [? _]; by eapply hlink_alloc).
    split; [done|]. split; [by apply Hng|]. split; [|eauto].
    apply NoDup_cons in Hndrow as [? _]. set_solver. }
  assert (∀ dn, last H0 = Some dn →
             is_Some (m !! dn) ∧ dn ≠ g ∧ dn ≠ f ∧ (dn ∉ lev i cs) ∧
             (∃ H1, H0 = H1 ++ [dn])) as Hdn.
  { intros dn E. apply last_Some in E as [H1 ->].
    assert (dn ∈ (H1 ++ [dn]) ++ [f]) as Hin by set_solver.
    assert (is_Some (m !! dn)) by (eapply vcolg_alloc; [exact Hh|done]).
    split; [done|]. split; [by apply Hng|].
    unfold nodes_of in Hnd. apply NoDup_app in Hnd as (HndH & Hdis & _).
    split; [|split; [|eauto]].
    - rewrite <- app_assoc in HndH. apply NoDup_app in HndH as (_ & _ & Hd).
      apply NoDup_cons in Hd as [Hd _]. set_solver.
    - intros Hl%lev_in_nodes. by eapply Hdis. }
  split; [done|].
  split; [intros nx E; destruct (Hnx nx E); tauto|].
  split; [intros dn E; destruct (Hdn dn E); tauto|].
  (* what each update keeps *)
  assert (hkeep m m1 [] ∧ vkeep m m1 []) as [Hh1 Hv1].
  { split; [by apply hkeep_alloc | by apply vkeep_alloc]. }
  assert (hkeep m1 m2 (option_list (hd_or (lev i cs) None)) ∧ vkeep m1 m2 [])
    as [Hh2 Hv2].
  { subst m2. destruct (hd_or (lev i cs) None); simpl.
    - split; [apply hkeep_set_prev_node | apply vkeep_set_prev_node].
    - split; [apply hkeep_refl | apply vkeep_refl]. }
  assert (hkeep m2 m3 [] ∧ vkeep m2 m3 (option_list (last H0))) as [Hh3 Hv3].
  { subst m3. destruct (last H0); simpl.
    - split; [apply hkeep_set_prev_layer | apply vkeep_set_prev_layer].
    - split; [apply hkeep_refl | apply vkeep_refl]. }
  assert (hkeep m3 m4 [f] ∧ vkeep m3 m4 []) as [Hh4 Hv4].
  { split; [apply hkeep_set_next_node | apply vkeep_set_next_node]. }
  assert (hkeep m4 m5 [] ∧ vkeep m4 m5 [f]) as [Hh5 Hv5].
  { split; [apply hkeep_set_next_layer | apply vkeep_set_next_layer]. }
  assert (hkeep m m5 (f :: option_list (hd_or (lev i cs) None))) as Hk.
  { intros x p n Hx Hl. apply Hh5; [set_solver|]. apply Hh4; [set_solver|].
    apply Hh3; [set_solver|]. apply Hh2; [set_solver|].
    apply Hh1; [set_solver|done]. }
  assert (vkeep m m5 (f :: option_list (last H0))) as Hvk.
  { intros x u d w Hx Hl. apply Hv5; [set_solver|]. apply Hv4; [set_solver|].
    apply Hv3; [set_solver|]. apply Hv2; [set_solver|].
    apply Hv1; [set_solver|done]. }
  assert (∀ x, x ∈ mjoin (cs.*2) → x ∉ f :: option_list (last H0)) as Hcolh.
  { intros x Hx Hin. unfold nodes_of in Hnd.
    apply NoDup_app in Hnd as (_ & Hdis & _). eapply Hdis; [|exact Hx].
    apply elem_of_cons in Hin as [->|Hin]; [set_solver|].
    destruct (last H0) as [dn|] eqn:E; simpl in Hin; [|set_solver].
    apply last_Some in E as [H1 ->]. set_solver. }
  assert (lev (S i) cs = []) as Htop.
  { apply lev_short. eapply Forall_impl; [exact Hlen|]. intros c0.
    rewrite length_app. simpl. subst i. lia. }
  split; [|split; [done|split; [|split; [|split]]]].
  - split; [by destruct H0|]. split.
    + assert (∀ J, (H0 ++ [g; f]) ++ J ≡ₚ g :: (H0 ++ [f]) ++ J) as HP.
      { intros J. rewrite <- !app_assoc. simpl. symmetry.
        apply Permutation_middle. }
      unfold nodes_of in *. rewrite HP. by constructor.
    + eapply Forall_impl; [exact Hlen|]. intros c0. rewrite !length_app.
      simpl. lia.
  - intros j hj Hhj. fold cs.
    destruct (decide (j < i)%nat) as [Hlt|Hge].
    + rewrite lookup_app_l in Hhj by done.
      assert ((H0 ++ [f]) !! j = Some hj) as Hhj'.
      { by rewrite lookup_app_l. }
      eapply dseg_keep; [exact Hk| |by apply Hrows].
      intros x Hx Hx'.
      assert (x ∈ f :: lev i cs) as Hxi.
      { destruct (lev i cs); set_solver. }
      pose proof (row_level_unique _ _ _ _ _ _ _ Hnd Hhj' Hf Hx Hxi). lia.
    + rewrite lookup_app_r in Hhj by lia. fold i in Hhj.
      destruct (j - i)%nat as [|[|k]] eqn:Ej; simpl in Hhj; [| |done];
        injection Hhj as <-.
      * assert (j = i) as -> by lia. simpl. split.
        -- apply Hh5; [set_solver|]. apply Hh4; [set_solver|].
           apply Hh3; [set_solver|]. apply Hh2.
           { destruct (hd_or (lev i cs) None) as [nx|] eqn:E; [|set_solver].
             destruct (Hnx nx eq_refl) as (_ & ? & _). set_solver. }
           replace (hd_or (lev i cs) None) with
             (_next_node (Node None (hd_or (lev i cs) None) (Some f) (last H0) 0))
             at 2 by done.
           apply (hlink_insert_eq m g
              (Node None (hd_or (lev i cs) None) (Some f) (last H0) 0)).
        -- destruct (lev i cs) as [|nx L] eqn:EL; [done|].
           destruct (Hnx nx eq_refl) as (_ & ? & ? & _).
           destruct Hrest as [Hlnx HL]. simpl. split.
           ++ apply Hh5; [set_solver|]. apply Hh4; [set_solver|].
              apply Hh3; [set_solver|]. subst m2. simpl.
              eapply hlink_set_prev_node. apply Hh1; [set_solver|exact Hlnx].
           ++ eapply dseg_keep; [exact Hk| |exact HL].
              simpl. intros x Hx Hx'.
              apply NoDup_cons in Hndrow as [Hf' [Hnx' _]%NoDup_cons].
              set_solver.
      * assert (j = S i) as -> by lia. rewrite Htop. simpl.
        split; [|done]. apply Hh5; [set_solver|].
        subst m4. eapply hlink_set_next_node.
        apply Hh3; [set_solver|]. apply Hh2.
        { destruct (hd_or (lev i cs) None) as [nx|] eqn:E; [|set_solver].
          destruct (Hnx nx eq_refl) as (_ & ? & ? & _). set_solver. }
        apply Hh1; [set_solver|exact Hhf].
  - intros j x Hx. unfold up_full.
    destruct (decide (S j < i)%nat) as [Hlt|Hge].
    + rewrite lookup_app_l in Hx by lia.
      assert ((H0 ++ [f]) !! j = Some x) as Hx' by (rewrite lookup_app_l; [done|lia]).
      pose proof (Hh _ _ Hx') as Hl. unfold up_full in Hl.
      rewrite lookup_app_l in Hl by lia.
      rewrite lookup_app_l by lia.
      assert (match j with O => None | S j0 => (H0 ++ [g; f]) !! j0 end =
              match j with O => None | S j0 => (H0 ++ [f]) !! j0 end) as ->.
      { destruct j; [done|]. rewrite !lookup_app_l; [done|lia|lia]. }
      apply Hvk; [|done].
      unfold nodes_of in Hnd. apply NoDup_app in Hnd as (HndH & _ & _).
      intros [->|Hin]%elem_of_cons.
      * pose proof (NoDup_lookup _ _ _ _ HndH Hx' Hf). lia.
      * destruct (last H0) as [dn|] eqn:E; simpl in Hin; [|set_solver].
        apply list_elem_of_singleton in Hin as ->.
        rewrite last_lookup in E.
        assert ((H0 ++ [f]) !! pred (length H0) = Some dn) as E'.
        { rewrite lookup_app_l; [done|]. apply lookup_lt_Some in E. lia. }
        pose proof (NoDup_lookup _ _ _ _ HndH Hx' E'). lia.
    + destruct (decide (S j = i)) as [Eji|Hne1].
      * (* the header below the new one *)
        rewrite lookup_app_l in Hx by lia.
        assert (last H0 = Some x) as Elast.
        { rewrite last_lookup. rewrite <- Hx. f_equal. lia. }
        destruct (Hdn x Elast) as (_ & ? & ? & _).
        assert ((H0 ++ [f]) !! j = Some x) as Hx' by (rewrite lookup_app_l; [done|lia]).
        pose proof (Hh _ _ Hx') as Hl.
        replace ((H0 ++ [g; f]) !! S j) with (Some g)
          by (rewrite Eji; subst i; by rewrite lookup_app_r, Nat.sub_diag).
        assert (match j with O => None | S j0 => (H0 ++ [g; f]) !! j0 end =
                match j with O => None | S j0 => (H0 ++ [f]) !! j0 end) as ->.
        { destruct j; [done|]. rewrite !lookup_app_l; [done|lia|lia]. }
        apply Hv5; [set_solver|]. apply Hv4; [set_solver|].
        subst m3. rewrite Elast.
        eapply vlink_set_prev_layer. apply Hv2; [set_solver|].
        apply Hv1; [set_solver|exact Hl].
      * rewrite lookup_app_r in Hx by lia. fold i in Hx.
        destruct (j - i)%nat as [|[|k]] eqn:Ej; simpl in Hx; [| |done];
          injection Hx as <-.
        -- assert (j = i) as -> by lia.
           rewrite lookup_app_r by lia.
           replace (S i - length H0)%nat with 1%nat by (subst i; lia). simpl.
           assert (match i with O => None | S j0 => (H0 ++ [g; f]) !! j0 end =
                   last H0) as ->.
           { rewrite last_lookup. subst i.
             destruct (length H0) eqn:E; [by destruct H0|].
             simpl. rewrite lookup_app_l; [done|lia]. }
           apply Hv5; [set_solver|]. apply Hv4; [set_solver|].
           apply Hv3.
           { destruct (last H0) as [dn|] eqn:E; [|set_solver].
             destruct (Hdn dn eq_refl) as (_ & ? & _). set_solver. }
           apply Hv2; [set_solver|].
           apply (vlink_insert_eq m g
              (Node None (hd_or (lev i cs) None) (Some f) (last H0) 0)).
        -- assert (j = S i) as -> by lia.
           rewrite lookup_ge_None_2 by (rewrite length_app; simpl; subst i; lia).
           replace ((H0 ++ [g; f]) !! i) with (Some g)
             by (by rewrite lookup_app_r, Nat.sub_diag).
           subst m5. eapply vlink_set_next_layer.
           apply Hv4; [set_solver|]. apply Hv3.
           { destruct (last H0) as [dn|] eqn:E; [|set_solver].
             destruct (Hdn dn eq_refl) as (_ & ? & ? & _). set_solver. }
           apply Hv2; [set_solver|]. apply Hv1; [set_solver|exact Hvf].
  - apply Forall_forall. intros c0 Hc0.
    eapply vcolg_keep; [exact Hvk| |by eapply Forall_forall in Hv].
    intros x Hx. apply Hcolh. apply list_elem_of_join. exists c0.2.
    split; [done|]. apply list_elem_of_fmap_2. subst cs. set_solver.
  - eapply vcolg_keep; [exact Hvk| |exact Hc].
    intros x Hx. apply Hcolh. apply list_elem_of_join. exists c.
    split; [done|]. subst cs. rewrite fmap_app, fmap_cons. set_solver.
Qed.

(** ** Insertion of a column *)

Lemma set_prev_node_run m fl fr l v :
  is_Some (m !! l) →
  set_prev_node l v (World m fl fr) =
  Some (tt, World (alter (with_prev_node v) l m) fl fr).
Proof. intros [nd ?]. by eapply set_prev_node_ok. Qed.

Lemma set_next_node_run m fl fr l v :
  is_Some (m !! l) →
  set_next_node l v (World m fl fr) =
  Some (tt, World (alter (with_next_node v) l m) fl fr).
Proof. intros [nd ?]. by eapply set_next_node_ok. Qed.

Lemma set_prev_layer_run m fl fr l v :
  is_Some (m !! l) →
  set_prev_layer l v (World m fl fr) =
  Some (tt, World (alter (with_prev_layer v) l m) fl fr).
Proof. intros [nd ?]. by eapply set_prev_layer_ok. Qed.

Lemma set_next_layer_run m fl fr l v :
  is_Some (m !! l) →
  set_next_layer l v (World m fl fr) =
  Some (tt, World (alter (with_next_layer v) l m) fl fr).
Proof. intros [nd ?]. by eapply set_next_layer_ok. Qed.

Lemma is_Some_alter (m : gmap loc node) (f : node → node) l x :
  is_Some (alter f l m !! x) ↔ is_Some (m !! x).
Proof.
  rewrite lookup_alter. destruct (decide (l = x)) as [->|?]; [|done].
  by rewrite fmap_is_Some.
Qed.

Lemma is_Some_insert (m : gmap loc node) l nd x :
  is_Some (m !! x) → is_Some (<[l := nd]> m !! x).
Proof.
  intros ?. rewrite lookup_insert. destruct (decide (l = x)); [eauto|done].
Qed.

Section Insert.
Variable coins : nat → bool.

(** The first half of [_insert_node]: the new node is linked into its
    level; what remains to run is the promotion. *)
Lemma insert_node_link fuel m fl fr H C1 v c C2 hd :
  wfp m H C1 v c (λ _, None) C2 → H !! length c = Some hd →
  let prev := lastl hd (lev (length c) C1) in
  let new := fresh (dom m) in
  ∃ m3, wfp m3 H C1 v (c ++ [new]) (λ _, None) C2 ∧
    _insert_node coins (S fuel) prev (last c) v (World m fl fr) =
    bind (if coins fl then
            let* temp_node := climb fuel prev in
            let* t := load temp_node in
            let* temp_node :=
              match _prev_layer t with Some u => ret u | None => fail end in
            let* up := _insert_node coins fuel temp_node (Some new) v in
            set_prev_layer new (Some up)
          else ret tt)
         (λ _, ret new) (World m3 (S fl) fr) ∧
    same_outside (nodes_of H (C1 ++ (v, c ++ [new]) :: C2)) m m3.
Proof.
  intros Hwf Hhd prev new.
  destruct (link_new_wfp m H C1 v c C2 hd Hwf Hhd)
    as (p & Hp & Hnp & Hnx & Hwf3).
  fold prev new in Hp, Hnp, Hnx, Hwf3.
  assert (prev ∈ nodes_of H (C1 ++ (v, c ++ [new]) :: C2)) as Hprev.
  { apply (nodes_of_row _ _ (length c) hd); [done|].
    rewrite lev_mid, elem_of_cons, elem_of_app.
    pose proof (lastl_elem hd (lev (length c) C1)) as Hl. fold prev in Hl.
    apply elem_of_cons in Hl. tauto. }
  assert (new ∈ nodes_of H (C1 ++ (v, c ++ [new]) :: C2)) as Hnewin.
  { apply elem_of_nodes_mid. set_solver. }
  assert (∀ nx, _next_node p = Some nx →
            nx ∈ nodes_of H (C1 ++ (v, c ++ [new]) :: C2)) as Hnxin.
  { intros nx Enx.
    pose proof Hwf as (_ & _ & Hrows & _).
    specialize (Hrows _ _ Hhd).
    rewrite (lev_mid_None _ _ _ _ _ (lookup_ge_None_2 c _ (Nat.le_refl _)))
      in Hrows.
    apply dseg_lastl_next in Hrows as (p' & Hp' & Hn').
    fold prev in Hp'. assert (p' = p) as -> by congruence.
    rewrite Enx in Hn'.
    apply (nodes_of_row _ _ (length c) hd); [done|]. right.
    rewrite lev_mid, !elem_of_app. right. right.
    destruct (lev (length c) C2); simplify_eq/=. by left. }
  eexists. split; [exact Hwf3|]. split; cycle 1.
  { destruct (_next_node p) as [nx|] eqn:Enx.
    - apply same_outside_alter; [by apply Hnxin|].
      apply same_outside_alter; [done|].
      apply same_outside_insert; [done|]. apply same_outside_refl.
    - apply same_outside_alter; [done|].
      apply same_outside_insert; [done|]. apply same_outside_refl. }
  cbn [_insert_node]. fold prev.
  rewrite (run_bind _ _ _ _ _ (load_ok _ _ _ _ _ Hp)).
  rewrite (run_bind _ _ _ _ _ (malloc_ok _ _ _ _)). fold new.
  rewrite (run_bind _ _ _ _ _ (set_next_node_run _ _ _ _ _
             (is_Some_insert _ _ _ _ (mk_is_Some _ _ Hp)))).
  erewrite (run_bind (load new)); cycle 1.
  { apply load_ok. rewrite lookup_alter_ne by done. apply lookup_insert_eq. }
  cbn [_next_node].
  destruct (_next_node p) as [nx|] eqn:Enx.
  - destruct (Hnx nx eq_refl) as (Hs & ? & ?).
    erewrite (run_bind (set_prev_node nx _)); cycle 1.
    { apply set_prev_node_run. apply is_Some_alter. by apply is_Some_insert. }
    done.
  - done.
Qed.


Lemma vcolg_ext m v upf upf' c :
  (∀ i : nat, (i < length c)%nat → upf i = upf' i) →
  vcolg m v upf c → vcolg m v upf' c.
Proof.
  intros He Hc i x Hx. rewrite <- He; [by apply Hc|]. by eapply lookup_lt_Some.
Qed.

Lemma wfp_ext m H C1 v c upf upf' C2 :
  (∀ i : nat, (i < length c)%nat → upf i = upf' i) →
  wfp m H C1 v c upf C2 → wfp m H C1 v c upf' C2.
Proof.
  intros He (? & ? & ? & ? & ? & Hc). repeat (split; [done|]).
  by eapply vcolg_ext.
Qed.

(** A change of the vertical links of the pending column only. *)
Lemma wfp_change_v m m' H C1 v c upf upf' C2 :
  wfp m H C1 v c upf C2 →
  hkeep m m' [] → vkeep m m' c → vcolg m' v upf' c →
  wfp m' H C1 v c upf' C2.
Proof.
  intros Hwf Hhk Hvk Hc.
  pose proof Hwf as ((HH & Hnd & Hlen) & _ & Hrows & _).
  destruct H as [|h0 H]; [done|].
  eapply (wfp_change m m' (h0 :: H) C1 v c upf C2 c upf' 0 h0);
    [done|done|done|done| | |done| |done].
  - apply Forall_app in Hlen as [_ [? _]%Forall_cons]. done.
  - intros x p n _. apply Hhk. set_solver.
  - eapply dseg_keep; [exact Hhk|set_solver|]. by apply Hrows.
Qed.

Lemma wfp_top_lev m H C1 v c upf C2 :
  wfp m H C1 v c upf C2 → lev (length H) C1 = [].
Proof.
  intros ((_ & _ & Hlen) & _). apply lev_short.
  by apply Forall_app in Hlen as [? _].
Qed.

(** The last step of a promotion: the node below is linked to the new node
    above it. *)
Lemma link_up_wfp m H C1 v c new newc r C2 :
  wfp m H C1 v ((c ++ [new]) ++ newc)
      (up_from (S (length c)) ((c ++ [new]) ++ newc)) C2 →
  newc = r :: tail newc →
  is_Some (m !! new) ∧
  wfp (alter (with_prev_layer (Some r)) new m) H C1 v (c ++ new :: newc)
      (up_from (length c) (c ++ new :: newc)) C2.
Proof.
  intros Hwf Hr.
  assert (new ∈ (c ++ [new]) ++ newc) as Hin by set_solver.
  split.
  { eapply wfp_alloc; [exact Hwf|]. rewrite nodes_of_mid. set_solver. }
  rewrite <- app_assoc in Hwf, Hin. simpl in Hwf, Hin.
  pose proof Hwf as ((_ & Hnd & _) & _ & _ & _ & _ & Hc).
  assert (NoDup (c ++ new :: newc)) as Hndc.
  { rewrite nodes_of_mid in Hnd. by apply NoDup_app in Hnd as [? _]. }
  assert ((c ++ new :: newc) !! length c = Some new) as Hnew.
  { by rewrite lookup_app_r, Nat.sub_diag. }
  eapply wfp_change_v; [exact Hwf|apply hkeep_set_prev_layer| |].
  - intros x u d w Hx. apply vkeep_set_prev_layer. set_solver.
  - intros i x Hx. destruct (decide (i = length c)) as [->|Hne].
    + assert (x = new) as -> by congruence.
      pose proof (Hc _ _ Hx) as Hl. unfold up_from in *.
      rewrite decide_True in Hl by lia. rewrite decide_False by lia.
      replace ((c ++ new :: newc) !! S (length c)) with (Some r).
      * by eapply vlink_set_prev_layer.
      * rewrite lookup_app_r by lia.
        replace (S (length c) - length c)%nat with 1%nat by lia.
        simpl. by rewrite Hr.
    + apply vkeep_set_prev_layer.
      * intros ->%list_elem_of_singleton. apply Hne.
        by eapply NoDup_lookup.
      * pose proof (Hc _ _ Hx) as Hl. unfold up_from in *.
        destruct (decide (i < S (length c))%nat), (decide (i < length c)%nat);
          try done; lia.
Qed.

(** A cell that is free after a change within a graph was free before. *)
Lemma wfp_free_before m m' H C1 v c upf C2 x :
  same_outside (nodes_of H (C1 ++ (v, c) :: C2)) m m' →
  wfp m' H C1 v c upf C2 →
  m' !! x = None → m !! x = None.
Proof.
  intros Hs Hwf. apply (same_outside_None _ _ _ _ Hs).
  intros y Hy. by eapply wfp_alloc.
Qed.

Lemma nodes_of_grow H0 Hnew top C1 v (c newc : list loc) C2 :
  nodes_of (H0 ++ [top]) (C1 ++ (v, c) :: C2) ⊆
  nodes_of (H0 ++ Hnew ++ [top]) (C1 ++ (v, c ++ newc) :: C2).
Proof.
  intros x. rewrite !elem_of_nodes_mid, !elem_of_app. tauto.
Qed.

(** [k] heads and then tails: the column of the new element grows by
    [k + 1] nodes, and the header column by as many headers as the column
    rises above the old top. *)
Lemma insert_node_heap (k : nat) : ∀ fuel m fl fr H0 top C1 v c C2 hd,
  wfp m (H0 ++ [top]) C1 v c (λ _, None) C2 →
  (H0 ++ [top]) !! length c = Some hd →
  (∀ j : nat, (j < k)%nat → coins (fl + j) = true) →
  coins (fl + k) = false →
  (k + length C1 + 2 ≤ fuel)%nat →
  ∃ m' Hnew r newc,
    _insert_node coins fuel (lastl hd (lev (length c) C1)) (last c) v
        (World m fl fr) = Some (r, World m' (fl + k + 1) fr) ∧
    newc = r :: tail newc ∧ length newc = S k ∧
    length Hnew = (length c + S k - S (length H0))%nat ∧
    wfp m' (H0 ++ Hnew ++ [top]) C1 v (c ++ newc)
        (up_from (length c) (c ++ newc)) C2 ∧
    same_outside
      (nodes_of (H0 ++ Hnew ++ [top]) (C1 ++ (v, c ++ newc) :: C2)) m m' ∧
    Forall (λ x, m !! x = None) (newc ++ Hnew).
Proof.
  induction k as [|k IH];
    intros fuel m fl fr H0 top C1 v c C2 hd Hwf Hhd Hheads Htails Hfuel;
    (destruct fuel as [|fuel]; [lia|]);
    destruct (insert_node_link fuel m fl fr _ C1 v c C2 hd Hwf Hhd)
      as (m3 & Hwf3 & -> & Hso3);
    set (prev := lastl hd (lev (length c) C1)) in *;
    set (new := fresh (dom m)) in *;
    assert (m !! new = None) as Hfresh by apply fresh_not_alloc.
  - rewrite Nat.add_0_r in Htails. rewrite Htails.
    exists m3, [], new, [new].
    split; [|split; [done|split; [done|split; [|split; [|split]]]]].
    + unfold bind, ret. do 3 f_equal. lia.
    + simpl. apply lookup_lt_Some in Hhd. rewrite length_app in Hhd.
      simpl in Hhd. lia.
    + eapply wfp_ext; [|exact Hwf3]. intros i Hi. unfold up_from.
      destruct (decide (i < length c)%nat); [done|].
      rewrite lookup_ge_None_2; [done|]. rewrite length_app. simpl. lia.
    + exact Hso3.
    + by repeat constructor.
  - assert (coins fl = true) as ->.
    { rewrite <- (Nat.add_0_r fl). apply Hheads. lia. }
    assert (∀ j : nat, (j < k)%nat → coins (S fl + j) = true) as Hheads'.
    { intros j Hj. replace (S fl + j)%nat with (fl + S j)%nat by lia.
      apply Hheads. lia. }
    assert (coins (S fl + k) = false) as Htails'.
    { by replace (S fl + k)%nat with (fl + S k)%nat by lia. }
    pose proof Hwf3 as ((_ & _ & Hlen3) & _ & Hrows3 & Hh3 & Hv3 & _).
    pose proof (Hrows3 _ _ Hhd) as Hrow3.
    rewrite (lev_mid_Some _ _ _ _ _ new) in Hrow3
      by (by rewrite lookup_app_r, Nat.sub_diag).
    assert (Forall (vcol m3) C1) as Hv31 by (by apply Forall_app in Hv3 as [? _]).
    assert (length (c ++ [new]) = S (length c)) as Elen
      by (rewrite length_app; simpl; lia).
    assert (last (c ++ [new]) = Some new) as Elast by apply last_snoc.
    destruct (decide (S (length c) < length (H0 ++ [top]))%nat) as [Hlt|Hge].
    + (* a level above exists *)
      destruct (lookup_lt_is_Some_2 _ _ Hlt) as [hd' Hhd'].
      pose proof (Hh3 _ _ Hhd) as Hvhd. unfold up_full in Hvhd.
      rewrite Hhd' in Hvhd.
      destruct (climb_found m3 (S fl) fr (length c) hd hd' _ None _ C1 fuel
                  Hrow3 Hv31 Hvhd) as (t & nd & Hclimb & Hnd & Hu); [lia|].
      fold prev in Hclimb.
      destruct (IH fuel m3 (S fl) fr H0 top C1 v (c ++ [new]) C2 hd')
        as (m' & Hnew & r & newc & Hrun & Hr & Hlnew & HlH & Hwf' & Hso' & Hfr');
        [done|by rewrite Elen|done|done|lia|].
      rewrite Elen, Elast in Hrun. rewrite Elen in Hwf', HlH.
      destruct (link_up_wfp _ _ _ _ _ _ _ _ _ Hwf' Hr) as [Hs Hwf''].
      rewrite <- app_assoc in Hso'. simpl in Hso'.
      exists (alter (with_prev_layer (Some r)) new m'), Hnew, new, (new :: newc).
      split; [|split; [done|split; [simpl; lia|split; [lia|split;
               [done|split]]]]].
      * unfold bind at 1.
        rewrite (run_bind _ _ _ _ _ Hclimb).
        rewrite (run_bind _ _ _ _ _ (load_ok _ _ _ _ _ Hnd)), Hu.
        unfold ret at 1. unfold bind at 1.
        rewrite (run_bind _ _ _ _ _ Hrun).
        rewrite (set_prev_layer_run _ _ _ _ _ Hs).
        unfold ret. do 3 f_equal. lia.
      * apply same_outside_alter; [apply elem_of_nodes_mid; set_solver|].
        eapply same_outside_trans; [|exact Hso'].
        eapply same_outside_mono; [|exact Hso3].
        replace (c ++ new :: newc) with ((c ++ [new]) ++ newc)
          by (by rewrite <- app_assoc).
        apply nodes_of_grow.
      * simpl. constructor; [done|].
        eapply Forall_impl; [exact Hfr'|]. intros x Hx. simpl in Hx.
        by eapply wfp_free_before.
    + (* the column rises above the top: a new level *)
      assert (length c = length H0) as Ec.
      { apply lookup_lt_Some in Hhd. rewrite length_app in *. simpl in *. lia. }
      assert (hd = top) as ->.
      { rewrite Ec, lookup_app_r, Nat.sub_diag in Hhd by lia. by simplify_eq/=. }
      destruct (climb_to_header m3 (S fl) fr (length c) top _ None C1 fuel
                  Hrow3 Hv31) as (k0 & Hk0 & Hclimb).
      { apply Forall_app in Hlen3 as [Hl _].
        eapply Forall_impl; [exact Hl|]. intros c0. rewrite length_app. simpl.
        lia. }
      destruct (fuel - k0)%nat as [|fuel'] eqn:Ef; [lia|].
      specialize (Hclimb (S fuel')). fold prev in Hclimb.
      assert (fuel = (k0 + S fuel')%nat) as Hfk by lia.
      specialize (Hclimb Hfk). clear Hfk.
      destruct (new_layer_wfp m3 H0 top C1 v (c ++ [new]) _ C2 Hwf3)
        as (nf & Hnf & Hnfu & Hnfp & Hnfn & Hnfd & Hgt & Hnx & Hdn & Hwf5).
      set (g := fresh (dom m3)) in *.
      set (m1 := <[g := Node None (_next_node nf) (Some top) (_next_layer nf) 0]> m3) in *.
      set (m2 := match _next_node nf with
                 | Some nx => alter (with_prev_node (Some g)) nx m1
                 | None => m1
                 end) in *.
      set (m4 := match _next_layer nf with
                 | Some dn => alter (with_prev_layer (Some g)) dn m2
                 | None => m2
                 end) in *.
      set (m5 := alter (with_next_layer (Some g)) top
                   (alter (with_next_node None) top m4)) in *.
      assert (m1 !! top = Some nf) as Hnf1.
      { subst m1. by rewrite lookup_insert_ne. }
      assert (m2 !! top = Some nf) as Hnf2.
      { subst m2. destruct (_next_node nf) as [nx|] eqn:E; [|done].
        destruct (Hnx nx eq_refl) as (_ & _ & ?).
        by rewrite lookup_alter_ne. }
      assert (is_Some (m4 !! top)) as Hs4.
      { subst m4. destruct (_next_layer nf); [apply is_Some_alter|]; eauto. }
      assert (climb fuel prev (World m3 (S fl) fr) =
              Some (g, World m5 (S fl) fr)) as Hclimb'.
      { rewrite Hclimb. cbn [climb].
        rewrite (run_bind _ _ _ _ _ (load_ok _ _ _ _ _ Hnf)), Hnfu, Hnfp.
        rewrite (run_bind _ _ _ _ _ (malloc_ok _ _ _ _)). fold g m1.
        rewrite (run_bind _ _ _ _ _ (load_ok _ _ _ _ _ Hnf1)).
        erewrite (run_bind (match _next_node nf with
                      | Some nx => set_prev_node nx (Some g)
                      | None => ret tt
                      end) _ _ tt (World m2 (S fl) fr)); cycle 1.
        { subst m2. destruct (_next_node nf) as [nx|] eqn:E; [|done].
          destruct (Hnx nx eq_refl) as (? & _ & _).
          apply set_prev_node_run. subst m1. by apply is_Some_insert. }
        rewrite (run_bind _ _ _ _ _ (load_ok _ _ _ _ _ Hnf2)).
        erewrite (run_bind (match _next_layer nf with
                      | Some dn => set_prev_layer dn (Some g)
                      | None => ret tt
                      end) _ _ tt (World m4 (S fl) fr)); cycle 1.
        { subst m4. destruct (_next_layer nf) as [dn|] eqn:E; [|done].
          destruct (Hdn dn eq_refl) as (? & _ & _).
          apply set_prev_layer_run. subst m2.
          destruct (_next_node nf); [apply is_Some_alter|];
            subst m1; by apply is_Some_insert. }
        rewrite (run_bind _ _ _ _ _ (set_next_node_run _ _ _ _ _ Hs4)).
        erewrite (run_bind (set_next_layer top _)); cycle 1.
        { apply set_next_layer_run. by apply is_Some_alter. }
        done. }
      replace (H0 ++ [g; top]) with ((H0 ++ [g]) ++ [top]) in Hwf5
        by (by rewrite <- app_assoc).
      pose proof Hwf5 as (_ & _ & _ & Hh5 & _).
      assert (((H0 ++ [g]) ++ [top]) !! length c = Some g) as Hg5.
      { rewrite Ec, <- app_assoc. simpl. by rewrite lookup_app_r, Nat.sub_diag. }
      assert (((H0 ++ [g]) ++ [top]) !! S (length c) = Some top) as Htop5.
      { rewrite lookup_app_r by (rewrite length_app; simpl; lia).
        rewrite length_app. simpl.
        by replace (S (length c) - (length H0 + 1))%nat with 0%nat by lia. }
      destruct (Hh5 _ _ Hg5) as (ndg & Hndg & Hug & _).
      unfold up_full in Hug. rewrite Htop5 in Hug.
      assert (same_outside
                (nodes_of ((H0 ++ [g]) ++ [top]) (C1 ++ (v, c ++ [new]) :: C2))
                m3 m5) as Hso5.
      { assert (∀ y, y ∈ H0 ++ [top] ∨ y = g ∨
                     y ∈ lev (length H0) (C1 ++ (v, c ++ [new]) :: C2) →
                  y ∈ nodes_of ((H0 ++ [g]) ++ [top])
                        (C1 ++ (v, c ++ [new]) :: C2)) as Hin.
        { intros y [Hy|[->|Hy]].
          - apply elem_of_nodes_mid. left. set_solver.
          - apply elem_of_nodes_mid. left. set_solver.
          - unfold nodes_of. apply elem_of_app. right. by eapply lev_in_nodes. }
        subst m5. apply same_outside_alter; [apply Hin; set_solver|].
        apply same_outside_alter; [apply Hin; set_solver|].
        assert (same_outside
                  (nodes_of ((H0 ++ [g]) ++ [top])
                     (C1 ++ (v, c ++ [new]) :: C2)) m3 m2) as Hso2.
        { subst m2. destruct (_next_node nf) as [nx|] eqn:E.
          - apply same_outside_alter.
            + apply Hin. right. right.
              destruct (lev (length H0) (C1 ++ (v, c ++ [new]) :: C2));
                simplify_eq/=. by left.
            + subst m1. apply same_outside_insert; [apply Hin; tauto|].
              apply same_outside_refl.
          - subst m1. apply same_outside_insert; [apply Hin; tauto|].
            apply same_outside_refl. }
        subst m4. destruct (_next_layer nf) as [dn|] eqn:E; [|done].
        apply same_outside_alter; [|done].
        apply Hin. left. apply elem_of_app. left.
        rewrite last_lookup in Hnfd. symmetry in Hnfd.
        by apply list_elem_of_lookup_2 in Hnfd. }
      assert (m3 !! g = None) as Hfreshg by apply fresh_not_alloc.
      destruct (IH fuel m5 (S fl) fr (H0 ++ [g]) top C1 v (c ++ [new]) C2 top)
        as (m' & Hnew & r & newc & Hrun & Hr & Hlnew & HlH & Hwf' & Hso' & Hfr');
        [done|by rewrite Elen|done|done|lia|].
      rewrite Elen, Elast in Hrun. rewrite Elen in Hwf', HlH.
      rewrite (lev_short (S (length c)) C1), lastl_nil in Hrun.
      2:{ apply Forall_app in Hlen3 as [Hl _].
          eapply Forall_impl; [exact Hl|]. intros c0. rewrite length_app. simpl.
          lia. }
      destruct (link_up_wfp _ _ _ _ _ _ _ _ _ Hwf' Hr) as [Hs Hwf''].
      rewrite <- !app_assoc in Hso'. simpl in Hso'.
      exists (alter (with_prev_layer (Some r)) new m'), (g :: Hnew), new,
        (new :: newc).
      split; [|split; [done|split; [simpl; lia|split; [|split; [|split]]]]];
        cycle 3.
      { apply same_outside_alter; [apply elem_of_nodes_mid; set_solver|].
        eapply same_outside_trans; [|exact Hso'].
        eapply same_outside_trans.
        - eapply same_outside_mono; [|exact Hso3].
          intros x. rewrite !elem_of_nodes_mid. set_solver.
        - eapply same_outside_mono; [|exact Hso5].
          intros x. rewrite !elem_of_nodes_mid. set_solver. }
      { assert (∀ x, m5 !! x = None → m !! x = None) as Hback.
        { intros x Hx.
          eapply (wfp_free_before m m3); [exact Hso3|exact Hwf3|].
          eapply (wfp_free_before m3 m5); [exact Hso5|exact Hwf5|done]. }
        simpl. constructor; [done|].
        apply Forall_app. apply Forall_app in Hfr' as [Hfc HfH]. split.
        - eapply Forall_impl; [exact Hfc|]. intros x Hx. by apply Hback.
        - constructor.
          + eapply (wfp_free_before m m3); [exact Hso3|exact Hwf3|done].
          + eapply Forall_impl; [exact HfH|]. intros x Hx. by apply Hback. }
      * unfold bind at 1.
        rewrite (run_bind _ _ _ _ _ Hclimb').
        rewrite (run_bind _ _ _ _ _ (load_ok _ _ _ _ _ Hndg)), Hug.
        unfold ret at 1. unfold bind at 1.
        rewrite (run_bind _ _ _ _ _ Hrun).
        rewrite (set_prev_layer_run _ _ _ _ _ Hs).
        unfold ret. do 3 f_equal. lia.
      * simpl. rewrite length_app in HlH. simpl in HlH. lia.
      * by rewrite <- app_assoc in Hwf''.
Qed.

Lemma insert_node_spec (k : nat) : ∀ fuel m fl fr H0 top C1 v c C2 hd,
  wfp m (H0 ++ [top]) C1 v c (λ _, None) C2 →
  (H0 ++ [top]) !! length c = Some hd →
  (∀ j : nat, (j < k)%nat → coins (fl + j) = true) →
  coins (fl + k) = false →
  (k + length C1 + 2 ≤ fuel)%nat →
  ∃ m' Hnew r newc,
    _insert_node coins fuel (lastl hd (lev (length c) C1)) (last c) v
        (World m fl fr) = Some (r, World m' (fl + k + 1) fr) ∧
    newc = r :: tail newc ∧ length newc = S k ∧
    length Hnew = (length c + S k - S (length H0))%nat ∧
    wfp m' (H0 ++ Hnew ++ [top]) C1 v (c ++ newc)
        (up_from (length c) (c ++ newc)) C2.
Proof.
  intros fuel m fl fr H0 top C1 v c C2 hd Hwf Hhd Hheads Htails Hfuel.
  destruct (insert_node_heap k fuel m fl fr H0 top C1 v c C2 hd
              Hwf Hhd Hheads Htails Hfuel)
    as (m' & Hnew & r & newc & ? & ? & ? & ? & ? & _).
  by exists m', Hnew, r, newc.
Qed.

End Insert.

(** ** Graphs with and without a pending column *)

Lemma nodes_of_mid_nil H C1 v C2 :
  nodes_of H (C1 ++ (v, []) :: C2) = nodes_of H (C1 ++ C2).
Proof. unfold nodes_of. by rewrite !fmap_app, !join_app, fmap_cons. Qed.

Lemma wf_wfp_nil m H C1 v upf C2 :
  wf m H (C1 ++ C2) ↔ wfp m H C1 v [] upf C2.
Proof.
  unfold wf, wfp, shape, rows.
  rewrite nodes_of_mid_nil.
  assert (∀ i, lev i (C1 ++ (v, []) :: C2) = lev i (C1 ++ C2)) as El.
  { intros i. by rewrite lev_mid_None, lev_app. }
  setoid_rewrite El.
  assert (Forall (λ c : column, (length c.2 ≤ length H)%nat)
            (C1 ++ (v, []) :: C2) ↔
          Forall (λ c : column, (length c.2 ≤ length H)%nat) (C1 ++ C2)) as ->.
  { rewrite !Forall_app, Forall_cons. simpl. intuition lia. }
  assert (vcolg m v upf [] ↔ True) as ->; [|tauto].
  split; [done|]. by intros _ i x ?.
Qed.

Lemma wf_wfp_full m H C1 v c C2 :
  wf m H (C1 ++ (v, c) :: C2) ↔ wfp m H C1 v c (up_full c) C2 ∧ c ≠ [].
Proof.
  unfold wf, wfp. rewrite !Forall_app, !Forall_cons. unfold vcol at 2. simpl.
  tauto.
Qed.

Lemma up_from_0 c i : up_from 0 c i = up_full c i.
Proof. unfold up_from, up_full. by rewrite decide_False by lia. Qed.

Section InsertTop.
Variable coins : nat → bool.

(** [skip_list_insert] on a well-formed list, with [k] heads before the
    first tails; the cells of the new nodes were free, and the cells that
    are not nodes afterwards are as before. *)
Lemma skip_list_insert_heap m fl fr sl H cols data (k : nat) fuel :
  represents (World m fl fr) sl H cols →
  (∀ j : nat, (j < k)%nat → coins (fl + j) = true) →
  coins (fl + k) = false →
  (length cols + length H + k + 2 ≤ fuel)%nat →
  ∃ D1 D2, cols = D1 ++ D2 ∧
    before_target (_gt_func sl) data 0 D1 ∧ stops_at (_gt_func sl) data D2 ∧
    ((∃ c D, D2 = c :: D ∧ c.1 = data ∧
        skip_list_insert coins fuel sl data (World m fl fr) =
          Some ((0, sl), World m fl fr)) ∨
     ((∀ c D, D2 = c :: D → c.1 ≠ data) ∧
      ∃ m' H0 Hnew newc,
        H = H0 ++ [_first_node sl] ∧
        skip_list_insert coins fuel sl data (World m fl fr) =
          Some ((1, SkipList (_first_node sl) (_gt_func sl) (_size sl + 1)),
                World m' (fl + k + 1) fr) ∧
        length newc = S k ∧
        length Hnew = (S k - S (length H0))%nat ∧
        wf m' (H0 ++ Hnew ++ [_first_node sl])
           (D1 ++ (data, newc) :: D2) ∧
        same_outside
          (nodes_of (H0 ++ Hnew ++ [_first_node sl])
             (D1 ++ (data, newc) :: D2)) m m' ∧
        Forall (λ x, m !! x = None) (newc ++ Hnew))).
Proof.
  intros [Htop Hwf] Hheads Htails Hfuel. simpl in Hwf.
  destruct (find_previous_top (_gt_func sl) data m fl fr H cols
              (_first_node sl) fuel Hwf Htop)
    as (D1 & D2 & h0 & prev & p & -> & Hh0 & Hfind & -> & Hp & Hbt & Hst & Hnx);
    [lia|].
  exists D1, D2. split; [done|]. split; [done|]. split; [done|].
  unfold skip_list_insert.
  rewrite (run_bind _ _ _ _ _ Hfind).
  rewrite (run_bind _ _ _ _ _ (load_ok _ _ _ _ _ Hp)).
  assert (∃ m' H0 Hnew newc,
        H = H0 ++ [_first_node sl] ∧
        bind (_insert_node coins fuel (lastl h0 (lev 0 D1)) None data)
          (λ _, ret (1, SkipList (_first_node sl) (_gt_func sl) (_size sl + 1)))
          (World m fl fr) =
          Some ((1, SkipList (_first_node sl) (_gt_func sl) (_size sl + 1)),
                World m' (fl + k + 1) fr) ∧
        length newc = S k ∧
        length Hnew = (S k - S (length H0))%nat ∧
        wf m' (H0 ++ Hnew ++ [_first_node sl])
           (D1 ++ (data, newc) :: D2) ∧
        same_outside
          (nodes_of (H0 ++ Hnew ++ [_first_node sl])
             (D1 ++ (data, newc) :: D2)) m m' ∧
        Forall (λ x, m !! x = None) (newc ++ Hnew)) as Hins.
  { apply last_Some in Htop as [H0 ->].
    apply (wf_wfp_nil _ _ _ data (λ _, None)) in Hwf.
    destruct (insert_node_heap coins k fuel m fl fr H0 (_first_node sl)
                D1 data [] D2 h0 Hwf Hh0 Hheads Htails)
      as (m' & Hnew & r & newc & Hrun & Hr & Hlen & HlH & Hwf' & Hso & Hfr).
    { rewrite length_app in Hfuel. lia. }
    simpl in Hrun, Hwf', HlH, Hso.
    exists m', H0, Hnew, newc. split; [done|].
    split; [by rewrite (run_bind _ _ _ _ _ Hrun)|].
    split; [done|]. split; [done|]. split; [|done].
    apply wf_wfp_full. split; [|by destruct newc].
    eapply wfp_ext; [|exact Hwf']. intros. apply up_from_0. }
  destruct D2 as [|c D].
  - right. split; [done|]. rewrite Hnx, bind_ret. exact Hins.
  - destruct Hnx as (x & nd & Hx & Hpx & Hnd & Hd). rewrite Hpx.
    rewrite bind_assoc, (run_bind _ _ _ _ _ (load_ok _ _ _ _ _ Hnd)).
    rewrite bind_ret, Hd.
    destruct (decide (c.1 = data)) as [E|E].
    + left. exists c, D. rewrite bool_decide_true by done. done.
    + right. rewrite bool_decide_false by done.
      split; [by intros ?? [= <- <-]|]. exact Hins.
Qed.

(** [skip_list_insert] on a well-formed list, with [k] heads before the
    first tails. *)
Lemma skip_list_insert_spec m fl fr sl H cols data (k : nat) fuel :
  represents (World m fl fr) sl H cols →
  (∀ j : nat, (j < k)%nat → coins (fl + j) = true) →
  coins (fl + k) = false →
  (length cols + length H + k + 2 ≤ fuel)%nat →
  ∃ D1 D2, cols = D1 ++ D2 ∧
    before_target (_gt_func sl) data 0 D1 ∧ stops_at (_gt_func sl) data D2 ∧
    ((∃ c D, D2 = c :: D ∧ c.1 = data ∧
        skip_list_insert coins fuel sl data (World m fl fr) =
          Some ((0, sl), World m fl fr)) ∨
     ((∀ c D, D2 = c :: D → c.1 ≠ data) ∧
      ∃ m' H0 Hnew newc,
        H = H0 ++ [_first_node sl] ∧
        skip_list_insert coins fuel sl data (World m fl fr) =
          Some ((1, SkipList (_first_node sl) (_gt_func sl) (_size sl + 1)),
                World m' (fl + k + 1) fr) ∧
        length newc = S k ∧
        length Hnew = (S k - S (length H0))%nat ∧
        wf m' (H0 ++ Hnew ++ [_first_node sl])
           (D1 ++ (data, newc) :: D2))).
Proof.
  intros Hrep Hheads Htails Hfuel.
  destruct (skip_list_insert_heap m fl fr sl H cols data k fuel
              Hrep Hheads Htails Hfuel)
    as (D1 & D2 & E & Hbt & Hst & [Hdup|[Hnd Hins]]);
    exists D1, D2; (split; [done|]); (split; [done|]); (split; [done|]).
  - by left.
  - right. split; [done|].
    destruct Hins as (m' & H0 & Hnew & newc & ? & ? & ? & ? & ? & _).
    by exists m', H0, Hnew, newc.
Qed.

End InsertTop.

(** ** Deletion of a column *)

Lemma sublist_nodes_take H C1 v (c : list loc) C2 n :
  nodes_of H (C1 ++ (v, take n c) :: C2) `sublist_of`
  nodes_of H (C1 ++ (v, c) :: C2).
Proof.
  unfold nodes_of. rewrite !fmap_app, !join_app, !fmap_cons. simpl.
  repeat (apply sublist_app; [done|]).
  apply sublist_app; [|done]. apply sublist_take.
Qed.

(** One step of [_delete_node]: the topmost node of the column is unlinked
    from its level and freed. *)
Lemma unlink_wfp m H C1 v c upf C2 (n : nat) x hd :
  wfp m H C1 v (take (S n) c) upf C2 → c !! n = Some x → H !! n = Some hd →
  let prev := lastl hd (lev n C1) in
  let nxt := hd_or (lev n C2) None in
  let m2 := alter (with_next_node nxt) prev m in
  let m3 := match nxt with
            | Some nx => alter (with_prev_node (Some prev)) nx m2
            | None => m2
            end in
  hlink m x (Some prev) nxt ∧ is_Some (m !! prev) ∧ x ≠ prev ∧
  (∀ nx, nxt = Some nx → is_Some (m !! nx) ∧ nx ≠ prev ∧ nx ≠ x) ∧
  wfp (delete x m3) H C1 v (take n c) upf C2.
Proof.
  intros Hwf Hx Hhd prev nxt m2 m3.
  pose proof Hwf as ((HH & Hnd & Hlen) & Hne & Hrows & Hh & Hv & Hc).
  assert (take (S n) c !! n = Some x) as Hx'.
  { rewrite lookup_take_lt by lia. done. }
  pose proof (Hrows _ _ Hhd) as Hrow.
  rewrite (lev_mid_Some _ _ _ _ _ _ Hx') in Hrow.
  pose proof (NoDup_row _ _ _ _ Hnd Hhd) as Hndrow.
  rewrite (lev_mid_Some _ _ _ _ _ _ Hx') in Hndrow.
  destruct (cons_snoc_lastl hd (lev n C1)) as (B & EB & _).
  fold prev in EB.
  rewrite app_comm_cons, EB, <- app_assoc in Hrow, Hndrow.
  change ([prev] ++ ?l) with (prev :: l) in Hrow, Hndrow.
  pose proof (dseg_before _ _ _ _ _ _ Hrow) as Hprev.
  assert (hlink m x (Some prev) nxt) as Hlx.
  { apply dseg_app in Hrow as [_ [_ [Hlx _]]]. exact Hlx. }
  assert (x ≠ prev) as Hxp.
  { apply NoDup_app in Hndrow as (_ & _ & Hd).
    apply NoDup_cons in Hd as [Hd _]. set_solver. }
  assert (∀ nx, nxt = Some nx →
            is_Some (m !! nx) ∧ nx ≠ prev ∧ nx ≠ x ∧
            (∃ L, lev n C2 = nx :: L)) as Hnx.
  { intros nx Enx. subst nxt.
    destruct (lev n C2) as [|nx' L] eqn:EL; simplify_eq/=.
    split; [eapply dseg_alloc; [exact Hrow|]; set_solver|].
    apply NoDup_app in Hndrow as (_ & _ & Hd).
    apply NoDup_cons in Hd as [Hd1 [Hd2 _]%NoDup_cons].
    split; [set_solver|]. split; [set_solver|eauto]. }
  split; [done|]. split; [by eapply hlink_alloc|]. split; [done|].
  split; [intros nx E; destruct (Hnx nx E); tauto|].
  assert (hkeep m m2 [prev] ∧ vkeep m m2 []) as [Hh2 Hv2].
  { split; [apply hkeep_set_next_node | apply vkeep_set_next_node]. }
  assert (hkeep m2 m3 (option_list nxt) ∧ vkeep m2 m3 []) as [Hh3 Hv3].
  { subst m3. destruct nxt; simpl.
    - split; [apply hkeep_set_prev_node | apply vkeep_set_prev_node].
    - split; [apply hkeep_refl | apply vkeep_refl]. }
  assert (hkeep m (delete x m3) (prev :: x :: option_list nxt)) as Hk.
  { intros y p q Hy Hl. apply hkeep_free; [set_solver|].
    apply Hh3; [set_solver|]. apply Hh2; [set_solver|done]. }
  assert (vkeep m (delete x m3) [x]) as Hvk.
  { intros y u d w Hy Hl. apply vkeep_free; [set_solver|].
    apply Hv3; [set_solver|]. apply Hv2; [set_solver|done]. }
  assert (take n c !! n = None) as Hn.
  { apply lookup_ge_None_2. rewrite length_take. lia. }
  eapply (wfp_change m (delete x m3) H C1 v (take (S n) c) upf C2
            (take n c) upf n hd); [done|done| | | | | | |].
  - intros j Hj. destruct (decide (j < n)%nat).
    + by rewrite !lookup_take_lt by lia.
    + rewrite !lookup_ge_None_2; [done| |]; rewrite length_take; lia.
  - eapply sublist_NoDup; [exact Hnd|].
    replace (take n c) with (take n (take (S n) c))
      by (rewrite take_take; f_equal; lia).
    apply sublist_nodes_take.
  - apply Forall_app in Hlen as [_ [Hl _]%Forall_cons]. simpl in Hl.
    rewrite length_take in *. lia.
  - rewrite (lev_mid_Some _ _ _ _ _ _ Hx').
    intros y p q Hy. apply Hk. intros Hin. apply Hy.
    rewrite app_comm_cons, EB. subst nxt.
    destruct (lev n C2); set_solver.
  - intros y u d w Hy. apply Hvk.
    intros ->%list_elem_of_singleton. apply Hy.
    by eapply list_elem_of_lookup_2.
  - rewrite (lev_mid_None _ _ _ _ _ Hn).
    rewrite app_comm_cons, EB, <- app_assoc.
    change ([prev] ++ ?l) with (prev :: l).
    eapply dseg_splice_out; [exact Hrow|exact Hndrow| | |].
    + intros y p q Hy. apply Hk. subst nxt. by destruct (lev n C2).
    + apply hkeep_free; [set_solver|]. apply Hh3.
      { destruct nxt as [nx|] eqn:E; [|set_solver].
        destruct (Hnx nx eq_refl) as (_ & ? & _). set_solver. }
      subst m2. eapply hlink_set_next_node. exact Hprev.
    + intros nx L EL. rewrite EL in Hrow.
      apply dseg_app in Hrow as [_ [_ [_ [Hl _]]]].
      assert (nxt = Some nx) as Enx by (subst nxt; by rewrite EL).
      destruct (Hnx nx Enx) as (_ & ? & ? & _).
      apply hkeep_free; [set_solver|]. subst m3. rewrite Enx.
      eapply hlink_set_prev_node. apply Hh2; [set_solver|exact Hl].
  - intros j y Hy.
    assert (j < n)%nat as Hjn.
    { apply lookup_lt_Some in Hy. rewrite length_take in Hy. lia. }
    rewrite lookup_take_lt in Hy by done.
    assert (take (S n) c !! j = Some y) as Hy'.
    { by rewrite lookup_take_lt by lia. }
    pose proof (Hc _ _ Hy') as Hl.
    assert (match j with O => None | S j0 => take n c !! j0 end =
            match j with O => None | S j0 => take (S n) c !! j0 end) as ->.
    { destruct j; [done|]. by rewrite !lookup_take_lt by lia. }
    apply Hvk; [|done]. intros ->%list_elem_of_singleton.
    assert (NoDup (take (S n) c)) as Hndc.
    { rewrite nodes_of_mid in Hnd. by apply NoDup_app in Hnd as [? _]. }
    pose proof (NoDup_lookup _ _ _ _ Hndc Hy' Hx'). lia.
Qed.

(** [_delete_node] called on the node of level [n] of a column takes down
    the column from the top to level [n]; the cells of the nodes taken down
    are free afterwards, and the cells that are not nodes are as before. *)
Lemma delete_node_heap m fl fr H C1 v c C2 (d : nat) : ∀ (n : nat) fuel,
  wfp m H C1 v c (up_full c) C2 →
  (n + d)%nat = length c → (d < fuel)%nat →
  ∃ m', _delete_node fuel (c !! n) (World m fl fr) =
          Some (tt, World m' fl (drop n c ++ fr)) ∧
        wfp m' H C1 v (take n c) (up_full c) C2 ∧
        same_outside (nodes_of H (C1 ++ (v, c) :: C2)) m m' ∧
        Forall (λ x, m' !! x = None) (drop n c).
Proof.
  induction d as [|d IH]; intros n fuel Hwf Hn Hfuel;
    (destruct fuel as [|fuel]; [lia|]).
  - exists m. rewrite lookup_ge_None_2, drop_ge, take_ge by lia.
    split; [done|]. split; [done|]. split; [apply same_outside_refl|done].
  - assert (is_Some (c !! n)) as [x Hx] by (apply lookup_lt_is_Some; lia).
    pose proof Hwf as ((_ & _ & Hlen) & _ & _ & _ & _ & Hc).
    destruct (Hc _ _ Hx) as (nd & Hnd & Hu & _). unfold up_full in Hu.
    destruct (IH (S n) fuel Hwf) as (m1 & Hrun & Hwf1 & Hso1 & Hfr1);
      [lia|lia|].
    assert (is_Some (H !! n)) as [hd Hhd].
    { apply lookup_lt_is_Some. apply Forall_app in Hlen as [_ [Hl _]%Forall_cons].
      simpl in Hl. lia. }
    destruct (unlink_wfp m1 H C1 v c (up_full c) C2 n x hd Hwf1 Hx Hhd)
      as (Hlx & Hsp & Hxp & Hnx & Hwf').
    destruct Hlx as (nd1 & Hnd1 & Hp1 & Hn1).
    assert (∀ y, y ∈ hd :: lev n (C1 ++ (v, c) :: C2) →
              y ∈ nodes_of H (C1 ++ (v, c) :: C2)) as Hrowin.
    { intros y. by apply nodes_of_row. }
    assert (x ∈ nodes_of H (C1 ++ (v, c) :: C2)) as Hxin.
    { apply elem_of_nodes_mid. right. left.
      by eapply list_elem_of_lookup_2. }
    assert (lastl hd (lev n C1) ∈ nodes_of H (C1 ++ (v, c) :: C2)) as Hpin.
    { apply Hrowin. rewrite lev_mid, elem_of_cons, elem_of_app.
      pose proof (lastl_elem hd (lev n C1)) as Hl.
      apply elem_of_cons in Hl. tauto. }
    assert (∀ nx, hd_or (lev n C2) None = Some nx →
              nx ∈ nodes_of H (C1 ++ (v, c) :: C2)) as Hnin.
    { intros nx Enx. apply Hrowin. right. rewrite lev_mid, !elem_of_app.
      right. right. destruct (lev n C2); simplify_eq/=. by left. }
    eexists. split; [|split; [exact Hwf'|]]; cycle 1.
    { split.
      - apply same_outside_delete; [done|].
        destruct (hd_or (lev n C2) None) as [nx|] eqn:Enx.
        + apply same_outside_alter; [by apply Hnin|].
          by apply same_outside_alter.
        + by apply same_outside_alter.
      - rewrite (drop_S _ _ _ Hx). constructor; [apply lookup_delete_eq|].
        eapply Forall_impl; [exact Hfr1|]. intros y Hy. simpl in Hy.
        rewrite lookup_delete_None. right.
        destruct (hd_or (lev n C2) None) as [nx|];
          rewrite ?lookup_alter_None; done. }
    rewrite Hx. cbn [_delete_node].
    rewrite (run_bind _ _ _ _ _ (load_ok _ _ _ _ _ Hnd)), Hu.
    rewrite (run_bind _ _ _ _ _ Hrun).
    rewrite (run_bind _ _ _ _ _ (load_ok _ _ _ _ _ Hnd1)), Hp1, bind_ret.
    rewrite (run_bind _ _ _ _ _ (set_next_node_run _ _ _ _ _ Hsp)).
    erewrite (run_bind (load x)); cycle 1.
    { apply load_ok. rewrite lookup_alter_ne by done. exact Hnd1. }
    rewrite Hn1.
    destruct (hd_or (lev n C2) None) as [nx|] eqn:Enx.
    + destruct (Hnx nx eq_refl) as (Hs & ? & ?).
      erewrite (run_bind (set_prev_node nx _)); cycle 1.
      { apply set_prev_node_run. by apply is_Some_alter. }
      erewrite free_ok; cycle 1.
      { rewrite !lookup_alter_ne by done. exact Hnd1. }
      by rewrite (drop_S _ _ _ Hx).
    + rewrite bind_ret. erewrite free_ok; cycle 1.
      { rewrite !lookup_alter_ne by done. exact Hnd1. }
      by rewrite (drop_S _ _ _ Hx).
Qed.

Lemma delete_node_spec m fl fr H C1 v c C2 (d : nat) : ∀ (n : nat) fuel,
  wfp m H C1 v c (up_full c) C2 →
  (n + d)%nat = length c → (d < fuel)%nat →
  ∃ m', _delete_node fuel (c !! n) (World m fl fr) =
          Some (tt, World m' fl (drop n c ++ fr)) ∧
        wfp m' H C1 v (take n c) (up_full c) C2.
Proof.
  intros n fuel Hwf Hn Hfuel.
  destruct (delete_node_heap m fl fr H C1 v c C2 d n fuel Hwf Hn Hfuel)
    as (m' & ? & ? & _).
  by exists m'.
Qed.

(** ** Height reduction *)

(** An empty top level is discarded. *)
Lemma drop_top_wf m H0 top dn cols :
  wf m (H0 ++ [top]) cols → last H0 = Some dn →
  lev (length H0) cols = [] →
  dn ≠ top ∧ is_Some (m !! dn) ∧
  wf (alter (with_prev_layer None) dn (delete top m)) H0 cols.
Proof.
  intros ((HH & Hnd & Hlen) & Hne & Hrows & Hh & Hv) Hdn Hlev.
  apply last_Some in Hdn as [H1 ->].
  assert (NoDup ((H1 ++ [dn]) ++ [top])) as HndH.
  { unfold nodes_of in Hnd. by apply NoDup_app in Hnd as [? _]. }
  assert (dn ≠ top) as Hdt.
  { rewrite <- app_assoc in HndH. apply NoDup_app in HndH as (_ & _ & Hd).
    apply NoDup_cons in Hd as [Hd _]. set_solver. }
  assert (is_Some (m !! dn)) as Hsdn.
  { eapply vcolg_alloc; [exact Hh|]. set_solver. }
  split; [done|]. split; [done|].
  set (m1 := delete top m). set (m2 := alter (with_prev_layer None) dn m1).
  assert (hkeep m m2 [top]) as Hhk.
  { intros x p n Hx Hl. apply (hkeep_set_prev_layer m1 dn None [top]);
      [exact Hx|]. by apply hkeep_free. }
  assert (vkeep m m2 [top; dn]) as Hvk.
  { intros x u d w Hx Hl. apply (vkeep_set_prev_layer m1 dn None);
      [set_solver|]. apply vkeep_free; [set_solver|done]. }
  assert (∀ x, x ∈ mjoin (cols.*2) → x ∉ [top; dn]) as Hcolh.
  { intros x Hx Hin. unfold nodes_of in Hnd.
    apply NoDup_app in Hnd as (_ & Hdis & _). eapply Hdis; [|exact Hx].
    set_solver. }
  split; [|split; [done|split; [|split]]].
  - split; [by destruct H1|]. split.
    + unfold nodes_of in *. rewrite <- app_assoc in Hnd.
      apply NoDup_app in Hnd as (? & Hd & Hr).
      apply NoDup_app. split; [done|]. split.
      * intros x Hx. specialize (Hd x Hx). set_solver.
      * simpl in Hr. by apply NoDup_cons in Hr as [_ ?].
    + by apply lev_nil_short.
  - intros j hj Hhj.
    assert (((H1 ++ [dn]) ++ [top]) !! j = Some hj) as Hhj'.
    { rewrite lookup_app_l; [done|]. by eapply lookup_lt_Some. }
    eapply dseg_keep; [exact Hhk| |by apply Hrows].
    intros x Hx ->%list_elem_of_singleton.
    assert (((H1 ++ [dn]) ++ [top]) !! length (H1 ++ [dn]) = Some top) as Hf.
    { by rewrite lookup_app_r, Nat.sub_diag. }
    assert (top ∈ top :: lev (length (H1 ++ [dn])) cols) as Hin by set_solver.
    pose proof (row_level_unique _ _ _ _ _ _ _ Hnd Hhj' Hf Hx Hin) as E.
    apply lookup_lt_Some in Hhj. lia.
  - intros j x Hx. unfold up_full.
    assert (((H1 ++ [dn]) ++ [top]) !! j = Some x) as Hx'.
    { rewrite lookup_app_l; [done|]. by eapply lookup_lt_Some. }
    pose proof (Hh _ _ Hx') as Hl. unfold up_full in Hl.
    assert (match j with O => None | S j0 => ((H1 ++ [dn]) ++ [top]) !! j0 end
            = match j with O => None | S j0 => (H1 ++ [dn]) !! j0 end) as Ed.
    { destruct j; [done|]. rewrite lookup_app_l; [done|].
      apply lookup_lt_Some in Hx. lia. }
    rewrite Ed in Hl.
    destruct (decide (j = length H1)) as [->|Hj].
    + assert (x = dn) as ->.
      { rewrite lookup_app_r, Nat.sub_diag in Hx by lia. by simplify_eq/=. }
      rewrite (lookup_ge_None_2 (H1 ++ [dn]))
        by (rewrite length_app; simpl; lia).
      subst m2. eapply vlink_set_prev_layer.
      apply vkeep_free; [set_solver|exact Hl].
    + assert (j < length H1)%nat as Hlt.
      { apply lookup_lt_Some in Hx. rewrite length_app in Hx. simpl in Hx. lia. }
      rewrite lookup_app_l in Hl
        by (rewrite length_app; simpl; lia).
      apply Hvk; [|done].
      intros [->|[->|?%elem_of_nil]%elem_of_cons]%elem_of_cons; [| |done].
      * assert (((H1 ++ [dn]) ++ [top]) !! length (H1 ++ [dn]) = Some top) as Hf.
        { by rewrite lookup_app_r, Nat.sub_diag. }
        pose proof (NoDup_lookup _ _ _ _ HndH Hx' Hf) as E.
        rewrite length_app in E. lia.
      * assert (((H1 ++ [dn]) ++ [top]) !! length H1 = Some dn) as Hf.
        { rewrite <- app_assoc. by rewrite lookup_app_r, Nat.sub_diag. }
        pose proof (NoDup_lookup _ _ _ _ HndH Hx' Hf). lia.
  - apply Forall_forall. intros c0 Hc0.
    eapply vcolg_keep; [exact Hvk| |by eapply Forall_forall in Hv].
    intros x Hx. apply Hcolh. apply list_elem_of_join. exists c0.2.
    split; [done|]. by apply list_elem_of_fmap_2.
Qed.

Lemma reduce_height_heap cols fl : ∀ H m fr top fuel,
  wf m H cols → last H = Some top → (length H < fuel)%nat →
  ∃ m' H1 H2 top', H = H1 ++ H2 ∧
    _reduce_height fuel top (World m fl fr) =
      Some (top', World m' fl (H2 ++ fr)) ∧
    last H1 = Some top' ∧ wf m' H1 cols ∧
    (length H1 = 1%nat ∨ lev (pred (length H1)) cols ≠ []) ∧
    same_outside (nodes_of H cols) m m' ∧
    Forall (λ x, m' !! x = None) H2.
Proof.
  induction H as [|f H0 IH] using rev_ind; intros m fr top fuel Hwf Htop Hfuel;
    [done|].
  rewrite last_snoc in Htop. injection Htop as ->.
  rewrite length_app in Hfuel. simpl in Hfuel.
  destruct fuel as [|fuel]; [lia|].
  pose proof Hwf as ((HH & Hnd & Hlen) & Hne & Hrows & Hh & Hv).
  assert ((H0 ++ [top]) !! length H0 = Some top) as Hf.
  { by rewrite lookup_app_r, Nat.sub_diag. }
  pose proof (Hrows _ _ Hf) as [Hhf _].
  pose proof (Hh _ _ Hf) as Hvf. unfold up_full in Hvf.
  rewrite lookup_ge_None_2 in Hvf by (rewrite length_app; simpl; lia).
  assert (match length H0 with O => None | S j => (H0 ++ [top]) !! j end
          = last H0) as Edn.
  { rewrite last_lookup. destruct (length H0) eqn:E; [by destruct H0|].
    simpl. rewrite lookup_app_l; [done|lia]. }
  rewrite Edn in Hvf. simpl in Hhf.
  pose proof (hlink_vlink _ _ _ _ _ _ _ Hhf Hvf) as Hnf.
  cbn [_reduce_height].
  rewrite (run_bind _ _ _ _ _ (load_ok _ _ _ _ _ Hnf)). cbn [_next_layer _next_node].
  destruct (last H0) as [dn|] eqn:Elast.
  - destruct (lev (length H0) cols) as [|nx L] eqn:EL; simpl.
    + destruct (drop_top_wf m H0 top dn cols Hwf Elast EL) as (Hdt & Hsdn & Hwf2).
      destruct (IH _ (top :: fr) dn fuel Hwf2 eq_refl)
        as (m' & H1 & H2 & top' & E12 & Hrun & Hl1 & Hwf' & Hfin & Hso & Hfr);
        [lia|].
      assert (top ∉ nodes_of H0 cols) as Htopn.
      { intros Hin. unfold nodes_of in Hnd, Hin.
        rewrite <- app_assoc in Hnd. apply NoDup_app in Hnd as (_ & Hd & Hnd).
        apply elem_of_app in Hin as [Hin|Hin].
        - apply (Hd top Hin). by left.
        - simpl in Hnd. by apply NoDup_cons in Hnd as [Hnd _]. }
      exists m', H1, (H2 ++ [top]), top'.
      split; [by rewrite E12, app_assoc|]. split; [|split; [done|split;
        [done|split; [done|split]]]].
      * rewrite (run_bind _ _ _ _ _ (free_ok _ _ _ _ _ Hnf)).
        erewrite (run_bind (set_prev_layer dn None)); cycle 1.
        { apply set_prev_layer_run. destruct Hsdn as [? ?].
          rewrite lookup_delete_ne by done. eauto. }
        rewrite Hrun. by rewrite <- app_assoc.
      * apply (same_outside_trans _ m
                 (alter (with_prev_layer None) dn (delete top m)) m').
        -- apply same_outside_alter.
           ++ unfold nodes_of. apply elem_of_app. left. apply elem_of_app. left.
              rewrite last_lookup in Elast.
              by apply list_elem_of_lookup_2 in Elast.
           ++ apply same_outside_delete; [|apply same_outside_refl].
              unfold nodes_of. set_solver.
        -- eapply same_outside_mono; [|exact Hso].
           unfold nodes_of. set_solver.
      * apply Forall_app. split; [done|]. constructor; [|done].
        rewrite (Hso top Htopn), lookup_alter_ne by done.
        apply lookup_delete_eq.
    + exists m, (H0 ++ [top]), [], top. rewrite app_nil_r.
      split; [done|]. split; [done|]. split; [apply last_snoc|]. split; [done|].
      split; [|split; [apply same_outside_refl|done]].
      right. rewrite length_app. simpl.
      replace (pred (length H0 + 1)) with (length H0) by lia. by rewrite EL.
  - exists m, (H0 ++ [top]), [], top. rewrite app_nil_r.
    split; [done|]. split; [done|]. split; [apply last_snoc|]. split; [done|].
    split; [|split; [apply same_outside_refl|done]].
    left. apply last_None in Elast as ->. done.
Qed.

Lemma reduce_height_spec cols fl : ∀ H m fr top fuel,
  wf m H cols → last H = Some top → (length H < fuel)%nat →
  ∃ m' H1 H2 top', H = H1 ++ H2 ∧
    _reduce_height fuel top (World m fl fr) =
      Some (top', World m' fl (H2 ++ fr)) ∧
    last H1 = Some top' ∧ wf m' H1 cols ∧
    (length H1 = 1%nat ∨ lev (pred (length H1)) cols ≠ []).
Proof.
  intros H m fr top fuel Hwf Htop Hfuel.
  destruct (reduce_height_heap cols fl H m fr top fuel Hwf Htop Hfuel)
    as (m' & H1 & H2 & top' & ? & ? & ? & ? & ? & _).
  by exists m', H1, H2, top'.
Qed.

(** ** Removal *)

(** [skip_list_remove] on a well-formed list; the cells of the nodes that
    are freed are free afterwards, and the cells that were not nodes are as
    before. *)
Lemma skip_list_remove_heap m fl fr sl H cols data fuel :
  represents (World m fl fr) sl H cols →
  (length cols + length H + 2 ≤ fuel)%nat →
  ∃ D1 D2, cols = D1 ++ D2 ∧
    before_target (_gt_func sl) data 0 D1 ∧ stops_at (_gt_func sl) data D2 ∧
    (((∀ c D, D2 = c :: D → c.1 ≠ data) ∧
      skip_list_remove fuel sl data (World m fl fr) =
        Some ((0, sl), World m fl fr)) ∨
     (∃ c D m' H1 H2 top',
        D2 = c :: D ∧ c.1 = data ∧ H = H1 ++ H2 ∧
        skip_list_remove fuel sl data (World m fl fr) =
          Some ((1, SkipList top' (_gt_func sl) (_size sl - 1)),
                World m' fl (H2 ++ c.2 ++ fr)) ∧
        last H1 = Some top' ∧ wf m' H1 (D1 ++ D) ∧
        (length H1 = 1%nat ∨ lev (pred (length H1)) (D1 ++ D) ≠ []) ∧
        same_outside (nodes_of H cols) m m' ∧
        Forall (λ x, m' !! x = None) (H2 ++ c.2))).
Proof.
  intros [Htop Hwf] Hfuel. simpl in Hwf.
  destruct (find_previous_top (_gt_func sl) data m fl fr H cols
              (_first_node sl) fuel Hwf Htop)
    as (D1 & D2 & h0 & prev & p & -> & Hh0 & Hfind & -> & Hp & Hbt & Hst & Hnx);
    [lia|].
  exists D1, D2. split; [done|]. split; [done|]. split; [done|].
  unfold skip_list_remove.
  rewrite (run_bind _ _ _ _ _ Hfind).
  rewrite (run_bind _ _ _ _ _ (load_ok _ _ _ _ _ Hp)).
  destruct D2 as [|c D].
  { left. split; [done|]. by rewrite Hnx. }
  destruct Hnx as (x & nd & Hx & Hpx & Hnd & Hd). rewrite Hpx.
  rewrite (run_bind _ _ _ _ _ (load_ok _ _ _ _ _ Hnd)), Hd.
  destruct (decide (c.1 = data)) as [E|E].
  2:{ left. split; [by intros ?? [= <- <-]|done]. }
  right. destruct c as [v c]. simpl in *.
  pose proof Hwf as ((_ & _ & Hlen) & _).
  apply Forall_app in Hlen as [_ [Hlc _]%Forall_cons]. simpl in Hlc.
  pose proof Hwf as ((_ & Hnodup & _) & _).
  apply wf_wfp_full in Hwf as [Hwfp Hc].
  destruct (delete_node_heap m fl fr H D1 v c D (length c) 0 fuel Hwfp)
    as (m1 & Hdel & Hwf1 & Hso1 & Hfr1); [done|lia|].
  rewrite Hx in Hdel. rewrite take_0, drop_0 in *.
  apply wf_wfp_nil in Hwf1.
  destruct (reduce_height_heap (D1 ++ D) fl H m1 (c ++ fr) (_first_node sl)
              fuel Hwf1 Htop)
    as (m' & H1 & H2 & top' & -> & Hred & Hl1 & Hwf' & Hfin & Hso2 & Hfr2);
    [lia|].
  assert (nodes_of (H1 ++ H2) (D1 ++ D) ⊆
          nodes_of (H1 ++ H2) (D1 ++ (v, c) :: D)) as Hsub.
  { intros y. rewrite elem_of_nodes_mid. unfold nodes_of.
    rewrite elem_of_app. tauto. }
  exists (v, c), D, m', H1, H2, top'.
  split; [done|]. split; [done|]. split; [done|].
  split; [|split; [done|split; [done|split; [done|split]]]].
  - rewrite (run_bind _ _ _ _ _ Hdel), (run_bind _ _ _ _ _ Hred). done.
  - eapply same_outside_trans; [exact Hso1|].
    eapply same_outside_mono; [exact Hsub|exact Hso2].
  - apply Forall_app. split; [done|]. simpl.
    rewrite nodes_of_mid in Hnodup.
    apply NoDup_app in Hnodup as (_ & Hdisj & _).
    apply Forall_forall. intros y Hy.
    rewrite Hso2 by (by apply Hdisj).
    rewrite Forall_forall in Hfr1. by apply Hfr1.
Qed.

Lemma skip_list_remove_spec m fl fr sl H cols data fuel :
  represents (World m fl fr) sl H cols →
  (length cols + length H + 2 ≤ fuel)%nat →
  ∃ D1 D2, cols = D1 ++ D2 ∧
    before_target (_gt_func sl) data 0 D1 ∧ stops_at (_gt_func sl) data D2 ∧
    (((∀ c D, D2 = c :: D → c.1 ≠ data) ∧
      skip_list_remove fuel sl data (World m fl fr) =
        Some ((0, sl), World m fl fr)) ∨
     (∃ c D m' H1 H2 top',
        D2 = c :: D ∧ c.1 = data ∧ H = H1 ++ H2 ∧
        skip_list_remove fuel sl data (World m fl fr) =
          Some ((1, SkipList top' (_gt_func sl) (_size sl - 1)),
                World m' fl (H2 ++ c.2 ++ fr)) ∧
        last H1 = Some top' ∧ wf m' H1 (D1 ++ D) ∧
        (length H1 = 1%nat ∨ lev (pred (length H1)) (D1 ++ D) ≠ []))).
Proof.
  intros Hrep Hfuel.
  destruct (skip_list_remove_heap m fl fr sl H cols data fuel Hrep Hfuel)
    as (D1 & D2 & E & Hbt & Hst & [Hno|Hyes]);
    exists D1, D2; (split; [done|]); (split; [done|]); (split; [done|]).
  - by left.
  - right.
    destruct Hyes as (c & D & m' & H1 & H2 & top' & ? & ? & ? & ? & ? & ? & ?
                      & _).
    by exists c, D, m', H1, H2, top'.
Qed.

(** ** Creation and membership *)

Lemma skip_list_create_spec gt m fl fr :
  let g := fresh (dom m) in
  let w' := World (<[g := Node None None None None 0]> m) fl fr in
  skip_list_create gt (World m fl fr) = Some (SkipList g gt 0, w') ∧
  represents w' (SkipList g gt 0) [g] [].
Proof.
  intros g w'. split; [done|]. split; [done|]. simpl.
  split; [|split; [done|split; [|split; [|done]]]].
  - split; [done|]. split; [|done]. unfold nodes_of. simpl. apply NoDup_singleton.
  - intros [|i] hd Hi; [|done]. injection Hi as <-. split; [|done].
    apply (hlink_insert_eq m g (Node None None None None 0)).
  - intros [|i] x Hi; [|done]. injection Hi as <-.
    apply (vlink_insert_eq m g (Node None None None None 0)).
Qed.

Lemma skip_list_contains_spec m fl fr sl H cols data fuel :
  represents (World m fl fr) sl H cols →
  (length cols + length H < fuel)%nat →
  ∃ D1 D2, cols = D1 ++ D2 ∧
    before_target (_gt_func sl) data 0 D1 ∧ stops_at (_gt_func sl) data D2 ∧
    skip_list_contains fuel sl data (World m fl fr) =
      Some (match D2 with
            | c :: _ => if decide (c.1 = data) then 1 else 0
            | [] => 0
            end, World m fl fr).
Proof.
  intros [Htop Hwf] Hfuel. simpl in Hwf.
  destruct (find_previous_top (_gt_func sl) data m fl fr H cols
              (_first_node sl) fuel Hwf Htop)
    as (D1 & D2 & h0 & prev & p & -> & Hh0 & Hfind & -> & Hp & Hbt & Hst & Hnx);
    [lia|].
  exists D1, D2. split; [done|]. split; [done|]. split; [done|].
  unfold skip_list_contains.
  rewrite (run_bind _ _ _ _ _ Hfind).
  rewrite (run_bind _ _ _ _ _ (load_ok _ _ _ _ _ Hp)).
  destruct D2 as [|c D]; [by rewrite Hnx|].
  destruct Hnx as (x & nd & Hx & Hpx & Hnd & Hd). rewrite Hpx.
  rewrite (run_bind _ _ _ _ _ (load_ok _ _ _ _ _ Hnd)), Hd. done.
Qed.

(** ** Teardown *)

Lemma after_free_lookup N F (m0 : gmap loc node) y :
  after_free N F m0 !! y =
  if decide (y ∈ F) then None
  else (λ nd, if decide (y ∈ N) then nulldown F nd else nd) <$> m0 !! y.
Proof.
  unfold after_free. rewrite map_lookup_imap.
  destruct (m0 !! y) as [nd|]; simpl; by destruct (decide (y ∈ F)).
Qed.

Lemma nulldown_nil nd : nulldown [] nd = nd.
Proof.
  unfold nulldown. destruct (_next_layer nd) as [d|]; [|done].
  rewrite decide_False; [done|]. apply not_elem_of_nil.
Qed.

Lemma after_free_nil N (m0 : gmap loc node) : after_free N [] m0 = m0.
Proof.
  apply map_eq. intros y. rewrite after_free_lookup.
  rewrite decide_False by apply not_elem_of_nil.
  destruct (m0 !! y) as [nd|]; simpl; [|done].
  rewrite nulldown_nil. by destruct (decide (y ∈ N)).
Qed.

Lemma nulldown_links F nd :
  _prev_node (nulldown F nd) = _prev_node nd ∧
  _next_node (nulldown F nd) = _next_node nd ∧
  _prev_layer (nulldown F nd) = _prev_layer nd.
Proof.
  unfold nulldown. destruct (_next_layer nd) as [d|]; [|done].
  by destruct (decide (d ∈ F)).
Qed.

(** Freeing the node [x], after the downward link of the node [u] above it
    has been cleared. *)
Lemma after_free_step N F (m0 : gmap loc node) x (u : option loc) :
  x ∉ F →
  (∀ y nd, y ∈ N → m0 !! y = Some nd → _next_layer nd = Some x → u = Some y) →
  (∀ y, u = Some y →
     y ∈ N ∧ y ≠ x ∧ ∃ nd, m0 !! y = Some nd ∧ _next_layer nd = Some x) →
  delete x (match u with
            | Some y => alter (with_next_layer None) y (after_free N F m0)
            | None => after_free N F m0
            end) = after_free N (x :: F) m0.
Proof.
  intros HxF Honly Hu. apply map_eq. intros y.
  rewrite (after_free_lookup N (x :: F)).
  destruct (decide (y = x)) as [->|Hyx].
  { rewrite lookup_delete_eq, decide_True; [done|]. set_solver. }
  rewrite lookup_delete_ne by done.
  assert (∀ nd, y ∈ N → m0 !! y = Some nd → u ≠ Some y →
            nulldown (x :: F) nd = nulldown F nd) as Hsame.
  { intros nd HyN Hnd Hne. unfold nulldown.
    destruct (_next_layer nd) as [d|] eqn:Ed; [|done].
    destruct (decide (d = x)) as [->|Hdx].
    - destruct Hne. by eapply Honly.
    - destruct (decide (d ∈ F)).
      + rewrite decide_True; [done|]. set_solver.
      + rewrite decide_False; [done|]. set_solver. }
  destruct u as [u|].
  - destruct (Hu u eq_refl) as (HuN & Hux & ndu & Hndu & Hdu).
    rewrite lookup_alter.
    destruct (decide (u = y)) as [->|Huy]; rewrite after_free_lookup.
    + destruct (decide (y ∈ F)) as [HyF|HyF].
      * rewrite decide_True by set_solver. done.
      * rewrite decide_False by set_solver. rewrite Hndu. simpl.
        rewrite !decide_True by done. f_equal.
        unfold nulldown. rewrite Hdu.
        rewrite decide_False by done. rewrite decide_True by set_solver. done.
    + destruct (decide (y ∈ F)) as [HyF|HyF].
      * rewrite decide_True by set_solver. done.
      * rewrite decide_False by set_solver.
        destruct (m0 !! y) as [nd|] eqn:Hnd; [|done]. simpl. f_equal.
        destruct (decide (y ∈ N)); [|done].
        symmetry. apply Hsame; [done|done|congruence].
  - rewrite after_free_lookup.
    destruct (decide (y ∈ F)) as [HyF|HyF].
    + rewrite decide_True by set_solver. done.
    + rewrite decide_False by set_solver.
      destruct (m0 !! y) as [nd|] eqn:Hnd; [|done]. simpl. f_equal.
      destruct (decide (y ∈ N)); [|done].
      symmetry. apply Hsame; [done|done|congruence].
Qed.

(** *** Rows *)

Lemma elem_of_row H cols (i : nat) x :
  x ∈ row H cols i ↔
  ∃ hd, H !! i = Some hd ∧ (x = hd ∨ x ∈ lev i cols).
Proof.
  unfold row. destruct (H !! i) as [hd|].
  - rewrite elem_of_cons. naive_solver.
  - split; [by intros ?%elem_of_nil|naive_solver].
Qed.

Lemma row_unique H cols (i j : nat) x :
  NoDup (nodes_of H cols) → x ∈ row H cols i → x ∈ row H cols j → i = j.
Proof.
  intros Hnd (hi & Hi & Hxi)%elem_of_row (hj & Hj & Hxj)%elem_of_row.
  eapply (row_level_unique H cols i j hi hj x); [done|done|done| |];
    apply elem_of_cons; naive_solver.
Qed.

Lemma row_in_nodes H cols (i : nat) x :
  x ∈ row H cols i → x ∈ nodes_of H cols.
Proof.
  intros (hd & Hhd & [->|Hx])%elem_of_row; unfold nodes_of; apply elem_of_app.
  - left. by eapply list_elem_of_lookup_2.
  - right. by eapply lev_in_nodes.
Qed.

Lemma nodes_in_row m H cols x :
  wf m H cols → x ∈ nodes_of H cols →
  ∃ i : nat, (i < length H)%nat ∧ x ∈ row H cols i.
Proof.
  intros ((_ & _ & Hlen) & _) [Hx|Hx]%elem_of_app.
  - apply list_elem_of_lookup_1 in Hx as [i Hi]. exists i.
    split; [by eapply lookup_lt_Some|]. apply elem_of_row. eauto.
  - apply list_elem_of_join in Hx as (l & Hx & (c & -> & Hc)%list_elem_of_fmap).
    apply list_elem_of_lookup_1 in Hx as [i Hi]. exists i.
    eapply Forall_forall in Hlen; [|exact Hc].
    assert (i < length H)%nat as Hlt by (apply lookup_lt_Some in Hi; lia).
    split; [done|]. apply elem_of_row.
    destruct (lookup_lt_is_Some_2 _ _ Hlt) as [hd Hhd].
    exists hd. split; [done|]. right. apply elem_of_lev. eauto.
Qed.

Lemma elem_of_rows_upto H cols (n : nat) x :
  x ∈ rows_upto H cols n ↔ ∃ j : nat, (j < n)%nat ∧ x ∈ row H cols j.
Proof.
  induction n as [|n IH]; simpl.
  - split; [by intros ?%elem_of_nil|]. intros (j & ? & _). lia.
  - rewrite elem_of_app, IH. split.
    + intros [?|(j & ? & ?)]; [exists n|exists j]; split; (done || lia).
    + intros (j & Hj & Hx). destruct (decide (j = n)) as [->|?]; [by left|].
      right. exists j. split; [lia|done].
Qed.

Lemma dseg_lookup m p l (q : nat) x :
  dseg m p l None → l !! q = Some x → ∃ p', hlink m x p' (l !! S q).
Proof.
  revert p q. induction l as [|y l IH]; intros p q; [done|].
  simpl. intros [Hy Hl]. destruct q as [|q]; simpl.
  - intros [= ->]. exists p. by destruct l.
  - intros Hq. by eapply IH.
Qed.

(** The node at position [q] of level [i], and the nodes above and below
    it. *)
Lemma wf_row_node m H cols (i q : nat) x :
  wf m H cols → row H cols i !! q = Some x →
  ∃ nd, m !! x = Some nd ∧
    _next_node nd = row H cols i !! S q ∧
    (∀ u, _prev_layer nd = Some u →
       u ∈ row H cols (S i) ∧ u ≠ x ∧
       ∃ ndu, m !! u = Some ndu ∧ _next_layer ndu = Some x) ∧
    (∀ d, _next_layer nd = Some d → ∃ j : nat, i = S j ∧ d ∈ row H cols j) ∧
    (∀ y ndy, y ∈ nodes_of H cols → m !! y = Some ndy →
       _next_layer ndy = Some x → _prev_layer nd = Some y).
Proof.
  intros Hwf Hq.
  pose proof Hwf as ((HH & Hnd & Hlen) & Hne & Hrows & Hh & Hv).
  assert (x ∈ row H cols i) as Hxrow by (by eapply list_elem_of_lookup_2).
  unfold row in Hq. destruct (H !! i) as [hd|] eqn:Hhd; [|done].
  destruct (dseg_lookup _ _ _ _ _ (Hrows _ _ Hhd) Hq) as (p' & Hlx).
  (* the vertical links of [x], in a header or element column *)
  assert (∃ (c : list loc) v, c !! i = Some x ∧
            vcolg m v (up_full c) c ∧ (length c ≤ length H)%nat ∧
            (∀ j y, c !! j = Some y → y ∈ row H cols j)) as (c & v & Hci & Hc & Hcl & Hcrow).
  { destruct q as [|q].
    - simpl in Hq. injection Hq as <-. exists H, 0.
      split; [done|]. split; [done|]. split; [done|].
      intros j y Hy. apply elem_of_row. eauto.
    - simpl in Hq. apply list_elem_of_lookup_2, elem_of_lev in Hq
        as (c & Hc & Hx).
      exists c.2, c.1. split; [done|].
      split; [by eapply Forall_forall in Hv|].
      split; [by eapply Forall_forall in Hlen|].
      intros j y Hy. apply elem_of_row.
      assert (j < length H)%nat as Hlt.
      { eapply Forall_forall in Hlen; [|exact Hc].
        apply lookup_lt_Some in Hy. simpl in Hlen. lia. }
      destruct (lookup_lt_is_Some_2 _ _ Hlt) as [hj Hhj].
      exists hj. split; [done|]. right. apply elem_of_lev. eauto. }
  pose proof (Hc _ _ Hci) as Hvx. unfold up_full in Hvx.
  pose proof (hlink_vlink _ _ _ _ _ _ _ Hlx Hvx) as Hnd0.
  eexists. split; [exact Hnd0|]. simpl.
  split; [by unfold row; rewrite Hhd|]. split; [|split].
  - intros u Hu. split; [by apply Hcrow|].
    pose proof (Hc _ _ Hu) as (ndu & Hndu & _ & Hd & _).
    split; [|exists ndu; split; [done|congruence]].
    intros ->. pose proof (Hcrow _ _ Hu) as Hr.
    pose proof (row_unique _ _ _ _ _ Hnd Hr Hxrow). lia.
  - intros d Hd. destruct i as [|j]; [done|].
    exists j. split; [done|]. by apply Hcrow.
  - intros y ndy Hy Hndy Hdy.
    (* [y] is in some column, right above [x] *)
    assert (∃ (c' : list loc) v' (j : nat), c' !! j = Some y ∧
              vcolg m v' (up_full c') c') as (c' & v' & j & Hj & Hc').
    { apply elem_of_app in Hy as [Hy|Hy].
      - apply list_elem_of_lookup_1 in Hy as [j Hj]. exists H, 0, j. done.
      - apply list_elem_of_join in Hy
          as (l & Hy & (c0 & -> & Hc0)%list_elem_of_fmap).
        apply list_elem_of_lookup_1 in Hy as [j Hj].
        exists c0.2, c0.1, j. split; [done|].
        by eapply Forall_forall in Hv. }
    pose proof (Hc' _ _ Hj) as (ndy' & Hndy' & _ & Hd' & _).
    assert (ndy' = ndy) as -> by congruence.
    destruct j as [|j]; [congruence|].
    rewrite Hdy in Hd'. symmetry in Hd'.
    pose proof (Hc' _ _ Hd') as Hvx'. unfold up_full in Hvx'. rewrite Hj in Hvx'.
    destruct (vlink_fun _ _ _ _ _ _ _ _ Hvx Hvx') as (E & _). done.
Qed.

(** *** The recursion of [_delete_skip_list] *)

Section Teardown.
Variables (m0 : gmap loc node) (H : list loc) (cols : list column).
Hypothesis Hwf : wf m0 H cols.
Let N := nodes_of H cols.

(** The end of a call on node [x]: the downward link of the node above [x]
    is cleared and [x] is freed. *)
Lemma free_node_run fl log F (i q : nat) x :
  row H cols i !! q = Some x →
  (∀ y, y ∈ F → ∃ j : nat, (j ≤ i)%nat ∧ y ∈ row H cols j) →
  x ∉ F →
  (let* c := load x in
   match _prev_layer c with
   | Some up => set_next_layer up None
   | None => ret tt
   end;;; free x) (World (after_free N F m0) fl log) =
  Some (tt, World (after_free N (x :: F) m0) fl (x :: log)).
Proof.
  intros Hq HF HxF.
  pose proof Hwf as ((_ & Hnd & _) & _).
  destruct (wf_row_node _ _ _ _ _ _ Hwf Hq) as (nd & Hx & _ & Hup & _ & Honly).
  assert (x ∈ row H cols i) as Hxrow by (by eapply list_elem_of_lookup_2).
  assert (x ∈ N) as HxN by (by eapply row_in_nodes).
  assert (after_free N F m0 !! x = Some (nulldown F nd)) as Hcur.
  { rewrite after_free_lookup, decide_False, Hx by done. simpl.
    by rewrite decide_True. }
  rewrite (run_bind _ _ _ _ _ (load_ok _ _ _ _ _ Hcur)).
  destruct (nulldown_links F nd) as (_ & _ & ->).
  rewrite <- (after_free_step N F m0 x (_prev_layer nd)); [|done|done|].
  2:{ intros y Hy. destruct (Hup y Hy) as (Hr & ? & ?).
      split; [by eapply row_in_nodes|done]. }
  destruct (_prev_layer nd) as [u|] eqn:Eu.
  - destruct (Hup u eq_refl) as (Hur & Hux & ndu & Hndu & _).
    assert (u ∉ F) as HuF.
    { intros (j & Hj & Hr)%HF. pose proof (row_unique _ _ _ _ _ Hnd Hur Hr). lia. }
    erewrite (run_bind (set_next_layer u None)); cycle 1.
    { apply set_next_layer_run. rewrite after_free_lookup, decide_False, Hndu by done.
      simpl. eauto. }
    erewrite free_ok; [done|]. rewrite lookup_alter_ne by done. exact Hcur.
  - rewrite bind_ret. by erewrite free_ok.
Qed.

(** A call on the node at position [q ≥ 1] of level [i], when the levels
    below are gone: the rest of the level is freed. *)
Lemma delete_row_spec fl fr0 (i : nat) (d : nat) : ∀ (q : nat) fuel,
  (S q + d)%nat = length (row H cols i) → (S d < fuel)%nat →
  let B := rows_upto H cols i in
  _delete_skip_list fuel (row H cols i !! S q)
      (World (after_free N B m0) fl (B ++ fr0)) =
  Some (tt, World (after_free N (drop (S q) (row H cols i) ++ B) m0) fl
                  ((drop (S q) (row H cols i) ++ B) ++ fr0)).
Proof.
  pose proof Hwf as ((_ & Hnd & _) & _).
  induction d as [|d IH]; intros q fuel Hq Hfuel B;
    (destruct fuel as [|fuel]; [lia|]).
  - rewrite lookup_ge_None_2, drop_ge by lia. done.
  - assert (is_Some (row H cols i !! S q)) as [x Hx]
      by (apply lookup_lt_is_Some; lia).
    rewrite Hx. cbn [_delete_skip_list].
    destruct (wf_row_node _ _ _ _ _ _ Hwf Hx) as (nd & Hndx & Hn & _ & Hdn & _).
    assert (x ∈ row H cols i) as Hxrow by (by eapply list_elem_of_lookup_2).
    assert (x ∈ N) as HxN by (by eapply row_in_nodes).
    assert (x ∉ B) as HxB.
    { intros (j & Hj & Hr)%elem_of_rows_upto.
      pose proof (row_unique _ _ _ _ _ Hnd Hxrow Hr). lia. }
    assert (after_free N B m0 !! x = Some (nulldown B nd)) as Hcur.
    { rewrite after_free_lookup, decide_False, Hndx by done. simpl.
      by rewrite decide_True. }
    assert (_next_layer (nulldown B nd) = None) as Hnull.
    { unfold nulldown. destruct (_next_layer nd) as [dn|] eqn:Edn; [|done].
      destruct (Hdn dn eq_refl) as (j & -> & Hr).
      rewrite decide_True; [done|]. apply elem_of_rows_upto. exists j.
      split; [lia|done]. }
    rewrite (run_bind _ _ _ _ _ (load_ok _ _ _ _ _ Hcur)), Hnull.
    destruct fuel as [|fuel]; [lia|].
    replace (_delete_skip_list (S fuel) None) with (@ret unit tt) by done.
    rewrite bind_ret.
    rewrite (run_bind _ _ _ _ _ (load_ok _ _ _ _ _ Hcur)).
    destruct (nulldown_links B nd) as (_ & -> & _). rewrite Hn.
    rewrite (run_bind _ _ _ _ _ (IH (S q) (S fuel) ltac:(lia) ltac:(lia))).
    rewrite (drop_S _ _ _ Hx).
    apply (free_node_run fl _ _ i (S q) x Hx).
    + intros y [Hy|Hy]%elem_of_app.
      * exists i. split; [done|]. by eapply subseteq_drop.
      * apply elem_of_rows_upto in Hy as (j & ? & ?). exists j.
        split; [lia|done].
    + intros [Hy|Hy]%elem_of_app; [|done].
      assert (NoDup (row H cols i)) as Hndr.
      { unfold row. destruct (H !! i) as [hd|] eqn:Hhd; [|constructor].
        by eapply NoDup_row. }
      apply list_elem_of_lookup_1 in Hy as [k Hk].
      rewrite lookup_drop in Hk.
      pose proof (NoDup_lookup _ _ _ _ Hndr Hx Hk). lia.
Qed.

Lemma length_lev i cols' : (length (lev i cols') ≤ length cols')%nat.
Proof.
  induction cols' as [|c cs IH]; [done|].
  destruct (c.2 !! i) as [x|] eqn:E.
  - rewrite (lev_cons_Some _ _ _ _ E). simpl. lia.
  - rewrite (lev_cons_None _ _ _ E). simpl. lia.
Qed.

(** The rest of a call on the header of level [i], after the levels below
    are gone. *)
Lemma delete_header_rest fl fr0 (i : nat) hd fuel :
  H !! i = Some hd → (length cols + 3 ≤ fuel)%nat →
  let B := rows_upto H cols i in
  (let* c := load hd in
   _delete_skip_list fuel (_next_node c);;;
   let* c := load hd in
   match _prev_layer c with
   | Some up => set_next_layer up None
   | None => ret tt
   end;;; free hd) (World (after_free N B m0) fl (B ++ fr0)) =
  Some (tt, World (after_free N (rows_upto H cols (S i)) m0) fl
                  (rows_upto H cols (S i) ++ fr0)).
Proof.
  intros Hhd Hfuel B.
  pose proof Hwf as ((_ & Hnd & _) & _).
  assert (row H cols i = hd :: lev i cols) as Erow by (unfold row; by rewrite Hhd).
  assert (row H cols i !! 0%nat = Some hd) as Hq by (by rewrite Erow).
  destruct (wf_row_node _ _ _ _ _ _ Hwf Hq) as (nd & Hndx & Hn & _ & _ & _).
  assert (hd ∈ row H cols i) as Hxrow by (by eapply list_elem_of_lookup_2).
  assert (hd ∉ B) as HxB.
  { intros (j & Hj & Hr)%elem_of_rows_upto.
    pose proof (row_unique _ _ _ _ _ Hnd Hxrow Hr). lia. }
  assert (after_free N B m0 !! hd = Some (nulldown B nd)) as Hcur.
  { rewrite after_free_lookup, decide_False, Hndx by done. simpl.
    rewrite decide_True; [done|]. by eapply row_in_nodes. }
  rewrite (run_bind _ _ _ _ _ (load_ok _ _ _ _ _ Hcur)).
  destruct (nulldown_links B nd) as (_ & -> & _). rewrite Hn.
  pose proof (length_lev i cols) as Hll.
  rewrite (run_bind _ _ _ _ _
    (delete_row_spec fl fr0 i (length (lev i cols)) 0 fuel
       ltac:(rewrite Erow; simpl; lia) ltac:(lia))).
  cbn [rows_upto]. fold B.
  replace (row H cols i ++ B) with (hd :: drop 1 (row H cols i) ++ B)
    by (by rewrite Erow).
  apply (free_node_run fl _ _ i 0 hd Hq).
  - intros y [Hy|Hy]%elem_of_app.
    + exists i. split; [done|]. by eapply subseteq_drop.
    + apply elem_of_rows_upto in Hy as (j & ? & ?). exists j.
      split; [lia|done].
  - intros [Hy|Hy]%elem_of_app; [|done].
    assert (NoDup (row H cols i)) as Hndr.
    { rewrite Erow. by eapply NoDup_row. }
    apply list_elem_of_lookup_1 in Hy as [k Hk].
    rewrite lookup_drop in Hk.
    pose proof (NoDup_lookup _ _ _ _ Hndr Hq Hk). lia.
Qed.

(** A call on the header of level [i], when nothing is freed yet: the
    levels up to [i] are freed. *)
Lemma delete_levels_spec fl fr0 : ∀ (i : nat) hd fuel,
  H !! i = Some hd → (i + length cols + 3 < fuel)%nat →
  _delete_skip_list fuel (Some hd) (World m0 fl fr0) =
  Some (tt, World (after_free N (rows_upto H cols (S i)) m0) fl
                  (rows_upto H cols (S i) ++ fr0)).
Proof.
  pose proof Hwf as (_ & _ & _ & Hh & _).
  induction i as [|i IH]; intros hd fuel Hhd Hfuel;
    (destruct fuel as [|fuel]; [lia|]); cbn [_delete_skip_list];
    destruct (Hh _ _ Hhd) as (nd & Hndx & _ & Hdn & _);
    rewrite (run_bind _ _ _ _ _ (load_ok _ _ _ _ _ Hndx)), Hdn.
  - destruct fuel as [|fuel]; [lia|].
    replace (_delete_skip_list (S fuel) None) with (@ret unit tt) by done.
    rewrite bind_ret.
    rewrite <- (after_free_nil N m0) at 1.
    apply (delete_header_rest fl fr0 0 hd (S fuel) Hhd). lia.
  - assert (is_Some (H !! i)) as [hd' Hhd'].
    { apply lookup_lt_is_Some. apply lookup_lt_Some in Hhd. lia. }
    rewrite Hhd'.
    rewrite (run_bind _ _ _ _ _ (IH hd' fuel Hhd' ltac:(lia))).
    apply (delete_header_rest fl fr0 (S i) hd fuel Hhd). lia.
Qed.

(** The log of a complete teardown holds every node of the structure
    once. *)
Lemma rows_upto_nodes : rows_upto H cols (length H) ≡ₚ nodes_of H cols.
Proof.
  pose proof Hwf as ((_ & Hnd & _) & _).
  apply NoDup_Permutation; [|done|].
  - generalize (length H). intros n. induction n as [|n IH]; [constructor|].
    simpl. apply NoDup_app. split; [|split; [|done]].
    + unfold row. destruct (H !! n) as [hd|] eqn:Hhd; [|constructor].
      by eapply NoDup_row.
    + intros x Hx (j & Hj & Hr)%elem_of_rows_upto.
      pose proof (row_unique _ _ _ _ _ Hnd Hx Hr). lia.
  - intros x. rewrite elem_of_rows_upto. split.
    + intros (j & _ & Hr). by eapply row_in_nodes.
    + intros Hx. by eapply nodes_in_row.
Qed.

End Teardown.

(** ** What a traversal of a well-formed graph finds *)

Lemma forward_dseg m p x l : ∀ fuel,
  dseg m p (x :: l) None → (length l < fuel)%nat →
  forward fuel m x = Some l.
Proof.
  revert p x. induction l as [|y l IH]; intros p x fuel [Hx Hl] Hfuel;
    (destruct fuel as [|fuel]; [simpl in Hfuel; lia|]);
    destruct Hx as (nd & Hnd & _ & Hn); simpl; rewrite Hnd, Hn; simpl.
  - done.
  - rewrite (IH (Some x) y fuel Hl); [done|]. simpl in Hfuel. lia.
Qed.

Lemma forward_row m H cols (i : nat) hd fuel :
  wf m H cols → H !! i = Some hd → (length cols < fuel)%nat →
  forward fuel m hd = Some (lev i cols).
Proof.
  intros (_ & _ & Hrows & _) Hhd Hfuel.
  eapply forward_dseg; [by apply Hrows|].
  pose proof (length_lev i cols). lia.
Qed.

Lemma descend_headers m H cols : ∀ (i : nat) hd fuel,
  wf m H cols → H !! i = Some hd → (i < fuel)%nat →
  descend fuel m hd = Some (reverse (take (S i) H)).
Proof.
  induction i as [|i IH]; intros hd fuel Hwf Hhd Hfuel;
    (destruct fuel as [|fuel]; [lia|]);
    pose proof Hwf as (_ & _ & _ & Hh & _);
    destruct (Hh _ _ Hhd) as (nd & Hnd & _ & Hd & _);
    simpl; rewrite Hnd, Hd.
  - destruct H; simplify_eq/=. by rewrite take_0.
  - assert (is_Some (H !! i)) as [hd' Hhd'].
    { apply lookup_lt_is_Some. apply lookup_lt_Some in Hhd. lia. }
    rewrite Hhd'. rewrite (IH hd' fuel Hwf Hhd'); [|lia]. simpl.
    rewrite (take_S_r _ _ _ Hhd), reverse_app. done.
Qed.

Lemma descend_top m H cols top fuel :
  wf m H cols → last H = Some top → (length H ≤ fuel)%nat →
  descend fuel m top = Some (reverse H).
Proof.
  intros Hwf Htop Hfuel. rewrite last_lookup in Htop.
  assert (0 < length H)%nat by (apply lookup_lt_Some in Htop; lia).
  rewrite (descend_headers m H cols _ top fuel Hwf Htop); [|lia].
  by rewrite take_ge by lia.
Qed.

Lemma levd_cons_lt (i : nat) (c : column) cs :
  (i < length c.2)%nat → levd i (c :: cs) = c.1 :: levd i cs.
Proof. intros ?. unfold levd. simpl. by rewrite decide_True. Qed.

Lemma levd_cons_ge (i : nat) (c : column) cs :
  (length c.2 ≤ i)%nat → levd i (c :: cs) = levd i cs.
Proof. intros ?. unfold levd. simpl. by rewrite decide_False by lia. Qed.

Lemma payloads_cons m x l :
  payloads m (x :: l) =
  match payload m x, payloads m l with
  | Some y, Some k => Some (y :: k)
  | _, _ => None
  end.
Proof.
  unfold payloads. simpl. destruct (payload m x); simpl; [|done].
  by destruct (mapM (payload m) l).
Qed.

Lemma payloads_lev m H cols (i : nat) :
  wf m H cols → payloads m (lev i cols) = Some (levd i cols).
Proof.
  intros (_ & _ & _ & _ & Hv).
  induction Hv as [|c cs Hc _ IH]; [done|].
  destruct (c.2 !! i) as [x|] eqn:E.
  - rewrite (lev_cons_Some _ _ _ _ E).
    rewrite levd_cons_lt by (by eapply lookup_lt_Some).
    destruct (Hc _ _ E) as (nd & Hnd & _ & _ & Hd).
    rewrite payloads_cons, IH. unfold payload. rewrite Hnd. simpl.
    by rewrite Hd.
  - rewrite (lev_cons_None _ _ _ E).
    rewrite levd_cons_ge by (by apply lookup_ge_None_1 in E).
    apply IH.
Qed.

Lemma levd_zero cols :
  Forall (λ c : column, c.2 ≠ []) cols → levd 0 cols = cols.*1.
Proof.
  induction 1 as [|c cs Hc _ IH]; [done|].
  rewrite levd_cons_lt, IH; [done|]. destruct c.2; [done|simpl; lia].
Qed.

(** The payloads of level 0 are the payloads of the columns. *)
Lemma level0_payloads_represents w sl H cols fuel :
  represents w sl H cols → (length cols + length H < fuel)%nat →
  level0_payloads fuel w sl = Some cols.*1.
Proof.
  intros [Htop Hwf] Hfuel. unfold level0_payloads.
  rewrite (descend_top _ _ _ _ _ Hwf Htop) by lia. simpl.
  destruct (wf_header0 _ _ _ Hwf) as [h0 Hh0].
  rewrite last_reverse. destruct H as [|h H]; [done|]. simpl in *.
  injection Hh0 as ->.
  rewrite (forward_row _ (h0 :: H) cols 0 h0 fuel Hwf) by (done || lia).
  simpl. rewrite (payloads_lev _ _ _ _ Hwf).
  pose proof Hwf as (_ & Hne & _). by rewrite (levd_zero _ Hne).
Qed.

Lemma lev_below_sublist i cols : lev_below i cols `sublist_of` lev i cols.
Proof.
  induction cols as [|c cs IH]; [done|].
  unfold lev_below, lev in *. simpl.
  destruct (c.2 !! S i) as [y|] eqn:Ey; simpl.
  - destruct (c.2 !! i) as [x|] eqn:Ex; simpl; [by constructor|done].
  - destruct (c.2 !! i) as [x|] eqn:Ex; simpl; [by constructor|done].
Qed.

Lemma levd_sublist i cols : levd (S i) cols `sublist_of` levd i cols.
Proof.
  induction cols as [|c cs IH]; [done|].
  destruct (decide (S i < length c.2)%nat).
  - rewrite !levd_cons_lt by lia. by constructor.
  - rewrite (levd_cons_ge (S i)) by lia.
    destruct (decide (i < length c.2)%nat).
    + rewrite levd_cons_lt by lia. by constructor.
    + by rewrite levd_cons_ge by lia.
Qed.

Lemma lev_down m H cols (i : nat) :
  wf m H cols →
  Forall2 (λ u d, below m u = Some d ∧ payload m u = payload m d)
          (lev (S i) cols) (lev_below i cols).
Proof.
  intros (_ & _ & _ & _ & Hv).
  induction Hv as [|c cs Hc _ IH]; [constructor|].
  unfold lev_below, lev in *. simpl.
  destruct (c.2 !! S i) as [y|] eqn:Ey; simpl; [|done].
  assert (is_Some (c.2 !! i)) as [x Ex].
  { apply lookup_lt_is_Some. apply lookup_lt_Some in Ey. lia. }
  rewrite Ex. constructor; [|done].
  destruct (Hc _ _ Ey) as (ndy & Hndy & _ & Hd & Hdy).
  destruct (Hc _ _ Ex) as (ndx & Hndx & _ & _ & Hdx).
  unfold below, payload. rewrite Hndy, Hndx. simpl. split; congruence.
Qed.

(** ** Traversals with more fuel *)

Lemma forward_mono m : ∀ (n n' : nat) x l,
  (n ≤ n')%nat → forward n m x = Some l → forward n' m x = Some l.
Proof.
  induction n as [|n IH]; intros [|n'] x l Hle Hf; [done|done|lia|].
  simpl in *. destruct (m !! x) as [nd|]; [|done].
  destruct (_next_node nd) as [y|]; [|done].
  destruct (forward n m y) as [l'|] eqn:E; [|done].
  by rewrite (IH n' y l' ltac:(lia) E).
Qed.

Lemma descend_mono m : ∀ (n n' : nat) x l,
  (n ≤ n')%nat → descend n m x = Some l → descend n' m x = Some l.
Proof.
  induction n as [|n IH]; intros [|n'] x l Hle Hf; [done|done|lia|].
  simpl in *. destruct (m !! x) as [nd|]; [|done].
  destruct (_next_layer nd) as [y|]; [|done].
  destruct (descend n m y) as [l'|] eqn:E; [|done].
  by rewrite (IH n' y l' ltac:(lia) E).
Qed.

Lemma level0_payloads_mono (n n' : nat) w sl l :
  (n ≤ n')%nat →
  level0_payloads n w sl = Some l → level0_payloads n' w sl = Some l.
Proof.
  intros Hle. unfold level0_payloads.
  destruct (descend n (mem w) (_first_node sl)) as [hs|] eqn:Ed; [|done].
  rewrite (descend_mono _ _ _ _ _ Hle Ed). simpl.
  destruct (last hs) as [h0|]; [|done]. simpl.
  destruct (forward n (mem w) h0) as [xs|] eqn:Ef; [|done].
  by rewrite (forward_mono _ _ _ _ _ Hle Ef).
Qed.

(** Whatever the fuel, the traversal of level 0 finds the payloads of the
    columns. *)
Lemma level0_payloads_unique w sl H cols (n : nat) l :
  represents w sl H cols → level0_payloads n w sl = Some l → l = cols.*1.
Proof.
  intros Hrep Hl.
  pose proof (level0_payloads_mono n (n + S (length cols + length H)) w sl l
                ltac:(lia) Hl) as Hl'.
  rewrite (level0_payloads_represents w sl H cols _ Hrep) in Hl' by lia.
  by injection Hl' as <-.
Qed.

(** ** More fuel does not change a result *)

Lemma mle_refl {A} (c : M A) : mle c c.
Proof. by intros w r. Qed.

Lemma mle_bind {A B} (c c' : M A) (k k' : A → M B) :
  mle c c' → (∀ a, mle (k a) (k' a)) → mle (bind c k) (bind c' k').
Proof.
  intros Hc Hk w r (a & w1 & Hcw & Hkw)%bind_inv.
  rewrite (run_bind _ _ _ _ _ (Hc _ _ Hcw)). by apply Hk.
Qed.

Ltac mono_with tac :=
  repeat first
    [ apply mle_refl
    | tac
    | lazymatch goal with
      | |- mle (bind _ _) (bind _ _) => apply mle_bind; [|intros ?]
      end
    | lazymatch goal with
      | |- mle (match ?x with _ => _ end) _ => destruct x
      end ].

Ltac mono_tac IH := mono_with ltac:(apply IH; lia).

Lemma scan_forward_mono gt data : ∀ n n' x,
  (n ≤ n')%nat → mle (scan_forward n gt x data) (scan_forward n' gt x data).
Proof.
  induction n as [|n IH]; intros n' x Hn; [by intros w r|].
  destruct n' as [|n']; [lia|]. cbn [scan_forward]. mono_tac IH.
Qed.

Lemma find_previous_mono gt data : ∀ n n' x,
  (n ≤ n')%nat → mle (_find_previous n gt x data) (_find_previous n' gt x data).
Proof.
  induction n as [|n IH]; intros n' x Hn; [by intros w r|].
  destruct n' as [|n']; [lia|]. cbn [_find_previous].
  mono_with ltac:(first [apply IH; lia | apply scan_forward_mono; lia]).
Qed.

Lemma delete_node_mono : ∀ n n' x,
  (n ≤ n')%nat → mle (_delete_node n x) (_delete_node n' x).
Proof.
  induction n as [|n IH]; intros n' x Hn; [by intros w r|].
  destruct n' as [|n']; [lia|]. cbn [_delete_node]. mono_tac IH.
Qed.

Lemma climb_mono : ∀ n n' x, (n ≤ n')%nat → mle (climb n x) (climb n' x).
Proof.
  induction n as [|n IH]; intros n' x Hn; [by intros w r|].
  destruct n' as [|n']; [lia|]. cbn [climb]. mono_tac IH.
Qed.

Lemma reduce_height_mono : ∀ n n' x,
  (n ≤ n')%nat → mle (_reduce_height n x) (_reduce_height n' x).
Proof.
  induction n as [|n IH]; intros n' x Hn; [by intros w r|].
  destruct n' as [|n']; [lia|]. cbn [_reduce_height]. mono_tac IH.
Qed.

Section Mono.
Variable coins : nat → bool.

Lemma insert_node_mono : ∀ n n' x nl v,
  (n ≤ n')%nat →
  mle (_insert_node coins n x nl v) (_insert_node coins n' x nl v).
Proof.
  induction n as [|n IH]; intros n' x nl v Hn; [by intros w r|].
  destruct n' as [|n']; [lia|]. cbn [_insert_node].
  mono_with ltac:(first [apply IH; lia | apply climb_mono; lia]).
Qed.

Lemma skip_list_insert_mono n n' sl data :
  (n ≤ n')%nat →
  mle (skip_list_insert coins n sl data) (skip_list_insert coins n' sl data).
Proof.
  intros Hn. unfold skip_list_insert.
  mono_with ltac:(first [apply find_previous_mono; lia
                        | apply insert_node_mono; lia]).
Qed.

End Mono.

Lemma skip_list_remove_mono n n' sl data :
  (n ≤ n')%nat →
  mle (skip_list_remove n sl data) (skip_list_remove n' sl data).
Proof.
  intros Hn. unfold skip_list_remove.
  mono_with ltac:(first [apply find_previous_mono; lia
                        | apply delete_node_mono; lia
                        | apply reduce_height_mono; lia]).
Qed.

(** ** The coin draws of a promotion *)

Lemma keeps_bind {A B} (c : M A) (k : A → M B) :
  keeps_flips c → (∀ a, keeps_flips (k a)) → keeps_flips (bind c k).
Proof.
  intros Hc Hk w r w' (a & w1 & Hcw & Hkw)%bind_inv.
  rewrite (Hk _ _ _ _ Hkw). by eapply Hc.
Qed.

Lemma keeps_ret {A} (a : A) : keeps_flips (ret a).
Proof. by intros w r w' [= <- <-]. Qed.

Lemma keeps_fail {A} : keeps_flips (@fail A).
Proof. by intros w r w'. Qed.

Lemma keeps_load l : keeps_flips (load l).
Proof.
  intros w r w'. unfold load. destruct (mem w !! l); [|done]. by intros [= <- <-].
Qed.

Lemma keeps_store l nd : keeps_flips (store l nd).
Proof.
  intros w r w'. unfold store. destruct (mem w !! l); [|done].
  by intros [= <- <-].
Qed.

Lemma keeps_malloc nd : keeps_flips (malloc nd).
Proof. intros w r w'. unfold malloc. by intros [= <- <-]. Qed.

Ltac keeps_with tac :=
  repeat first
    [ apply keeps_ret | apply keeps_fail | apply keeps_load
    | apply keeps_store | apply keeps_malloc
    | tac
    | lazymatch goal with
      | |- keeps_flips (bind _ _) => apply keeps_bind; [|intros ?]
      end
    | lazymatch goal with
      | |- keeps_flips (match ?x with _ => _ end) => destruct x
      end ].

Lemma keeps_set_prev_node l v : keeps_flips (set_prev_node l v).
Proof. unfold set_prev_node. keeps_with ltac:(fail). Qed.

Lemma keeps_set_next_node l v : keeps_flips (set_next_node l v).
Proof. unfold set_next_node. keeps_with ltac:(fail). Qed.

Lemma keeps_set_prev_layer l v : keeps_flips (set_prev_layer l v).
Proof. unfold set_prev_layer. keeps_with ltac:(fail). Qed.

Lemma keeps_set_next_layer l v : keeps_flips (set_next_layer l v).
Proof. unfold set_next_layer. keeps_with ltac:(fail). Qed.

Lemma keeps_climb : ∀ n x, keeps_flips (climb n x).
Proof.
  induction n as [|n IH]; intros x; [apply keeps_fail|]. cbn [climb].
  keeps_with ltac:(first [apply IH | apply keeps_set_prev_node
    | apply keeps_set_next_node | apply keeps_set_prev_layer
    | apply keeps_set_next_layer]).
Qed.

(** A call of [_insert_node] that returns has drawn tails. *)
Lemma insert_node_tails coins : ∀ fuel prev nl v w r w',
  _insert_node coins fuel prev nl v w = Some (r, w') →
  ∃ k : nat, (k < fuel)%nat ∧ heads_then_tails coins w k.
Proof.
  induction fuel as [|fuel IH]; intros prev nl v w r w' Hrun; [done|].
  cbn [_insert_node] in Hrun.
  apply bind_inv in Hrun as (p & w1 & H1%keeps_load & Hrun).
  apply bind_inv in Hrun as (new & w2 & H2%keeps_malloc & Hrun).
  apply bind_inv in Hrun as (? & w3 & H3%keeps_set_next_node & Hrun).
  apply bind_inv in Hrun as (n & w4 & H4%keeps_load & Hrun).
  apply bind_inv in Hrun as (? & w5 & H5 & Hrun).
  assert (flips w5 = flips w4) as H5'.
  { destruct (_next_node n); [by apply keeps_set_prev_node in H5|].
    by apply keeps_ret in H5. }
  apply bind_inv in Hrun as (heads & w6 & H6 & Hrun).
  unfold _coin_flip in H6. injection H6 as <- <-.
  assert (flips w5 = flips w) as E5 by congruence.
  destruct (coins (flips w5)) eqn:Ec.
  - apply bind_inv in Hrun as (? & w7 & Hrun & _).
    apply bind_inv in Hrun as (t & w8 & H8%keeps_climb & Hrun).
    apply bind_inv in Hrun as (nt & w9 & H9%keeps_load & Hrun).
    apply bind_inv in Hrun as (u & w10 & H10 & Hrun).
    assert (flips w10 = flips w9) as H10'.
    { destruct (_prev_layer nt); [by apply keeps_ret in H10|done]. }
    apply bind_inv in Hrun as (up & w11 & Hrec & _).
    destruct (IH _ _ _ _ _ _ Hrec) as (k & Hk & Hh & Ht).
    simpl in H8. rewrite H10', H9, H8 in Hh, Ht. rewrite E5 in *.
    exists (S k). split; [lia|]. split.
    + intros [|j] Hj; [by rewrite Nat.add_0_r|].
      replace (flips w + S j)%nat with (S (flips w) + j)%nat by lia.
      apply Hh. lia.
    + by replace (flips w + S k)%nat with (S (flips w) + k)%nat by lia.
  - exists 0%nat. split; [lia|]. split; [intros; lia|].
    by rewrite Nat.add_0_r, <- E5.
Qed.

(** ** Calls with any fuel *)

Lemma pure_bind {A B} (c : M A) (k : A → M B) :
  keeps_world c → (∀ a, keeps_world (k a)) → keeps_world (bind c k).
Proof.
  intros Hc Hk w r w' (a & w1 & Hcw & Hkw)%bind_inv.
  rewrite (Hk _ _ _ _ Hkw). by eapply Hc.
Qed.

Lemma pure_ret {A} (a : A) : keeps_world (ret a).
Proof. by intros w r w' [= <- <-]. Qed.

Lemma pure_load l : keeps_world (load l).
Proof.
  intros w r w'. unfold load. destruct (mem w !! l); [|done]. by intros [= <- <-].
Qed.

Ltac pure_with tac :=
  repeat first
    [ apply pure_ret | apply pure_load
    | tac
    | lazymatch goal with
      | |- keeps_world (bind _ _) => apply pure_bind; [|intros ?]
      end
    | lazymatch goal with
      | |- keeps_world (match ?x with _ => _ end) => destruct x
      end ].

Lemma pure_scan_forward gt data : ∀ n x, keeps_world (scan_forward n gt x data).
Proof.
  induction n as [|n IH]; intros x; [by intros w r w'|]. cbn [scan_forward].
  pure_with ltac:(apply IH).
Qed.

Lemma pure_find_previous gt data : ∀ n x,
  keeps_world (_find_previous n gt x data).
Proof.
  induction n as [|n IH]; intros x; [by intros w r w'|]. cbn [_find_previous].
  pure_with ltac:(first [apply IH | apply pure_scan_forward]).
Qed.

Section Steps.
Variable coins : nat → bool.

(** A call of [skip_list_insert] that returns, whatever its fuel. *)
Lemma skip_list_insert_inv w sl H cols data fuel r sl' w' :
  represents w sl H cols →
  skip_list_insert coins fuel sl data w = Some ((r, sl'), w') →
  (r = 0 ∧ sl' = sl ∧ w' = w) ∨
  (r = 1 ∧ ∃ (k : nat) D1 D2 H0 Hnew newc,
     heads_then_tails coins w k ∧
     cols = D1 ++ D2 ∧
     before_target (_gt_func sl) data 0 D1 ∧ stops_at (_gt_func sl) data D2 ∧
     (∀ c D, D2 = c :: D → c.1 ≠ data) ∧
     H = H0 ++ [_first_node sl] ∧
     sl' = SkipList (_first_node sl) (_gt_func sl) (_size sl + 1) ∧
     represents w' sl' (H0 ++ Hnew ++ [_first_node sl])
       (D1 ++ (data, newc) :: D2) ∧
     length newc = S k ∧ length Hnew = (S k - S (length H0))%nat ∧
     flips w' = (flips w + k + 1)%nat ∧ freed w' = freed w).
Proof.
  intros Hrep Hrun.
  assert (r = 0 ∧ sl' = sl ∧ w' = w ∨ ∃ k : nat, heads_then_tails coins w k)
    as [?|[k Hk]]; [|by left|].
  { unfold skip_list_insert in Hrun.
    apply bind_inv in Hrun as (prev & w1 & ->%pure_find_previous & Hrun).
    apply bind_inv in Hrun as (p & w2 & ->%pure_load & Hrun).
    apply bind_inv in Hrun as (present & w3 & Hpres & Hrun).
    assert (w3 = w) as ->.
    { assert (keeps_world
               (match _next_node p with
                | Some nx =>
                    let* n := load nx in ret (bool_decide (_data n = data))
                | None => ret false
                end)) as Hpure by pure_with ltac:(fail).
      by eapply Hpure. }
    destruct present.
    - left. by injection Hrun as <- <- <-.
    - right. apply bind_inv in Hrun as (new & w4 & Hins & _).
      destruct (insert_node_tails _ _ _ _ _ _ _ _ Hins) as (k & _ & ?). eauto. }
  destruct w as [m fl fr]. destruct Hk as [Hheads Htails]. simpl in *.
  set (F := (fuel + length cols + length H + k + 2)%nat).
  pose proof (skip_list_insert_mono coins fuel F sl data ltac:(lia) _ _ Hrun)
    as HrunF.
  destruct (skip_list_insert_spec coins m fl fr sl H cols data k F
              Hrep Hheads Htails ltac:(lia))
    as (D1 & D2 & -> & Hbt & Hst & [(c & D & -> & Hc & Hr)|[Hnd Hr]]).
  - left. rewrite Hr in HrunF. by injection HrunF as <- <- <-.
  - right. destruct Hr as (m' & H0 & Hnew & newc & -> & Hr & Hl & HlH & Hwf').
    rewrite Hr in HrunF. injection HrunF as <- <- <-.
    split; [done|]. exists k, D1, D2, H0, Hnew, newc.
    repeat (split; [done|]). split; [|done].
    split; [|done]. simpl. by rewrite !last_app.
Qed.

End Steps.

(** A call of [skip_list_remove] that returns, whatever its fuel. *)
Lemma skip_list_remove_inv w sl H cols data fuel r sl' w' :
  represents w sl H cols →
  skip_list_remove fuel sl data w = Some ((r, sl'), w') →
  ∃ D1 D2, cols = D1 ++ D2 ∧
    before_target (_gt_func sl) data 0 D1 ∧ stops_at (_gt_func sl) data D2 ∧
    ((r = 0 ∧ sl' = sl ∧ w' = w ∧ (∀ c D, D2 = c :: D → c.1 ≠ data)) ∨
     (r = 1 ∧ ∃ c D H1 H2,
        D2 = c :: D ∧ c.1 = data ∧ H = H1 ++ H2 ∧
        (∃ top', sl' = SkipList top' (_gt_func sl) (_size sl - 1)) ∧
        represents w' sl' H1 (D1 ++ D) ∧
        (length H1 = 1%nat ∨ lev (pred (length H1)) (D1 ++ D) ≠ []) ∧
        flips w' = flips w ∧ freed w' = H2 ++ c.2 ++ freed w)).
Proof.
  intros Hrep Hrun. destruct w as [m fl fr].
  set (F := (fuel + length cols + length H + 2)%nat).
  pose proof (skip_list_remove_mono fuel F sl data ltac:(lia) _ _ Hrun) as HrunF.
  destruct (skip_list_remove_spec m fl fr sl H cols data F Hrep ltac:(lia))
    as (D1 & D2 & -> & Hbt & Hst & [[Hnd Hr]|Hr]);
    exists D1, D2; (split; [done|]); (split; [done|]); (split; [done|]).
  - left. rewrite Hr in HrunF. by injection HrunF as <- <- <-.
  - right.
    destruct Hr as (c & D & m' & H1 & H2 & top' & -> & Hc & -> & Hr & Hl & Hwf' & Hfin).
    rewrite Hr in HrunF. injection HrunF as <- <- <-.
    split; [done|]. exists c, D, H1, H2. repeat (split; [done|]).
    split; [eauto|]. done.
Qed.

(** ** Invariants of the histories *)

Lemma sorted_app gt (l1 l2 : list Z) :
  strictly_sorted gt l1 → strictly_sorted gt l2 →
  (∀ a b, a ∈ l1 → b ∈ l2 → gt b a = true) →
  strictly_sorted gt (l1 ++ l2).
Proof.
  unfold strictly_sorted. intros H1 H2 Hc.
  induction H1 as [|x l1 Hs IH Hx]; [done|]. simpl.
  constructor.
  - apply IH. intros a b ??. apply Hc; [by right|done].
  - apply Forall_app. split; [done|]. apply Forall_forall.
    intros b Hb. apply Hc; [by left|done].
Qed.

Lemma sorted_insert gt data (newc : list loc) (D1 D2 : list column) :
  gt_transitive gt → gt_total gt →
  strictly_sorted gt ((D1 ++ D2).*1) →
  before_target gt data 0 D1 → stops_at gt data D2 →
  (∀ c D, D2 = c :: D → c.1 ≠ data) →
  strictly_sorted gt ((D1 ++ (data, newc) :: D2).*1).
Proof.
  intros gt_trans gt_tot Hs Hbt Hst Hnd.
  destruct (sorted_split gt data D1 D2 gt_trans Hs Hbt Hst) as [HD1 HD2].
  rewrite fmap_app in Hs. apply (sorted_app_inv gt) in Hs as (Hs1 & Hs2 & Hc).
  rewrite fmap_app, fmap_cons. simpl.
  assert (Forall (λ c : column, gt c.1 data = true) D2) as HD2'.
  { destruct D2 as [|c D]; [done|].
    assert (gt c.1 data = true) as Hc0.
    { apply Forall_cons in HD2 as [Hc0 _].
      destruct (gt_tot c.1 data) as [?|?]; [by eapply Hnd|done|congruence]. }
    constructor; [done|]. apply Forall_forall. intros c' Hc'.
    eapply gt_trans; [|exact Hc0].
    simpl in Hs2. apply StronglySorted_inv in Hs2 as [_ Hall].
    rewrite Forall_forall in Hall. apply Hall. by apply list_elem_of_fmap_2. }
  apply sorted_app; [done| |].
  - constructor; [done|]. apply Forall_fmap. eapply Forall_impl; [exact HD2'|].
    done.
  - intros a b Ha [->|Hb]%elem_of_cons.
    + apply list_elem_of_fmap in Ha as (c & -> & Hc').
      rewrite Forall_forall in HD1. by apply HD1.
    + by apply Hc.
Qed.

Lemma sorted_remove gt (c : column) (D1 D : list column) :
  strictly_sorted gt ((D1 ++ c :: D).*1) → strictly_sorted gt ((D1 ++ D).*1).
Proof.
  rewrite !fmap_app, fmap_cons.
  intros (Hs1 & Hs2 & Hc)%(sorted_app_inv gt).
  apply sorted_app; [done| |].
  - by apply StronglySorted_inv in Hs2 as [? _].
  - intros a b Ha Hb. apply Hc; [done|by right].
Qed.

(** A skip list of a history is a well-formed graph, its size is the number
    of its elements, and, when its comparison orders any two distinct
    payloads, its payloads are strictly increasing. *)
Lemma reachable_inv coins w sl :
  reachable coins w sl →
  ∃ H cols, represents w sl H cols ∧
    _size sl = Z.of_nat (length cols) ∧
    (gt_transitive (_gt_func sl) → gt_total (_gt_func sl) →
     strictly_sorted (_gt_func sl) (cols.*1)).
Proof.
  induction 1 as [gt w0 sl w Hrun
                 |w sl fuel data r sl' w' _ IH Hrun
                 |w sl fuel data r sl' w' _ IH Hrun].
  - destruct w0 as [m fl fr].
    destruct (skip_list_create_spec gt m fl fr) as [Hc Hrep].
    rewrite Hc in Hrun. injection Hrun as <- <-.
    eexists _, []. split; [exact Hrep|]. split; [done|].
    intros _ _. constructor.
  - destruct IH as (H & cols & Hrep & Hsize & Hsorted).
    destruct (skip_list_insert_inv coins w sl H cols data fuel r sl' w' Hrep Hrun)
      as [(-> & -> & ->)|(-> & k & D1 & D2 & H0 & Hnew & newc & _ & -> & Hbt & Hst
                           & Hnd & -> & -> & Hrep' & _)].
    + eauto.
    + eexists _, _. split; [exact Hrep'|]. simpl. split.
      * rewrite Hsize, !length_app. simpl. lia.
      * intros Ht Htot. apply sorted_insert; auto.
  - destruct IH as (H & cols & Hrep & Hsize & Hsorted).
    destruct (skip_list_remove_inv w sl H cols data fuel r sl' w' Hrep Hrun)
      as (D1 & D2 & -> & Hbt & Hst &
          [(-> & -> & -> & _)|(-> & c & D & H1 & H2 & -> & Hc & -> & [top' ->]
                               & Hrep' & _)]).
    + eauto.
    + eexists _, _. split; [exact Hrep'|]. simpl. split.
      * rewrite Hsize, !length_app. simpl. lia.
      * intros Ht Htot. eapply sorted_remove; auto.
Qed.

(** ** Order without ties *)

Lemma sorted_insert_apart gt data (newc : list loc) (D1 D2 : list column) :
  gt_transitive gt → ordered_against gt data ((D1 ++ D2).*1) →
  strictly_sorted gt ((D1 ++ D2).*1) →
  before_target gt data 0 D1 → stops_at gt data D2 →
  (∀ c D, D2 = c :: D → c.1 ≠ data) →
  strictly_sorted gt ((D1 ++ (data, newc) :: D2).*1).
Proof.
  intros gt_trans Hord Hs Hbt Hst Hnd.
  destruct (sorted_split gt data D1 D2 gt_trans Hs Hbt Hst) as [HD1 HD2].
  rewrite fmap_app in Hs. apply (sorted_app_inv gt) in Hs as (Hs1 & Hs2 & Hc).
  rewrite fmap_app, fmap_cons. simpl.
  assert (Forall (λ c : column, gt c.1 data = true) D2) as HD2'.
  { destruct D2 as [|c D]; [done|].
    assert (gt c.1 data = true) as Hc0.
    { apply Forall_cons in HD2 as [Hc0 _].
      destruct (Hord c.1) as [?|?]; [|by eapply Hnd|congruence|done].
      rewrite fmap_app. set_solver. }
    constructor; [done|]. apply Forall_forall. intros c' Hc'.
    eapply gt_trans; [|exact Hc0].
    simpl in Hs2. apply StronglySorted_inv in Hs2 as [_ Hall].
    rewrite Forall_forall in Hall. apply Hall. by apply list_elem_of_fmap_2. }
  apply sorted_app; [done| |].
  - constructor; [done|]. apply Forall_fmap. eapply Forall_impl; [exact HD2'|].
    done.
  - intros a b Ha [->|Hb]%elem_of_cons.
    + apply list_elem_of_fmap in Ha as (c & -> & Hc').
      rewrite Forall_forall in HD1. by apply HD1.
    + by apply Hc.
Qed.

(** A skip list of a history without ties is a well-formed graph, and its
    payloads are strictly increasing when the comparison is transitive. *)
Lemma apart_inv coins w sl :
  reachable_apart coins w sl →
  ∃ H cols, represents w sl H cols ∧
    (gt_transitive (_gt_func sl) → strictly_sorted (_gt_func sl) (cols.*1)).
Proof.
  induction 1 as [gt w0 sl w Hrun
                 |w sl n l fuel data r sl' w' _ IH Hl Hord Hrun
                 |w sl fuel data r sl' w' _ IH Hrun].
  - destruct w0 as [m fl fr].
    destruct (skip_list_create_spec gt m fl fr) as [Hc Hrep].
    rewrite Hc in Hrun. injection Hrun as <- <-.
    eexists _, []. split; [exact Hrep|]. intros _. constructor.
  - destruct IH as (H & cols & Hrep & Hsorted).
    rewrite (level0_payloads_unique _ _ _ _ _ _ Hrep Hl) in Hord.
    destruct (skip_list_insert_inv coins w sl H cols data fuel r sl' w' Hrep Hrun)
      as [(-> & -> & ->)|(-> & k & D1 & D2 & H0 & Hnew & newc & _ & -> & Hbt & Hst
                           & Hnd & -> & -> & Hrep' & _)].
    + eauto.
    + eexists _, _. split; [exact Hrep'|]. simpl.
      intros Ht. apply sorted_insert_apart; auto.
  - destruct IH as (H & cols & Hrep & Hsorted).
    destruct (skip_list_remove_inv w sl H cols data fuel r sl' w' Hrep Hrun)
      as (D1 & D2 & -> & Hbt & Hst &
          [(-> & -> & -> & _)|(-> & c & D & H1 & H2 & -> & Hc & -> & [top' ->]
                               & Hrep' & _)]).
    + eauto.
    + eexists _, _. split; [exact Hrep'|]. simpl.
      intros Ht. eapply sorted_remove; auto.
Qed.

(** When the comparison orders any two distinct pointers, no history has a
    tie. *)
Lemma reachable_total_apart coins w sl :
  reachable coins w sl → gt_total (_gt_func sl) → reachable_apart coins w sl.
Proof.
  induction 1 as [gt w0 sl w Hrun
                 |w sl fuel data r sl' w' Hr IH Hrun
                 |w sl fuel data r sl' w' Hr IH Hrun]; intros Htot.
  - by eapply apart_create.
  - destruct (reachable_inv coins w sl Hr) as (H & cols & Hrep & _).
    assert (_gt_func sl' = _gt_func sl) as E.
    { destruct (skip_list_insert_inv coins w sl H cols data fuel r sl' w'
                  Hrep Hrun)
        as [(_ & -> & _)|(_ & k & D1 & D2 & H0 & Hnew & newc & _ & _ & _ & _
                          & _ & _ & -> & _)]; done. }
    rewrite E in Htot.
    eapply (apart_insert coins w sl (S (length cols + length H)) (cols.*1));
      [by apply IH| |by intros p _ Hne; apply Htot|exact Hrun].
    apply (level0_payloads_represents w sl H cols _ Hrep). lia.
  - destruct (reachable_inv coins w sl Hr) as (H & cols & Hrep & _).
    assert (_gt_func sl' = _gt_func sl) as E.
    { destruct (skip_list_remove_inv w sl H cols data fuel r sl' w' Hrep Hrun)
        as (D1 & D2 & _ & _ & _ &
            [(_ & -> & _)|(_ & c & D & H1 & H2 & _ & _ & _ & [top' ->] & _)]);
        done. }
    rewrite E in Htot. eapply apart_remove; [by apply IH|exact Hrun].
Qed.

(** ** The nodes that can be reached from the topmost header *)

Lemma row_header H cols (i : nat) hd :
  H !! i = Some hd → row H cols i !! 0%nat = Some hd.
Proof. intros Hhd. unfold row. by rewrite Hhd. Qed.

Lemma reach_header m H cols top : ∀ (d i : nat) hd,
  wf m H cols → last H = Some top → H !! i = Some hd →
  (i + d)%nat = pred (length H) → reachable_from m top hd.
Proof.
  induction d as [|d IH]; intros i hd Hwf Htop Hhd Hd.
  - rewrite last_lookup, <- Hd, Nat.add_0_r, Hhd in Htop.
    injection Htop as ->. apply rtc_refl.
  - assert (is_Some (H !! S i)) as [hu Hhu].
    { apply lookup_lt_is_Some. lia. }
    eapply rtc_r; [apply (IH (S i) hu Hwf Htop Hhu); lia|].
    pose proof Hwf as (_ & _ & _ & Hh & _).
    destruct (Hh _ _ Hhu) as (nd & Hnd & _ & Hdn & _).
    exists nd. split; [done|]. right. simpl in Hdn. congruence.
Qed.

Lemma reach_row m H cols top (i : nat) : ∀ (q : nat) x,
  wf m H cols → last H = Some top → row H cols i !! q = Some x →
  reachable_from m top x.
Proof.
  induction q as [|q IH]; intros x Hwf Htop Hq.
  - unfold row in Hq. destruct (H !! i) as [hd|] eqn:Hhd; [|done].
    simpl in Hq. injection Hq as <-.
    assert (i < length H)%nat by (by eapply lookup_lt_Some).
    eapply (reach_header m H cols top (pred (length H) - i) i); eauto. lia.
  - assert (is_Some (row H cols i !! q)) as [y Hy].
    { apply lookup_lt_is_Some. apply lookup_lt_Some in Hq. lia. }
    eapply rtc_r; [by apply (IH y)|].
    destruct (wf_row_node _ _ _ _ _ _ Hwf Hy) as (nd & Hnd & Hn & _).
    exists nd. split; [done|]. left. congruence.
Qed.

(** The nodes of the graph are the nodes that the links lead to from the
    topmost header. *)
Lemma reachable_from_nodes m H cols top x :
  wf m H cols → last H = Some top →
  reachable_from m top x ↔ x ∈ nodes_of H cols.
Proof.
  intros Hwf Htop. split.
  - intros Hr. unfold reachable_from in Hr. revert x Hr.
    apply rtc_ind_r.
    + unfold nodes_of. apply elem_of_app. left. by eapply last_Some_elem_of.
    + intros y z _ (nd & Hnd & Hl) IH.
      destruct (nodes_in_row _ _ _ _ Hwf IH) as (i & _ & Hrow).
      apply list_elem_of_lookup_1 in Hrow as [q Hq].
      destruct (wf_row_node _ _ _ _ _ _ Hwf Hq) as (nd' & Hnd' & Hn & _ & Hd & _).
      assert (nd' = nd) as -> by congruence.
      destruct Hl as [Hl|Hl].
      * eapply (row_in_nodes _ _ i). eapply list_elem_of_lookup_2.
        rewrite <- Hn. exact Hl.
      * destruct (Hd _ Hl) as (j & _ & ?). by eapply row_in_nodes.
  - intros Hx. destruct (nodes_in_row _ _ _ _ Hwf Hx) as (i & _ & Hrow).
    apply list_elem_of_lookup_1 in Hrow as [q Hq].
    by eapply reach_row.
Qed.

(** ** The example inputs *)

Ltac check_link := eexists; repeat split; reflexivity.

Ltac check_wf :=
  split; [reflexivity|];
  split; [split; [done|split; [apply (bool_decide_unpack _); vm_compute; exact I
                              |repeat constructor; simpl; lia]]|];
  split; [repeat constructor; done|];
  split; [intros i hd Hi;
          repeat (destruct i as [|i];
                  [injection Hi as <-; repeat split; check_link|]);
          done|];
  split; [intros i x Hi;
          repeat (destruct i as [|i]; [injection Hi as <-; check_link|]);
          done|];
  repeat constructor;
  (intros i x Hi;
   repeat (destruct i as [|i]; [injection Hi as <-; check_link|]); done).

Lemma demo_run :
  (let* sl := skip_list_create fifo_gt in
   insert_all demo_coins 20 [10; 30; 20] sl) empty_world =
  Some (demo_sl, demo_world).
Proof. vm_compute. reflexivity. Qed.

Lemma demo_represents : represents demo_world demo_sl demo_H demo_cols.
Proof. check_wf. Qed.

Lemma key_run :
  (let* sl := skip_list_create key_gt in
   insert_all demo_coins 20 [10] sl) (World ∅ 1 []) =
  Some (key_sl, key_world).
Proof. vm_compute. reflexivity. Qed.

Lemma key_represents : represents key_world key_sl key_H key_cols.
Proof. check_wf. Qed.

Lemma fifo_gt_irreflexive : gt_irreflexive fifo_gt.
Proof. intros a. unfold fifo_gt. lia. Qed.

Lemma fifo_gt_transitive : gt_transitive fifo_gt.
Proof. intros a b c. unfold fifo_gt. lia. Qed.

Lemma fifo_gt_total : gt_total fifo_gt.
Proof. intros a b. unfold fifo_gt. lia. Qed.

Lemma key_gt_irreflexive : gt_irreflexive key_gt.
Proof. intros a. unfold key_gt. lia. Qed.

Lemma key_gt_transitive : gt_transitive key_gt.
Proof. intros a b c. unfold key_gt. lia. Qed.

Lemma demo_sorted : strictly_sorted fifo_gt (demo_cols.*1).
Proof. repeat constructor. Qed.

Lemma key_sorted : strictly_sorted key_gt (key_cols.*1).
Proof. repeat constructor. Qed.

(** * Further facts used by the claims *)

(** One more call of [skip_list_insert] on a state known to be reachable;
    the call is evaluated. *)
Ltac reach_insert_step R fuel data :=
  lazymatch type of R with
  | reachable ?c ?w ?sl =>
      let v := eval vm_compute in (skip_list_insert c fuel sl data w) in
      lazymatch v with
      | Some (?r, ?sl', ?w') =>
          let E := fresh "E" in
          assert (skip_list_insert c fuel sl data w = Some (r, sl', w')) as E
            by (vm_compute; reflexivity);
          let R' := fresh "R" in
          pose proof (reach_insert c w sl fuel data r sl' w' R E) as R';
          clear E
      end
  end.

(** The state after [skip_list_create], evaluated. *)
Ltac reach_create_step c gt_func w0 :=
  let v := eval vm_compute in (skip_list_create gt_func w0) in
  lazymatch v with
  | Some (?sl, ?w) =>
      let R := fresh "R" in
      assert (reachable c w sl) as R
        by (apply (reach_create c gt_func w0); vm_compute; reflexivity)
  end.

Lemma demo_reachable : reachable demo_coins demo_world demo_sl.
Proof.
  reach_create_step demo_coins fifo_gt empty_world.
  reach_insert_step R 20%nat 10.
  reach_insert_step R0 20%nat 30.
  reach_insert_step R1 20%nat 20.
  exact R2.
Qed.

Lemma sorted_distinct gt (l : list Z) a b :
  strictly_sorted gt l → a ∈ l → b ∈ l → a ≠ b →
  gt a b = true ∨ gt b a = true.
Proof.
  unfold strictly_sorted. induction 1 as [|x l Hs IH Hx]; [by intros ?%elem_of_nil|].
  rewrite Forall_forall in Hx.
  intros [->|Ha]%elem_of_cons [->|Hb]%elem_of_cons Hne;
    [done|right; auto|left; auto|auto].
Qed.

Lemma levd_mid (i : nat) D1 v (c : list loc) D2 :
  levd i (D1 ++ (v, c) :: D2) =
  levd i D1 ++ (if decide (i < length c)%nat then [v] else []) ++ levd i D2.
Proof.
  unfold levd. rewrite omap_app. f_equal. simpl.
  by destruct (decide (i < length c)%nat).
Qed.

Lemma levd_short (i : nat) cols :
  Forall (λ c : column, (length c.2 ≤ i)%nat) cols → levd i cols = [].
Proof.
  induction 1 as [|c cs Hc _ IH]; [done|]. by rewrite levd_cons_ge.
Qed.

(** One more call of [skip_list_insert] in a history without ties; the call
    and the traversal of level 0 are evaluated. *)
Ltac apart_insert_step R fuel data :=
  lazymatch type of R with
  | reachable_apart ?c ?w ?sl =>
      let v := eval vm_compute in (skip_list_insert c fuel sl data w) in
      let lv := eval vm_compute in (level0_payloads fuel w sl) in
      lazymatch v with
      | Some (?r, ?sl', ?w') =>
          lazymatch lv with
          | Some ?l =>
              let E := fresh "E" in
              assert (skip_list_insert c fuel sl data w = Some (r, sl', w'))
                as E by (vm_compute; reflexivity);
              let L := fresh "L" in
              assert (level0_payloads fuel w sl = Some l) as L
                by (vm_compute; reflexivity);
              let O := fresh "O" in
              assert (ordered_against (_gt_func sl) data l) as O
                by (let p := fresh "p" in
                    let Hp := fresh "Hp" in
                    intros p Hp _;
                    repeat (apply elem_of_cons in Hp as [->|Hp];
                            [vm_compute; auto|]);
                    by apply elem_of_nil in Hp);
              let R' := fresh "R" in
              pose proof (apart_insert c w sl fuel l fuel data r sl' w'
                            R L O E) as R';
              clear E L O
          end
      end
  end.

Lemma keys_reachable_apart : reachable_apart demo_coins keys_world keys_sl.
Proof.
  assert (reachable_apart demo_coins
            (World {[1%positive := Node None None None None 0]} 0 [])
            (SkipList 1%positive key_gt 0)) as R0.
  { apply (apart_create demo_coins key_gt empty_world).
    vm_compute. reflexivity. }
  apart_insert_step R0 20%nat 10.
  apart_insert_step R 20%nat 20.
  apart_insert_step R1 20%nat 31.
  apart_insert_step R2 20%nat 4.
  exact R3.
Qed.

Lemma rest_run :
  skip_list_remove 20 demo_sl 10 demo_world = Some ((1, rest_sl), rest_world).
Proof. vm_compute. reflexivity. Qed.

Lemma rest_represents : represents rest_world rest_sl demo_H rest_cols.
Proof. check_wf. Qed.

Lemma rest_sorted : strictly_sorted fifo_gt (rest_cols.*1).
Proof. repeat constructor. Qed.

(** Removing 20 then: the top level held 20 only; the call returns 1, the
    nodes 7 and 6 of the column are freed, and then the header 1 of the
    emptied level; the header 3 of level 0 becomes the first node. *)
Lemma rest_remove_20 :
  ∃ w', skip_list_remove 20 rest_sl 20 rest_world =
          Some ((1, SkipList 3%positive fifo_gt 1), w') ∧
        freed w' = [1%positive; 6%positive; 7%positive] ++ freed rest_world ∧
        level0_payloads 20 w' (SkipList 3%positive fifo_gt 1) = Some [30].
Proof. eexists. vm_compute. done. Qed.

(** * The claims *)

(** C1 (as amended).  On a skip list whose payloads are strictly increasing
    under a comparison that is irreflexive and transitive,
    [skip_list_contains] returns 1 exactly when the target pointer itself is
    stored, and 0 otherwise: membership is decided by pointer identity, not
    by order-equality. *)
Theorem C1_contains_by_identity w sl H cols target :
  represents w sl H cols →
  gt_irreflexive (_gt_func sl) → gt_transitive (_gt_func sl) →
  strictly_sorted (_gt_func sl) (cols.*1) →
  ∃ n0 : nat, ∀ fuel, (n0 ≤ fuel)%nat →
    ∃ r, skip_list_contains fuel sl target w = Some (r, w) ∧
         (r = 1 ∨ r = 0) ∧ (r = 1 ↔ target ∈ cols.*1).
Proof.
  intros Hrep Hirr Htr Hs. destruct w as [m fl fr].
  exists (S (length cols + length H)). intros fuel Hfuel.
  destruct (skip_list_contains_spec m fl fr sl H cols target fuel Hrep)
    as (D1 & D2 & -> & Hbt & Hst & Hrun); [lia|].
  eexists. split; [exact Hrun|].
  destruct D2 as [|c D].
  - split; [by right|]. split; [done|]. intros Hin.
    destruct (sorted_found _ _ _ _ Hirr Htr Hs Hbt Hst Hin) as (? & ? & ? & _).
    done.
  - destruct (decide (c.1 = target)) as [<-|Hne].
    + split; [by left|]. split; [|done]. intros _.
      rewrite fmap_app, fmap_cons. set_solver.
    + split; [by right|]. split; [done|]. intros Hin.
      destruct (sorted_found _ _ _ _ Hirr Htr Hs Hbt Hst Hin)
        as (c' & D' & [= <- <-] & E). done.
Qed.

Lemma C1_witness :
  represents demo_world demo_sl demo_H demo_cols ∧
  gt_irreflexive fifo_gt ∧ gt_transitive fifo_gt ∧
  strictly_sorted fifo_gt (demo_cols.*1) ∧
  ∃ n0 : nat, ∀ fuel, (n0 ≤ fuel)%nat →
    ∃ r, skip_list_contains fuel demo_sl 20 demo_world =
           Some (r, demo_world) ∧
         (r = 1 ∨ r = 0) ∧ (r = 1 ↔ 20 ∈ demo_cols.*1).
Proof.
  split; [exact demo_represents|].
  split; [exact fifo_gt_irreflexive|].
  split; [exact fifo_gt_transitive|].
  split; [exact demo_sorted|].
  exact (C1_contains_by_identity demo_world demo_sl demo_H demo_cols 20
           demo_represents fifo_gt_irreflexive fifo_gt_transitive demo_sorted).
Defined.

(** C1 as stated fails: the stored payload 10 is order-equal to the target
    11 under the comparison by keys, and [skip_list_contains] returns 0. *)
Lemma C1_counterexample :
  represents key_world key_sl key_H key_cols ∧
  strictly_sorted key_gt (key_cols.*1) ∧
  (∃ p, p ∈ key_cols.*1 ∧ order_eq key_gt 11 p) ∧
  skip_list_contains 10 key_sl 11 key_world = Some (0, key_world).
Proof.
  split; [exact key_represents|]. split; [exact key_sorted|].
  split; [|by vm_compute].
  exists 10. split; [by left|]. by vm_compute.
Qed.

(** C2.  On a well-formed skip list whose payloads are strictly increasing
    under a transitive comparison, [_find_previous] called on the topmost
    header returns the level-0 node of the last column whose payload is
    ordered before the target, and the header of level 0 if there is none:
    the payloads of the columns up to the returned node are all before the
    target, and those after it are not. *)
Theorem C2_find_previous_rightmost w sl H cols target :
  represents w sl H cols →
  gt_transitive (_gt_func sl) →
  strictly_sorted (_gt_func sl) (cols.*1) →
  ∃ n0 : nat, ∀ fuel, (n0 ≤ fuel)%nat →
    ∃ D1 D2 h0, cols = D1 ++ D2 ∧ H !! 0%nat = Some h0 ∧
      _find_previous fuel (_gt_func sl) (_first_node sl) target w =
        Some (lastl h0 (lev 0 D1), w) ∧
      Forall (λ c : column, _gt_func sl target c.1 = true) D1 ∧
      Forall (λ c : column, _gt_func sl target c.1 = false) D2.
Proof.
  intros [Htop Hwf] Htr Hs. destruct w as [m fl fr]. simpl in Hwf.
  exists (S (length cols + length H)). intros fuel Hfuel.
  destruct (find_previous_top (_gt_func sl) target m fl fr H cols
              (_first_node sl) fuel Hwf Htop)
    as (D1 & D2 & h0 & prev & p & -> & Hh0 & Hfind & -> & Hp & Hbt & Hst & _);
    [lia|].
  exists D1, D2, h0. repeat (split; [done|]).
  by apply sorted_split.
Qed.

Lemma C2_witness :
  represents demo_world demo_sl demo_H demo_cols ∧
  gt_transitive fifo_gt ∧
  strictly_sorted fifo_gt (demo_cols.*1) ∧
  ∃ n0 : nat, ∀ fuel, (n0 ≤ fuel)%nat →
    ∃ D1 D2 h0, demo_cols = D1 ++ D2 ∧ demo_H !! 0%nat = Some h0 ∧
      _find_previous fuel fifo_gt 1%positive 25 demo_world =
        Some (lastl h0 (lev 0 D1), demo_world) ∧
      Forall (λ c : column, fifo_gt 25 c.1 = true) D1 ∧
      Forall (λ c : column, fifo_gt 25 c.1 = false) D2.
Proof.
  split; [exact demo_represents|].
  split; [exact fifo_gt_transitive|].
  split; [exact demo_sorted|].
  exact (C2_find_previous_rightmost demo_world demo_sl demo_H demo_cols 25
           demo_represents fifo_gt_transitive demo_sorted).
Defined.

(** C3 (as amended).  On a skip list whose payloads are strictly increasing
    under an irreflexive and transitive comparison and that stores the
    argument pointer itself, [skip_list_insert] returns 0 and changes
    neither the structure, nor the heap, nor the element count. *)
Theorem C3_insert_same_pointer coins w sl H cols data :
  represents w sl H cols →
  gt_irreflexive (_gt_func sl) → gt_transitive (_gt_func sl) →
  strictly_sorted (_gt_func sl) (cols.*1) →
  data ∈ cols.*1 →
  ∃ n0 : nat, ∀ fuel, (n0 ≤ fuel)%nat →
    skip_list_insert coins fuel sl data w = Some ((0, sl), w).
Proof.
  intros Hrep Hirr Htr Hs Hin.
  destruct w as [m fl fr].
  exists (S (length cols + length H)). intros fuel Hfuel.
  pose proof Hrep as [Htop Hwf]. simpl in Hwf.
  destruct (find_previous_top (_gt_func sl) data m fl fr H cols
              (_first_node sl) fuel Hwf Htop)
    as (D1 & D2 & h0 & prev & p & -> & Hh0 & Hfind & -> & Hp & Hbt & Hst & Hnx);
    [lia|].
  destruct (sorted_found _ _ _ _ Hirr Htr Hs Hbt Hst Hin) as (c & D & -> & E).
  destruct Hnx as (x & nd & Hx & Hpx & Hnd & Hd).
  unfold skip_list_insert.
  rewrite (run_bind _ _ _ _ _ Hfind).
  rewrite (run_bind _ _ _ _ _ (load_ok _ _ _ _ _ Hp)), Hpx.
  rewrite bind_assoc, (run_bind _ _ _ _ _ (load_ok _ _ _ _ _ Hnd)), bind_ret.
  rewrite bool_decide_true by congruence. done.
Qed.

Lemma C3_witness :
  represents demo_world demo_sl demo_H demo_cols ∧
  gt_irreflexive fifo_gt ∧ gt_transitive fifo_gt ∧
  strictly_sorted fifo_gt (demo_cols.*1) ∧
  20 ∈ demo_cols.*1 ∧
  ∃ n0 : nat, ∀ fuel, (n0 ≤ fuel)%nat →
    skip_list_insert demo_coins fuel demo_sl 20 demo_world =
      Some ((0, demo_sl), demo_world).
Proof.
  assert (20 ∈ demo_cols.*1) as Hin by (right; left).
  split; [exact demo_represents|].
  split; [exact fifo_gt_irreflexive|].
  split; [exact fifo_gt_transitive|].
  split; [exact demo_sorted|].
  split; [exact Hin|].
  exact (C3_insert_same_pointer demo_coins demo_world demo_sl demo_H demo_cols
           20 demo_represents fifo_gt_irreflexive fifo_gt_transitive
           demo_sorted Hin).
Defined.

(** C3 as stated fails: the list stores 10, which is order-equal to 11 under
    the comparison by keys, and [skip_list_insert] of 11 returns 1, stores
    11 in front of 10 and counts two elements. *)
Lemma C3_counterexample :
  represents key_world key_sl key_H key_cols ∧
  (∃ p, p ∈ key_cols.*1 ∧ order_eq key_gt 11 p) ∧
  ∃ sl' w',
    skip_list_insert demo_coins 10 key_sl 11 key_world = Some ((1, sl'), w') ∧
    _size sl' = _size key_sl + 1 ∧
    level0_payloads 10 w' sl' = Some [11; 10].
Proof.
  split; [exact key_represents|].
  split; [exists 10; split; [by left|by vm_compute]|].
  eexists _, _. split; [by vm_compute|]. split; by vm_compute.
Qed.

(** C4.  On a well-formed skip list that stores no payload order-equal to
    the argument, [skip_list_remove] returns 0 and changes neither the
    structure, nor the heap, nor the element count. *)
Theorem C4_remove_absent w sl H cols data :
  represents w sl H cols →
  (∀ p, p ∈ cols.*1 → ¬ order_eq (_gt_func sl) data p) →
  ∃ n0 : nat, ∀ fuel, (n0 ≤ fuel)%nat →
    skip_list_remove fuel sl data w = Some ((0, sl), w).
Proof.
  intros Hrep Habs. destruct w as [m fl fr].
  exists (length cols + length H + 2)%nat. intros fuel Hfuel.
  destruct (skip_list_remove_spec m fl fr sl H cols data fuel Hrep Hfuel)
    as (D1 & D2 & -> & Hbt & Hst & [[_ Hr]|Hr]); [done|].
  destruct Hr as (c & D & _ & _ & _ & _ & -> & Hc & _).
  destruct Hst as [?|(c' & D' & [= <- <-] & Hgt)]; [done|].
  destruct (Habs c.1).
  - rewrite fmap_app, fmap_cons. set_solver.
  - rewrite <- Hc in *. by split.
Qed.

Lemma C4_witness :
  represents demo_world demo_sl demo_H demo_cols ∧
  (∀ p, p ∈ demo_cols.*1 → ¬ order_eq fifo_gt 25 p) ∧
  ∃ n0 : nat, ∀ fuel, (n0 ≤ fuel)%nat →
    skip_list_remove fuel demo_sl 25 demo_world =
      Some ((0, demo_sl), demo_world).
Proof.
  assert (∀ p, p ∈ demo_cols.*1 → ¬ order_eq fifo_gt 25 p) as Habs.
  { intros p Hp [E1 E2]. unfold fifo_gt in *.
    repeat (apply elem_of_cons in Hp as [->|Hp]; [simpl in *; lia|]).
    by apply elem_of_nil in Hp. }
  split; [exact demo_represents|]. split; [exact Habs|].
  exact (C4_remove_absent demo_world demo_sl demo_H demo_cols 25
           demo_represents Habs).
Defined.

(** C5 (as amended).  When the comparison is transitive, the payloads of
    level 0 of every skip list that [skip_list_create] and calls of
    [skip_list_insert] and [skip_list_remove] produce, whatever the coins,
    are strictly increasing, provided each pointer that was inserted was
    ordered, one way or the other, against every other pointer stored at
    the time. *)
Theorem C5_level0_strictly_increasing coins w sl :
  reachable_apart coins w sl →
  gt_transitive (_gt_func sl) →
  ∃ n0 : nat, ∀ fuel, (n0 ≤ fuel)%nat →
    ∃ l, level0_payloads fuel w sl = Some l ∧
         strictly_sorted (_gt_func sl) l.
Proof.
  intros Hr Htr.
  destruct (apart_inv coins w sl Hr) as (H & cols & Hrep & Hs).
  exists (S (length cols + length H)). intros fuel Hfuel.
  exists (cols.*1). split; [|by apply Hs].
  apply (level0_payloads_represents w sl H cols fuel Hrep). lia.
Qed.

Lemma C5_witness :
  reachable_apart demo_coins keys_world keys_sl ∧
  gt_transitive key_gt ∧
  ∃ n0 : nat, ∀ fuel, (n0 ≤ fuel)%nat →
    ∃ l, level0_payloads fuel keys_world keys_sl = Some l ∧
         strictly_sorted key_gt l.
Proof.
  split; [exact keys_reachable_apart|].
  split; [exact key_gt_transitive|].
  exact (C5_level0_strictly_increasing demo_coins keys_world keys_sl
           keys_reachable_apart key_gt_transitive).
Defined.

(** C5 as stated fails: with the comparison by keys, creating a list and
    inserting 10 and then 11 gives the level 0 sequence 11, 10, in which 10
    is not greater than 11. *)
Lemma C5_counterexample :
  ∃ w sl,
    reachable demo_coins w sl ∧
    _gt_func sl = key_gt ∧
    level0_payloads 10 w sl = Some [11; 10] ∧
    ¬ strictly_sorted key_gt [11; 10].
Proof.
  reach_create_step demo_coins key_gt (World ∅ 1 []).
  reach_insert_step R 10%nat 10.
  reach_insert_step R0 10%nat 11.
  eexists _, _. split; [exact R1|]. split; [done|]. split; [by vm_compute|].
  intros Hs. apply StronglySorted_inv in Hs as [_ Hall].
  apply Forall_cons in Hall as [Hgt _]. by vm_compute in Hgt.
Qed.

(** C6.  In every skip list that [skip_list_create] and calls of
    [skip_list_insert] and [skip_list_remove] produce, for every level and
    the level right below it: the nodes of the upper level are linked down,
    in their order, to nodes of the lower level that hold the same payloads,
    and so the payloads of the upper level are a subsequence of the payloads
    of the lower level. *)
Theorem C6_levels_subsequence coins w sl :
  reachable coins w sl →
  ∃ n0 : nat, ∀ fuel, (n0 ≤ fuel)%nat →
    ∃ hs, descend fuel (mem w) (_first_node sl) = Some hs ∧
      ∀ (k : nat) hu hl, hs !! k = Some hu → hs !! S k = Some hl →
        ∃ U L D PU PL,
          forward fuel (mem w) hu = Some U ∧
          forward fuel (mem w) hl = Some L ∧
          Forall2 (λ u d, below (mem w) u = Some d ∧
                          payload (mem w) u = payload (mem w) d) U D ∧
          D `sublist_of` L ∧
          payloads (mem w) U = Some PU ∧ payloads (mem w) L = Some PL ∧
          PU `sublist_of` PL.
Proof.
  intros Hr.
  destruct (reachable_inv coins w sl Hr) as (H & cols & [Htop Hwf] & _).
  exists (S (length cols + length H)). intros fuel Hfuel.
  exists (reverse H). split; [apply (descend_top _ H cols); [done|done|lia]|].
  intros k hu hl Hu Hl.
  assert (S k < length H)%nat as Hk.
  { apply lookup_lt_Some in Hl. by rewrite length_reverse in Hl. }
  rewrite reverse_lookup in Hu, Hl by lia.
  set (i := (length H - S (S k))%nat) in *.
  replace (length H - S k)%nat with (S i) in Hu by lia.
  exists (lev (S i) cols), (lev i cols), (lev_below i cols),
    (levd (S i) cols), (levd i cols).
  split; [apply (forward_row _ H cols (S i)); [done|done|lia]|].
  split; [apply (forward_row _ H cols i); [done|done|lia]|].
  split; [by eapply lev_down|].
  split; [apply lev_below_sublist|].
  split; [by eapply payloads_lev|].
  split; [by eapply payloads_lev|].
  apply levd_sublist.
Qed.

Lemma C6_witness :
  reachable demo_coins demo_world demo_sl ∧
  ∃ n0 : nat, ∀ fuel, (n0 ≤ fuel)%nat →
    ∃ hs, descend fuel (mem demo_world) (_first_node demo_sl) = Some hs ∧
      ∀ (k : nat) hu hl, hs !! k = Some hu → hs !! S k = Some hl →
        ∃ U L D PU PL,
          forward fuel (mem demo_world) hu = Some U ∧
          forward fuel (mem demo_world) hl = Some L ∧
          Forall2 (λ u d, below (mem demo_world) u = Some d ∧
                          payload (mem demo_world) u =
                          payload (mem demo_world) d) U D ∧
          D `sublist_of` L ∧
          payloads (mem demo_world) U = Some PU ∧
          payloads (mem demo_world) L = Some PL ∧
          PU `sublist_of` PL.
Proof.
  split; [exact demo_reachable|].
  exact (C6_levels_subsequence demo_coins demo_world demo_sl demo_reachable).
Defined.

(** C7.  [skip_list_remove] on a well-formed skip list returns 0, having
    changed nothing, or 1; it returns 1 when the payloads are strictly
    increasing, for an irreflexive and transitive comparison, and the
    pointer is stored.  When it returns 1, the column of the pointer is
    gone and its nodes are freed, and the result is a well-formed skip list
    on the lower headers of the old one, the upper headers having been
    freed after the column: its top level is not empty or it is level 0,
    that is, its topmost header has a next node or has no level below it;
    and if no element is left, the graph is a single header without any
    link. *)
Theorem C7_remove_reduces_height w sl H cols data :
  represents w sl H cols →
  ∃ n0 : nat, ∀ fuel, (n0 ≤ fuel)%nat →
    ∃ r sl' w', skip_list_remove fuel sl data w = Some ((r, sl'), w') ∧
      (r = 0 ∨ r = 1) ∧
      (r = 0 → sl' = sl ∧ w' = w) ∧
      (gt_irreflexive (_gt_func sl) → gt_transitive (_gt_func sl) →
       strictly_sorted (_gt_func sl) (cols.*1) → data ∈ cols.*1 → r = 1) ∧
      (r = 1 →
       ∃ H1 H2 D1 c D nd,
         H = H1 ++ H2 ∧ cols = D1 ++ c :: D ∧ c.1 = data ∧
         represents w' sl' H1 (D1 ++ D) ∧
         freed w' = H2 ++ c.2 ++ freed w ∧
         Forall (λ x, mem w' !! x = None) (H2 ++ c.2) ∧
         (length H1 = 1%nat ∨ lev (pred (length H1)) (D1 ++ D) ≠ []) ∧
         (∀ i : nat, (length H1 ≤ i)%nat → lev i (D1 ++ D) = []) ∧
         mem w' !! _first_node sl' = Some nd ∧
         (_next_node nd ≠ None ∨ _next_layer nd = None) ∧
         (D1 ++ D = [] →
            H1 = [_first_node sl'] ∧ nd = Node None None None None 0)).
Proof.
  intros Hrep. destruct w as [m fl fr].
  exists (length cols + length H + 2)%nat. intros fuel Hfuel.
  destruct (skip_list_remove_heap m fl fr sl H cols data fuel Hrep Hfuel)
    as (D1 & D2 & -> & Hbt & Hst & [[Hnd Hr]|Hr]).
  { eexists _, _, _. split; [exact Hr|]. split; [by left|].
    split; [done|]. split; [|done].
    intros Hirr Htr Hs Hin.
    destruct (sorted_found _ data D1 D2 Hirr Htr Hs Hbt Hst Hin)
      as (c & C & E & Hc).
    by destruct (Hnd c C E). }
  destruct Hr as (c & D & m' & H1 & H2 & top' & -> & Hc & -> & Hr & Hl & Hwf'
                  & Hfin & _ & Hfree).
  eexists _, _, _. split; [exact Hr|]. split; [by right|].
  split; [done|]. split; [done|]. intros _.
  pose proof Hwf' as ((_ & _ & Hlen) & _ & Hrows & Hh & _).
  pose proof Hl as Hl'. rewrite last_lookup in Hl'.
  destruct (Hrows _ _ Hl') as [Hhl _].
  pose proof (Hh _ _ Hl') as Hvl. unfold up_full in Hvl.
  assert (0 < length H1)%nat by (apply lookup_lt_Some in Hl'; lia).
  rewrite lookup_ge_None_2 in Hvl by lia.
  pose proof (hlink_vlink _ _ _ _ _ _ _ Hhl Hvl) as Hnd.
  eexists H1, H2, D1, c, D, _.
  split; [done|]. split; [done|]. split; [done|]. split; [done|].
  split; [done|]. split; [done|]. split; [done|].
  split.
  { intros i Hi. apply lev_short. eapply Forall_impl; [exact Hlen|].
    simpl. intros; lia. }
  split; [exact Hnd|]. simpl. split.
  - destruct Hfin as [E|Hne].
    + right. by rewrite E.
    + left. by destruct (lev (pred (length H1)) (D1 ++ D)).
  - intros E. rewrite E in *. rewrite lev_nil in *.
    destruct Hfin as [E1|?]; [|done].
    destruct H1 as [|h [|? ?]]; simplify_eq/=. done.
Qed.

Lemma C7_witness :
  represents rest_world rest_sl demo_H rest_cols ∧
  ∃ n0 : nat, ∀ fuel, (n0 ≤ fuel)%nat →
    ∃ r sl' w',
      skip_list_remove fuel rest_sl 20 rest_world = Some ((r, sl'), w') ∧
      (r = 0 ∨ r = 1) ∧
      (r = 0 → sl' = rest_sl ∧ w' = rest_world) ∧
      (gt_irreflexive fifo_gt → gt_transitive fifo_gt →
       strictly_sorted fifo_gt (rest_cols.*1) → 20 ∈ rest_cols.*1 → r = 1) ∧
      (r = 1 →
       ∃ H1 H2 D1 c D nd,
         demo_H = H1 ++ H2 ∧ rest_cols = D1 ++ c :: D ∧ c.1 = 20 ∧
         represents w' sl' H1 (D1 ++ D) ∧
         freed w' = H2 ++ c.2 ++ freed rest_world ∧
         Forall (λ x, mem w' !! x = None) (H2 ++ c.2) ∧
         (length H1 = 1%nat ∨ lev (pred (length H1)) (D1 ++ D) ≠ []) ∧
         (∀ i : nat, (length H1 ≤ i)%nat → lev i (D1 ++ D) = []) ∧
         mem w' !! _first_node sl' = Some nd ∧
         (_next_node nd ≠ None ∨ _next_layer nd = None) ∧
         (D1 ++ D = [] →
            H1 = [_first_node sl'] ∧ nd = Node None None None None 0)).
Proof.
  split; [exact rest_represents|].
  exact (C7_remove_reduces_height rest_world rest_sl demo_H rest_cols 20 rest_represents).
Defined.

(** C8.  When [skip_list_insert] on a well-formed skip list returns 1 and
    the coins give [k] heads and then tails, the graph has one more column,
    of [k + 1] nodes, with the payload: the payload is added to each of the
    levels 0 to [k], at the same position among the columns, and to no
    other level; the levels from the old height on were empty, and the
    height becomes the larger of the old height and [k + 1]. *)
Theorem C8_insert_column_height coins w sl H cols data (k : nat) :
  represents w sl H cols →
  heads_then_tails coins w k →
  ∃ n0 : nat, ∀ fuel, (n0 ≤ fuel)%nat →
    ∃ r sl' w',
      skip_list_insert coins fuel sl data w = Some ((r, sl'), w') ∧
      (r = 1 →
       ∃ D1 D2 H' newc,
         cols = D1 ++ D2 ∧
         represents w' sl' H' (D1 ++ (data, newc) :: D2) ∧
         length newc = S k ∧
         length H' = (length H `max` S k)%nat ∧
         (∀ i : nat, levd i (D1 ++ (data, newc) :: D2) =
            levd i D1 ++ (if decide (i ≤ k)%nat then [data] else [])
                      ++ levd i D2) ∧
         (∀ i : nat, (length H ≤ i)%nat → levd i cols = []) ∧
         flips w' = (flips w + S k)%nat).
Proof.
  intros Hrep [Hheads Htails]. destruct w as [m fl fr]. simpl in *.
  exists (length cols + length H + k + 2)%nat. intros fuel Hfuel.
  destruct (skip_list_insert_spec coins m fl fr sl H cols data k fuel
              Hrep Hheads Htails Hfuel)
    as (D1 & D2 & -> & Hbt & Hst & [(c & D & -> & Hc & Hr)|[Hnd Hr]]).
  { eexists _, _, _. split; [exact Hr|]. done. }
  destruct Hr as (m' & H0 & Hnew & newc & -> & Hr & Hl & HlH & Hwf').
  eexists _, _, _. split; [exact Hr|]. intros _.
  exists D1, D2, (H0 ++ Hnew ++ [_first_node sl]), newc.
  split; [done|]. split; [split; [by rewrite !last_app|done]|].
  split; [done|]. split; [rewrite !length_app; simpl; lia|].
  split; [|split; [|simpl; lia]].
  - intros i. rewrite levd_mid, Hl.
    destruct (decide (i < S k)%nat), (decide (i ≤ k)%nat); (done || lia).
  - intros i Hi. apply levd_short.
    destruct Hrep as [_ ((_ & _ & Hlen) & _)].
    eapply Forall_impl; [exact Hlen|]. intros c0 ?. simpl in *. lia.
Qed.

Lemma C8_witness :
  represents demo_world demo_sl demo_H demo_cols ∧
  heads_then_tails (λ n, bool_decide (n < 7)%nat) demo_world 2 ∧
  ∃ n0 : nat, ∀ fuel, (n0 ≤ fuel)%nat →
    ∃ r sl' w',
      skip_list_insert (λ n, bool_decide (n < 7)%nat) fuel demo_sl 15
        demo_world = Some ((r, sl'), w') ∧
      (r = 1 →
       ∃ D1 D2 H' newc,
         demo_cols = D1 ++ D2 ∧
         represents w' sl' H' (D1 ++ (15, newc) :: D2) ∧
         length newc = 3%nat ∧
         length H' = (length demo_H `max` 3)%nat ∧
         (∀ i : nat, levd i (D1 ++ (15, newc) :: D2) =
            levd i D1 ++ (if decide (i ≤ 2)%nat then [15] else [])
                      ++ levd i D2) ∧
         (∀ i : nat, (length demo_H ≤ i)%nat → levd i demo_cols = []) ∧
         flips w' = (flips demo_world + 3)%nat).
Proof.
  assert (heads_then_tails (λ n, bool_decide (n < 7)%nat) demo_world 2) as Hc.
  { split; [|reflexivity]. intros j Hj. apply bool_decide_eq_true. simpl. lia. }
  split; [exact demo_represents|]. split; [exact Hc|].
  exact (C8_insert_column_height (λ n, bool_decide (n < 7)%nat) demo_world
           demo_sl demo_H demo_cols 15 2 demo_represents Hc).
Defined.

(** C9.  [skip_list_destroy] on a well-formed skip list returns 0 without
    touching a freed cell, and frees each node that can be reached from the
    topmost header exactly once: the addresses it passes to [free] are
    without repetition, they are the reachable nodes, and afterwards these
    cells are gone and every other cell of the heap is as before. *)
Theorem C9_destroy_frees_each_once w sl H cols :
  represents w sl H cols →
  ∃ n0 : nat, ∀ fuel, (n0 ≤ fuel)%nat →
    ∃ w' log,
      skip_list_destroy fuel sl w = Some (0, w') ∧
      freed w' = log ++ freed w ∧
      NoDup log ∧
      (∀ x, x ∈ log ↔ reachable_from (mem w) (_first_node sl) x) ∧
      (∀ x, mem w' !! x = if decide (x ∈ log) then None else mem w !! x).
Proof.
  intros [Htop Hwf]. destruct w as [m fl fr]. simpl in *.
  exists (length H + length cols + 4)%nat. intros fuel Hfuel.
  pose proof Htop as Htop'. rewrite last_lookup in Htop'.
  assert (0 < length H)%nat by (apply lookup_lt_Some in Htop'; lia).
  pose proof (delete_levels_spec m H cols Hwf fl fr (pred (length H))
                (_first_node sl) fuel Htop' ltac:(lia)) as Hrun.
  replace (S (pred (length H))) with (length H) in Hrun by lia.
  pose proof (rows_upto_nodes m H cols Hwf) as Hperm.
  pose proof Hwf as ((_ & Hnd & _) & _).
  eexists _, (rows_upto H cols (length H)).
  split; [unfold skip_list_destroy; by rewrite (run_bind _ _ _ _ _ Hrun)|].
  split; [done|]. split; [by rewrite Hperm|]. split.
  - intros x. rewrite Hperm. symmetry. by apply (reachable_from_nodes m H cols).
  - intros x. simpl. rewrite after_free_lookup.
    destruct (decide (x ∈ rows_upto H cols (length H))) as [Hx|Hx]; [done|].
    destruct (decide (x ∈ nodes_of H cols)) as [Hn|Hn];
      [by rewrite <- Hperm in Hn|].
    by destruct (m !! x).
Qed.

Lemma C9_witness :
  represents demo_world demo_sl demo_H demo_cols ∧
  ∃ n0 : nat, ∀ fuel, (n0 ≤ fuel)%nat →
    ∃ w' log,
      skip_list_destroy fuel demo_sl demo_world = Some (0, w') ∧
      freed w' = log ++ freed demo_world ∧
      NoDup log ∧
      (∀ x, x ∈ log ↔
            reachable_from (mem demo_world) (_first_node demo_sl) x) ∧
      (∀ x, mem w' !! x =
            if decide (x ∈ log) then None else mem demo_world !! x).
Proof.
  split; [exact demo_represents|].
  exact (C9_destroy_frees_each_once demo_world demo_sl demo_H demo_cols
           demo_represents).
Defined.

(** C10.  On a well-formed skip list that stores [p], for a pointer [q]
    other than [p] that is order-equal to [p] and is not itself stored:
    [skip_list_insert] of [q] returns 1 and adds a column for [q], so that
    [q] is stored besides [p] and the count grows by one, and
    [skip_list_remove] of [q] returns 0 and changes nothing. *)
Theorem C10_presence_by_pointer_identity coins w sl H cols p q (k : nat) :
  represents w sl H cols →
  p ∈ cols.*1 → q ≠ p → order_eq (_gt_func sl) p q →
  q ∉ cols.*1 →
  heads_then_tails coins w k →
  ∃ n0 : nat, ∀ fuel, (n0 ≤ fuel)%nat →
    (∃ sl' w' D1 D2 H' newc,
       skip_list_insert coins fuel sl q w = Some ((1, sl'), w') ∧
       cols = D1 ++ D2 ∧
       represents w' sl' H' (D1 ++ (q, newc) :: D2) ∧
       p ∈ (D1 ++ (q, newc) :: D2).*1 ∧ q ∈ (D1 ++ (q, newc) :: D2).*1 ∧
       _size sl' = _size sl + 1) ∧
    skip_list_remove fuel sl q w = Some ((0, sl), w).
Proof.
  intros Hrep Hp Hqp _ Hq [Hheads Htails].
  destruct w as [m fl fr]. simpl in *.
  exists (length cols + length H + k + 2)%nat. intros fuel Hfuel. split.
  - destruct (skip_list_insert_spec coins m fl fr sl H cols q k fuel
                Hrep Hheads Htails Hfuel)
      as (D1 & D2 & -> & Hbt & Hst & [(c & D & -> & Hc & Hr)|[Hnd Hr]]).
    { destruct Hq. rewrite fmap_app, fmap_cons, Hc. set_solver. }
    destruct Hr as (m' & H0 & Hnew & newc & -> & Hr & Hl & HlH & Hwf').
    eexists _, _, D1, D2, (H0 ++ Hnew ++ [_first_node sl]), newc.
    split; [exact Hr|]. split; [done|].
    split; [split; [by rewrite !last_app|done]|].
    rewrite !fmap_app, !fmap_cons in *. simpl. set_solver.
  - destruct (skip_list_remove_spec m fl fr sl H cols q fuel Hrep ltac:(lia))
      as (D1 & D2 & -> & Hbt & Hst & [[_ Hr]|Hr]); [done|].
    destruct Hr as (c & D & _ & _ & _ & _ & -> & Hc & _).
    destruct Hq. rewrite fmap_app, fmap_cons, Hc. set_solver.
Qed.

Lemma C10_witness :
  represents key_world key_sl key_H key_cols ∧
  10 ∈ key_cols.*1 ∧ 11 ≠ 10 ∧ order_eq key_gt 10 11 ∧
  (11 ∉ key_cols.*1) ∧
  heads_then_tails demo_coins key_world 0 ∧
  ∃ n0 : nat, ∀ fuel, (n0 ≤ fuel)%nat →
    (∃ sl' w' D1 D2 H' newc,
       skip_list_insert demo_coins fuel key_sl 11 key_world =
         Some ((1, sl'), w') ∧
       key_cols = D1 ++ D2 ∧
       represents w' sl' H' (D1 ++ (11, newc) :: D2) ∧
       10 ∈ (D1 ++ (11, newc) :: D2).*1 ∧ 11 ∈ (D1 ++ (11, newc) :: D2).*1 ∧
       _size sl' = _size key_sl + 1) ∧
    skip_list_remove fuel key_sl 11 key_world = Some ((0, key_sl), key_world).
Proof.
  assert (10 ∈ key_cols.*1) as Hin by left.
  assert (11 ≠ 10) as Hne by done.
  assert (order_eq key_gt 10 11) as Heq by (by vm_compute).
  assert (11 ∉ key_cols.*1) as Hnin.
  { intros Hx. apply list_elem_of_singleton in Hx. done. }
  assert (heads_then_tails demo_coins key_world 0) as Hc.
  { split; [intros j Hj; lia|reflexivity]. }
  split; [exact key_represents|].
  split; [exact Hin|]. split; [exact Hne|]. split; [exact Heq|].
  split; [exact Hnin|]. split; [exact Hc|].
  exact (C10_presence_by_pointer_identity demo_coins key_world key_sl key_H
           key_cols 10 11 0 key_represents Hin Hne Heq Hnin Hc).
Defined.

(** C10 as stated fails when [q] is itself stored: after creating a list
    with the comparison by keys and inserting 10 and then 11, the list stores
    10, and 11 is another pointer, order-equal to 10; there
    [skip_list_insert] of 11 returns 0 and changes nothing, and
    [skip_list_remove] of 11 returns 1 and leaves 10 alone. *)
Lemma C10_counterexample :
  ∃ w sl,
    reachable demo_coins w sl ∧
    _gt_func sl = key_gt ∧
    level0_payloads 10 w sl = Some [11; 10] ∧
    11 ≠ 10 ∧ order_eq key_gt 10 11 ∧
    skip_list_insert demo_coins 10 sl 11 w = Some ((0, sl), w) ∧
    ∃ sl' w',
      skip_list_remove 10 sl 11 w = Some ((1, sl'), w') ∧
      level0_payloads 10 w' sl' = Some [10].
Proof.
  reach_create_step demo_coins key_gt (World ∅ 1 []).
  reach_insert_step R 10%nat 10.
  reach_insert_step R0 10%nat 11.
  eexists _, _. split; [exact R1|]. split; [done|]. split; [by vm_compute|].
  split; [done|]. split; [by vm_compute|]. split; [by vm_compute|].
  eexists _, _. split; [by vm_compute|]. by vm_compute.
Qed.

(** * The public functions on a skip list in use *)

(** ** Coins *)

Lemma first_tails coins : ∀ (k n : nat),
  coins (n + k)%nat = false →
  ∃ k' : nat, (∀ j : nat, (j < k')%nat → coins (n + j)%nat = true) ∧
              coins (n + k')%nat = false.
Proof.
  induction k as [|k IH]; intros n Hk.
  - exists 0%nat. split; [lia|done].
  - destruct (coins n) eqn:E.
    + destruct (IH (S n)) as (k' & Hh & Ht).
      { by replace (S n + k)%nat with (n + S k)%nat by lia. }
      exists (S k'). split.
      * intros [|j] Hj; [by rewrite Nat.add_0_r|].
        replace (n + S j)%nat with (S n + j)%nat by lia. apply Hh. lia.
      * by replace (n + S k')%nat with (S n + k')%nat by lia.
    + exists 0%nat. split; [lia|]. by rewrite Nat.add_0_r.
Qed.

Lemma fair_heads_then_tails coins w :
  fair coins → ∃ k, heads_then_tails coins w k.
Proof. intros Hf. destruct (Hf (flips w)) as [k Hk]. by eapply first_tails. Qed.

(** ** The top level *)

Lemma top_used_insert H0 top (Hnew : list loc) D1 D2 data (newc : list loc)
    (k : nat) :
  top_used (H0 ++ [top]) (D1 ++ D2) →
  length newc = S k → length Hnew = (S k - S (length H0))%nat →
  top_used (H0 ++ Hnew ++ [top]) (D1 ++ (data, newc) :: D2).
Proof.
  intros Htop Hl HlH. unfold top_used in *.
  rewrite !length_app in *. simpl in *.
  destruct (decide (length H0 < S k)%nat) as [Hgrow|Hsame].
  - right. replace (pred (length H0 + (length Hnew + 1))) with k by lia.
    destruct (lookup_lt_is_Some_2 newc k) as [x Hx]; [lia|].
    rewrite (lev_mid_Some _ _ _ _ _ x Hx). by destruct (lev k D1).
  - destruct Htop as [Htop|Htop]; [left; lia|]. right.
    replace (length H0 + (length Hnew + 1))%nat with (length H0 + 1)%nat by lia.
    intros Hnil. apply Htop. rewrite lev_app.
    rewrite lev_mid in Hnil.
    apply app_eq_nil in Hnil as [-> Hnil].
    by apply app_eq_nil in Hnil as [_ ->].
Qed.

(** ** One call *)

Lemma sorted_NoDup gt (l : list Z) :
  gt_irreflexive gt → strictly_sorted gt l → NoDup l.
Proof.
  intros Hirr. induction 1 as [|x l _ IH Hx]; constructor; [|done].
  intros Hin. rewrite Forall_forall in Hx. specialize (Hx _ Hin).
  by rewrite Hirr in Hx.
Qed.

Lemma sorted_before_after gt data (D1 D2 : list column) :
  gt_transitive gt → gt_total gt →
  strictly_sorted gt ((D1 ++ D2).*1) →
  before_target gt data 0 D1 → stops_at gt data D2 →
  data ∉ (D1 ++ D2).*1 →
  Forall (λ c : column, gt data c.1 = true) D1 ∧
  Forall (λ c : column, gt c.1 data = true) D2.
Proof.
  intros Htr Htot Hs Hbt Hst Hnin.
  destruct (sorted_split gt data D1 D2 Htr Hs Hbt Hst) as [HD1 HD2].
  split; [done|]. apply Forall_forall. intros c Hc.
  rewrite Forall_forall in HD2. specialize (HD2 _ Hc).
  destruct (Htot c.1 data) as [?|?]; [|done|congruence].
  intros E. apply Hnin. rewrite <- E, fmap_app. apply elem_of_app. right.
  by apply list_elem_of_fmap_2.
Qed.

Section Calls.

Variable coins : nat → bool.

Lemma insert_ordered w sl H cols data (k : nat) fuel :
  ordered w sl H cols →
  gt_strict_total (_gt_func sl) →
  heads_then_tails coins w k →
  (length cols + length H + k + 2 ≤ fuel)%nat →
  (data ∈ cols.*1 ∧
   skip_list_insert coins fuel sl data w = Some ((0, sl), w)) ∨
  ((data ∉ cols.*1) ∧
   ∃ w' H0 Hnew D1 D2 newc,
     skip_list_insert coins fuel sl data w =
       Some ((1, SkipList (_first_node sl) (_gt_func sl) (_size sl + 1)), w') ∧
     cols = D1 ++ D2 ∧ H = H0 ++ [_first_node sl] ∧
     Forall (λ c : column, _gt_func sl data c.1 = true) D1 ∧
     Forall (λ c : column, _gt_func sl c.1 data = true) D2 ∧
     ordered w' (SkipList (_first_node sl) (_gt_func sl) (_size sl + 1))
       (H0 ++ Hnew ++ [_first_node sl]) (D1 ++ (data, newc) :: D2) ∧
     length newc = S k ∧ length Hnew = (S k - length H)%nat ∧
     flips w' = (flips w + S k)%nat ∧ freed w' = freed w).
Proof.
  intros (Hrep & Hs & Hsize) (Hirr & Htr & Htot) [Hheads Htails] Hfuel.
  destruct w as [m fl fr]. simpl in *.
  destruct (skip_list_insert_spec coins m fl fr sl H cols data k fuel
              Hrep Hheads Htails Hfuel)
    as (D1 & D2 & -> & Hbt & Hst & [(c & D & -> & Hc & Hr)|[Hnd Hr]]).
  { left. split; [|done]. rewrite fmap_app, fmap_cons, Hc. set_solver. }
  right.
  assert (data ∉ (D1 ++ D2).*1) as Hnin.
  { intros Hin.
    destruct (sorted_found _ _ _ _ Hirr Htr Hs Hbt Hst Hin) as (c & D & -> & E).
    by eapply Hnd. }
  split; [done|].
  destruct Hr as (m' & H0 & Hnew & newc & -> & Hr & Hl & HlH & Hwf').
  destruct (sorted_before_after _ data D1 D2 Htr Htot Hs Hbt Hst Hnin)
    as [HD1 HD2].
  exists (World m' (fl + k + 1) fr), H0, Hnew, D1, D2, newc.
  split; [exact Hr|]. split; [done|]. split; [done|]. split; [done|].
  split; [done|]. split.
  - split; [split; [by rewrite !last_app|done]|]. simpl. split.
    + by apply sorted_insert.
    + rewrite Hsize, !length_app. simpl. lia.
  - split; [done|]. rewrite length_app. simpl.
    split; [lia|]. split; [lia|done].
Qed.

End Calls.

Lemma remove_ordered w sl H cols data fuel :
  ordered w sl H cols →
  gt_irreflexive (_gt_func sl) → gt_transitive (_gt_func sl) →
  (length cols + length H + 2 ≤ fuel)%nat →
  ((data ∉ cols.*1) ∧ skip_list_remove fuel sl data w = Some ((0, sl), w)) ∨
  (∃ w' top' H1 H2 D1 c D,
     skip_list_remove fuel sl data w =
       Some ((1, SkipList top' (_gt_func sl) (_size sl - 1)), w') ∧
     cols = D1 ++ c :: D ∧ c.1 = data ∧ H = H1 ++ H2 ∧
     ordered w' (SkipList top' (_gt_func sl) (_size sl - 1)) H1 (D1 ++ D) ∧
     top_used H1 (D1 ++ D) ∧
     flips w' = flips w ∧ freed w' = H2 ++ c.2 ++ freed w).
Proof.
  intros (Hrep & Hs & Hsize) Hirr Htr Hfuel.
  destruct w as [m fl fr]. simpl in *.
  destruct (skip_list_remove_spec m fl fr sl H cols data fuel Hrep Hfuel)
    as (D1 & D2 & -> & Hbt & Hst & [[Hnd Hr]|Hr]).
  - left. split; [|done]. intros Hin.
    destruct (sorted_found _ _ _ _ Hirr Htr Hs Hbt Hst Hin) as (c & D & -> & E).
    by eapply Hnd.
  - right. destruct Hr as (c & D & m' & H1 & H2 & top' & -> & Hc & -> & Hr
                           & Htop' & Hwf' & Hused).
    exists (World m' fl (H2 ++ c.2 ++ fr)), top', H1, H2, D1, c, D.
    split; [exact Hr|]. split; [done|]. split; [done|]. split; [done|].
    split; [|done]. split; [done|]. simpl. split.
    + by eapply sorted_remove.
    + rewrite Hsize, !length_app. simpl. lia.
Qed.

Lemma contains_ordered w sl H cols data fuel :
  ordered w sl H cols →
  gt_irreflexive (_gt_func sl) → gt_transitive (_gt_func sl) →
  (length cols + length H < fuel)%nat →
  skip_list_contains fuel sl data w =
    Some (if decide (data ∈ cols.*1) then 1 else 0, w).
Proof.
  intros (Hrep & Hs & Hsize) Hirr Htr Hfuel. destruct w as [m fl fr].
  destruct (skip_list_contains_spec m fl fr sl H cols data fuel Hrep Hfuel)
    as (D1 & D2 & -> & Hbt & Hst & Hrun).
  rewrite Hrun. do 2 f_equal.
  destruct (decide (data ∈ (D1 ++ D2).*1)) as [Hin|Hnin].
  - destruct (sorted_found _ _ _ _ Hirr Htr Hs Hbt Hst Hin) as (c & D & -> & E).
    by rewrite decide_True.
  - destruct D2 as [|c D]; [done|].
    rewrite decide_False; [done|]. intros E. apply Hnin.
    rewrite fmap_app, fmap_cons, E. set_solver.
Qed.

(** ** Sequences of calls *)

Lemma skip_list_contains_mono n n' sl data :
  (n ≤ n')%nat →
  mle (skip_list_contains n sl data) (skip_list_contains n' sl data).
Proof.
  intros Hn. unfold skip_list_contains.
  mono_with ltac:(apply find_previous_mono; lia).
Qed.

Lemma run_call_mono coins n n' c sl :
  (n ≤ n')%nat → mle (run_call coins n c sl) (run_call coins n' c sl).
Proof.
  intros Hn. destruct c as [data|data|data]; simpl.
  - by apply skip_list_insert_mono.
  - by apply skip_list_remove_mono.
  - apply mle_bind; [by apply skip_list_contains_mono|]. intros ?.
    apply mle_refl.
Qed.

Lemma run_calls_mono coins n n' cs : ∀ sl,
  (n ≤ n')%nat → mle (run_calls coins n cs sl) (run_calls coins n' cs sl).
Proof.
  induction cs as [|c cs IH]; intros sl Hn; simpl; [apply mle_refl|].
  apply mle_bind; [by apply run_call_mono|]. intros r.
  apply mle_bind; [by apply IH|]. intros ?. apply mle_refl.
Qed.

Lemma run_call_set coins w sl H cols c :
  ordered w sl H cols → top_used H cols →
  gt_strict_total (_gt_func sl) → fair coins →
  ∃ (n0 : nat) sl' w' H' cols',
    run_call coins n0 c sl w =
      Some (((set_call (list_to_set (cols.*1)) c).1, sl'), w') ∧
    ordered w' sl' H' cols' ∧ top_used H' cols' ∧
    _gt_func sl' = _gt_func sl ∧
    list_to_set (cols'.*1) = (set_call (list_to_set (cols.*1)) c).2.
Proof.
  intros Hord Hused Hgt Hfair.
  pose proof Hgt as (Hirr & Htr & Htot).
  destruct c as [data|data|data]; simpl.
  - destruct (fair_heads_then_tails coins w Hfair) as [k Hk].
    destruct (insert_ordered coins w sl H cols data k _ Hord Hgt Hk
                (Nat.le_refl _))
      as [[Hin Hr]|(Hnin & w' & H0 & Hnew & D1 & D2 & newc & Hr & -> & ->
                    & _ & _ & Hord' & Hl & HlH & _)].
    + eexists _, sl, w, H, cols. rewrite Hr.
      rewrite decide_True by (by apply elem_of_list_to_set). done.
    + eexists _, _, w', _, _. rewrite Hr.
      rewrite decide_False by (by rewrite elem_of_list_to_set).
      split; [done|]. split; [exact Hord'|]. split.
      * eapply top_used_insert; [done|done|].
        rewrite length_app in HlH. simpl in HlH. lia.
      * split; [done|]. simpl. rewrite !fmap_app, fmap_cons.
        rewrite !list_to_set_app_L, list_to_set_cons. simpl. set_solver.
  - destruct (remove_ordered w sl H cols data _ Hord Hirr Htr (Nat.le_refl _))
      as [[Hnin Hr]|(w' & top' & H1 & H2 & D1 & c & D & Hr & -> & Hc & ->
                     & Hord' & Hused' & _)].
    + eexists _, sl, w, H, cols. rewrite Hr.
      rewrite decide_False by (by rewrite elem_of_list_to_set). done.
    + destruct Hord as (_ & Hs & _).
      pose proof (sorted_NoDup _ _ Hirr Hs) as Hnd.
      rewrite fmap_app, fmap_cons, Hc in Hnd.
      apply NoDup_app in Hnd as (_ & Hd1 & Hd2).
      apply NoDup_cons in Hd2 as [Hd2 _].
      eexists _, _, w', H1, _. rewrite Hr.
      rewrite decide_True
        by (rewrite elem_of_list_to_set, fmap_app, fmap_cons, Hc; set_solver).
      split; [done|]. split; [exact Hord'|]. split; [done|].
      split; [done|]. simpl. rewrite !fmap_app, fmap_cons, Hc.
      rewrite !list_to_set_app_L, list_to_set_cons.
      assert (data ∉ D1.*1) by (intros ?; by eapply Hd1; [|left]).
      set_solver.
  - eexists (S (length cols + length H)), sl, w, H, cols.
    rewrite (run_bind _ _ _ _ _
               (contains_ordered w sl H cols data _ Hord Hirr Htr
                  (Nat.lt_succ_diag_r _))).
    split; [|done]. unfold ret. do 3 f_equal.
    destruct (decide (data ∈ cols.*1)), (decide (data ∈ list_to_set (cols.*1)));
      try done; set_solver.
Qed.

Lemma run_calls_set coins cs : ∀ w sl H cols,
  ordered w sl H cols → top_used H cols →
  gt_strict_total (_gt_func sl) → fair coins →
  ∃ (n0 : nat) sl' w' H' cols',
    (∀ fuel, (n0 ≤ fuel)%nat →
       run_calls coins fuel cs sl w =
         Some (((set_calls (list_to_set (cols.*1)) cs).1, sl'), w')) ∧
    ordered w' sl' H' cols' ∧ top_used H' cols' ∧
    _gt_func sl' = _gt_func sl ∧
    list_to_set (cols'.*1) = (set_calls (list_to_set (cols.*1)) cs).2.
Proof.
  induction cs as [|c cs IH]; intros w sl H cols Hord Hused Hgt Hfair.
  - exists 0%nat, sl, w, H, cols. done.
  - destruct (run_call_set coins w sl H cols c Hord Hused Hgt Hfair)
      as (n1 & sl1 & w1 & H1 & cols1 & Hr1 & Hord1 & Hused1 & Hgt1 & Hset1).
    destruct (IH w1 sl1 H1 cols1 Hord1 Hused1) as
      (n2 & sl2 & w2 & H2 & cols2 & Hr2 & Hord2 & Hused2 & Hgt2 & Hset2);
      [by rewrite Hgt1|done|].
    exists (n1 `max` n2)%nat, sl2, w2, H2, cols2.
    split; [|split; [done|split; [done|split; [congruence|]]]].
    + intros fuel Hfuel. simpl.
      rewrite (run_bind _ _ _ _ _
                 (run_call_mono coins n1 fuel c sl ltac:(lia) _ _ Hr1)).
      simpl. rewrite (run_bind _ _ _ _ _ (Hr2 fuel ltac:(lia))).
      simpl. unfold ret. by rewrite Hset1.
    + simpl. by rewrite <- Hset1.
Qed.

(** ** The states of a history *)

(** Besides [reachable_inv]: the top level of a skip list of a history is
    in use. *)
Lemma reachable_used coins w sl :
  reachable coins w sl →
  ∃ H cols, represents w sl H cols ∧ top_used H cols ∧
    _size sl = Z.of_nat (length cols) ∧
    (gt_transitive (_gt_func sl) → gt_total (_gt_func sl) →
     strictly_sorted (_gt_func sl) (cols.*1)).
Proof.
  induction 1 as [gt w0 sl w Hrun
                 |w sl fuel data r sl' w' _ IH Hrun
                 |w sl fuel data r sl' w' _ IH Hrun].
  - destruct w0 as [m fl fr].
    destruct (skip_list_create_spec gt m fl fr) as [Hc Hrep].
    rewrite Hc in Hrun. injection Hrun as <- <-.
    eexists _, []. split; [exact Hrep|]. split; [by left|]. split; [done|].
    intros _ _. constructor.
  - destruct IH as (H & cols & Hrep & Hused & Hsize & Hsorted).
    destruct (skip_list_insert_inv coins w sl H cols data fuel r sl' w' Hrep Hrun)
      as [(-> & -> & ->)|(-> & k & D1 & D2 & H0 & Hnew & newc & _ & -> & Hbt & Hst
                           & Hnd & -> & -> & Hrep' & Hl & HlH & _)].
    + eauto 10.
    + eexists _, _. split; [exact Hrep'|]. split.
      { by eapply top_used_insert. }
      simpl. split.
      * rewrite Hsize, !length_app. simpl. lia.
      * intros Ht Htot. apply sorted_insert; auto.
  - destruct IH as (H & cols & Hrep & Hused & Hsize & Hsorted).
    destruct (skip_list_remove_inv w sl H cols data fuel r sl' w' Hrep Hrun)
      as (D1 & D2 & -> & Hbt & Hst &
          [(-> & -> & -> & _)|(-> & c & D & H1 & H2 & -> & Hc & -> & [top' ->]
                               & Hrep' & Hused' & _)]).
    + eauto 10.
    + eexists _, _. split; [exact Hrep'|]. split; [exact Hused'|].
      simpl. split.
      * rewrite Hsize, !length_app. simpl. lia.
      * intros Ht Htot. eapply sorted_remove; auto.
Qed.

(** The links of the topmost header. *)
Lemma top_header m H cols top :
  wf m H cols → last H = Some top →
  ∃ nd, m !! top = Some nd ∧
    _prev_node nd = None ∧ _prev_layer nd = None ∧ _data nd = 0 ∧
    _next_node nd = hd_or (lev (pred (length H)) cols) None ∧
    _next_layer nd = match pred (length H) with
                     | O => None
                     | S j => H !! j
                     end.
Proof.
  intros (_ & _ & Hrows & Hh & _) Htop.
  rewrite last_lookup in Htop.
  destruct (Hrows _ _ Htop) as [(nd & Hnd & Hp & Hn) _].
  destruct (Hh _ _ Htop) as (nd' & Hnd' & Hu & Hd & Hv).
  assert (nd' = nd) as -> by congruence.
  exists nd. split; [done|]. split; [done|]. split.
  { rewrite Hu. unfold up_full. apply lookup_ge_None_2.
    apply lookup_lt_Some in Htop. lia. }
  done.
Qed.

(** * The search for a node *)

(** When the first step forward is not taken, [_find_node] returns what
    [_find_previous] returns. *)
Lemma find_node_no_step fuel gt x data m fl fr t r :
  m !! x = Some t →
  match _next_node t with
  | None => True
  | Some nx => ∃ n, m !! nx = Some n ∧ gt data (_data n) = false
  end →
  _find_previous (S (S fuel)) gt x data (World m fl fr) = Some r →
  _find_node (S (S fuel)) gt x data (World m fl fr) = Some r.
Proof.
  intros Ht Hnx Hrun. unfold _find_node.
  remember (S fuel) as f' eqn:Ef. cbn [_find_previous] in Hrun.
  rewrite Ef in Hrun at 1. cbn [scan_forward] in Hrun.
  rewrite (run_bind _ _ _ _ _ (load_ok _ _ _ _ _ Ht)).
  rewrite bind_assoc, (run_bind _ _ _ _ _ (load_ok _ _ _ _ _ Ht)) in Hrun.
  destruct (_next_node t) as [nx|] eqn:En.
  - destruct Hnx as (n & Hn & Hgt).
    rewrite bind_assoc, (run_bind _ _ _ _ _ (load_ok _ _ _ _ _ Hn)), Hgt, bind_ret.
    rewrite bind_assoc, (run_bind _ _ _ _ _ (load_ok _ _ _ _ _ Hn)), Hgt, bind_ret
      in Hrun.
    rewrite (run_bind _ _ _ _ _ (load_ok _ _ _ _ _ Ht)).
    rewrite (run_bind _ _ _ _ _ (load_ok _ _ _ _ _ Ht)) in Hrun.
    destruct (_next_layer t) as [down|]; [|done].
    by apply (find_previous_mono gt data f' (S f') down ltac:(lia)).
  - rewrite bind_ret. rewrite bind_ret in Hrun.
    rewrite (run_bind _ _ _ _ _ (load_ok _ _ _ _ _ Ht)).
    rewrite (run_bind _ _ _ _ _ (load_ok _ _ _ _ _ Ht)) in Hrun.
    destruct (_next_layer t) as [down|]; [|done].
    by apply (find_previous_mono gt data f' (S f') down ltac:(lia)).
Qed.

Lemma find_node_step fuel gt x data m fl fr t nx n :
  m !! x = Some t → _next_node t = Some nx → m !! nx = Some n →
  gt data (_data n) = true →
  _find_node fuel gt x data (World m fl fr) = Some (nx, World m fl fr).
Proof.
  intros Ht Hnx Hn Hgt. unfold _find_node.
  rewrite (run_bind _ _ _ _ _ (load_ok _ _ _ _ _ Ht)), Hnx.
  by rewrite bind_assoc, (run_bind _ _ _ _ _ (load_ok _ _ _ _ _ Hn)), Hgt,
    bind_ret.
Qed.

(** * The printer *)

Lemma bind_unfold {A B} (c : M A) (k : A → M B) w :
  bind c k w = match c w with Some (a, w') => k a w' | None => None end.
Proof. done. Qed.

(** ** The walk along level 0 *)

Lemma print_skip_spec gt m fl fr p (l0 : list loc) (d0 : list Z) cur ndc :
  dseg m p l0 None →
  Forall2 (λ x v, payload m x = Some v) l0 d0 →
  m !! cur = Some ndc →
  ∀ fuel (q : nat) x,
    l0 !! q = Some x → (length l0 - q ≤ fuel)%nat →
    print_skip fuel gt cur x (World m fl fr) =
      (n ← skip_count gt (_data ndc) (drop (S q) d0);
       y ← l0 !! (q + n)%nat;
       Some ((replicate n dash, y), World m fl fr)).
Proof.
  intros Hseg Hpay Hcur.
  induction fuel as [|fuel IH]; intros q x Hx Hfuel.
  { apply lookup_lt_Some in Hx. lia. }
  destruct (dseg_lookup _ _ _ _ _ Hseg Hx) as (p' & nd & Hnd & _ & Hnx).
  cbn [print_skip].
  rewrite (run_bind _ _ _ _ _ (load_ok _ _ _ _ _ Hcur)).
  rewrite (run_bind _ _ _ _ _ (load_ok _ _ _ _ _ Hnd)), Hnx.
  destruct (l0 !! S q) as [nx|] eqn:Enx.
  - destruct (Forall2_lookup_l _ _ _ _ _ Hpay Enx) as (pv & Hpv & Hnxp).
    unfold payload in Hnxp. destruct (m !! nx) as [n|] eqn:En; [|done].
    injection Hnxp as Hd.
    rewrite (run_bind _ _ _ _ _ (load_ok _ _ _ _ _ En)), Hd.
    rewrite (drop_S _ _ _ Hpv). simpl.
    destruct (gt (_data ndc) pv).
    + rewrite bind_unfold, (IH (S q) nx Enx ltac:(lia)).
      destruct (skip_count gt (_data ndc) (drop (S (S q)) d0)) as [n'|]; [|done].
      simpl. replace (q + S n')%nat with (S q + n')%nat by lia. simpl.
      by destruct (l0 !! S (q + n')%nat).
    + simpl. by rewrite Nat.add_0_r, Hx.
  - rewrite drop_ge; [done|].
    apply lookup_ge_None_1 in Enx. apply Forall2_length in Hpay. lia.
Qed.

(** ** The rows *)

Lemma row_payloads m H cols (i : nat) hd :
  wf m H cols → H !! i = Some hd →
  Forall2 (λ x v, payload m x = Some v) (hd :: lev i cols) (0 :: levd i cols).
Proof.
  intros Hwf Hhd. constructor.
  - destruct Hwf as (_ & _ & _ & Hh & _).
    destruct (Hh _ _ Hhd) as (nd & Hnd & _ & _ & Hd).
    unfold payload. by rewrite Hnd, <- Hd.
  - apply mapM_Some. by eapply payloads_lev.
Qed.

Lemma header_down m H cols (i : nat) hd :
  wf m H cols → H !! i = Some hd →
  ∃ nd, m !! hd = Some nd ∧
    _next_layer nd = match i with O => None | S j => H !! j end.
Proof.
  intros (_ & _ & _ & Hh & _) Hhd.
  destruct (Hh _ _ Hhd) as (nd & Hnd & _ & Hd & _). eauto.
Qed.

Lemma length_levd (i : nat) cols : length (levd i cols) = length (lev i cols).
Proof.
  induction cols as [|c cs IH]; [done|].
  destruct (decide (i < length c.2)%nat) as [Hi|Hi].
  - rewrite levd_cons_lt by done.
    destruct (lookup_lt_is_Some_2 c.2 i Hi) as [x Hx].
    rewrite (lev_cons_Some _ _ _ _ Hx). simpl. by rewrite IH.
  - rewrite levd_cons_ge by lia.
    rewrite lev_cons_None; [done|]. apply lookup_ge_None_2. lia.
Qed.

Lemma skip_count_lt gt c l (n : nat) :
  skip_count gt c l = Some n → (n < length l)%nat.
Proof.
  revert n. induction l as [|p l IH]; intros n; [done|]. simpl.
  destruct (gt c p); [|intros [= <-]; lia].
  destruct (skip_count gt c l) as [n'|]; [|done].
  intros [= <-]. specialize (IH n' eq_refl). lia.
Qed.

(** One round of the loop, at a node [cur] of level [i] with payload [c]:
    the walk along level 0 and the node's text; [k] is the rest of the
    round. *)
Lemma print_rows_round gt m fl fr H cols h0 (i : nat) hd
    (j : nat) cur c (q : nat) x fuel :
  wf m H cols → H !! 0%nat = Some h0 → H !! i = Some hd →
  (hd :: lev i cols) !! j = Some cur →
  (0 :: levd i cols) !! j = Some c →
  (h0 :: lev 0 cols) !! q = Some x →
  (length cols < fuel)%nat →
  print_rows (S fuel) gt h0 hd (Some cur) x (World m fl fr) =
    match skip_count gt c (drop q (levd 0 cols)) with
    | None => None
    | Some n =>
        match (h0 :: lev 0 cols) !! (q + n)%nat with
        | None => None
        | Some y =>
            let text := replicate n dash ++ [arrow c] in
            match (hd :: lev i cols) !! S j with
            | Some cur' =>
                (let* rest := print_rows fuel gt h0 hd (Some cur') y in
                 ret (text ++ rest)) (World m fl fr)
            | None =>
                match i with
                | S i' =>
                    match H !! i' with
                    | Some down =>
                        (let* rest := print_rows fuel gt h0 down (Some down)
                                        h0 in
                         ret (text ++ newline :: rest)) (World m fl fr)
                    | None => None
                    end
                | O =>
                    (let* rest := print_rows fuel gt h0 hd None y in
                     ret (text ++ rest)) (World m fl fr)
                end
            end
        end
    end.
Proof.
  intros Hwf Hh0 Hhd Hcur Hc Hx Hfuel.
  pose proof Hwf as (_ & _ & Hrows & _).
  pose proof (Hrows _ _ Hh0) as Hrow0.
  pose proof (row_payloads _ _ _ _ _ Hwf Hh0) as Hpay0.
  pose proof (Hrows _ _ Hhd) as Hrow.
  pose proof (row_payloads _ _ _ _ _ Hwf Hhd) as Hpay.
  destruct (header_down _ _ _ _ _ Hwf Hhd) as (ndh & Hndh & Hdown).
  destruct (Forall2_lookup_l _ _ _ _ _ Hpay Hcur) as (c' & Hc' & Hcp).
  assert (c' = c) as -> by congruence.
  unfold payload in Hcp. destruct (m !! cur) as [ndc|] eqn:Endc; [|done].
  injection Hcp as Hcd.
  destruct (dseg_lookup _ _ _ _ _ Hrow Hcur) as (p' & ndc' & Hndc' & _ & Hnx).
  assert (ndc' = ndc) as -> by congruence.
  cbn [print_rows]. rewrite bind_ret, bind_assoc, bind_unfold.
  rewrite (print_skip_spec gt m fl fr _ _ _ cur ndc Hrow0 Hpay0 Endc
             fuel q x Hx)
    by (pose proof (length_lev 0 cols); simpl; lia).
  rewrite Hcd. cbn [drop].
  destruct (skip_count gt c (drop q (levd 0 cols))) as [n|]; [|done].
  cbn [mbind option_bind].
  destruct ((h0 :: lev 0 cols) !! (q + n)%nat) as [y|]; [|done].
  cbn [mbind option_bind].
  rewrite bind_assoc, (run_bind _ _ _ _ _ (load_ok _ _ _ _ _ Endc)), bind_ret.
  rewrite Hcd, Hnx. cbn [fst snd].
  destruct ((hd :: lev i cols) !! S j) as [cur'|]; [done|].
  rewrite (run_bind _ _ _ _ _ (load_ok _ _ _ _ _ Hndh)), Hdown.
  destruct i as [|i']; [reflexivity|].
  destruct (lookup_lt_is_Some_2 H i') as [down Hd].
  { apply lookup_lt_Some in Hhd. lia. }
  by rewrite Hd.
Qed.

(** After the last node of level 0 the loop ends. *)
Lemma print_rows_end gt m fl fr H cols h0 y fuel :
  wf m H cols → H !! 0%nat = Some h0 →
  print_rows (S fuel) gt h0 h0 None y (World m fl fr) =
    Some ([], World m fl fr).
Proof.
  intros Hwf Hh0.
  destruct (header_down _ _ _ _ _ Hwf Hh0) as (ndh & Hndh & Hdown).
  cbn [print_rows].
  rewrite bind_assoc, (run_bind _ _ _ _ _ (load_ok _ _ _ _ _ Hndh)), bind_ret.
  by rewrite Hdown.
Qed.

Lemma print_rows_spec gt m fl fr H cols h0 :
  wf m H cols → H !! 0%nat = Some h0 →
  ∀ (i : nat) hd, H !! i = Some hd →
  ∀ (r j : nat) cur (q : nat) x fuel,
    (hd :: lev i cols) !! j = Some cur →
    r = (length (lev i cols) - j)%nat →
    (h0 :: lev 0 cols) !! q = Some x →
    (r + i * (length cols + 2) + length cols + 3 ≤ fuel)%nat →
    print_rows fuel gt h0 hd (Some cur) x (World m fl fr) =
      (t ← row_text gt (drop q (levd 0 cols)) (drop j (0 :: levd i cols));
       match levels_below i cols with
       | [] => Some (t, World m fl fr)
       | _ :: _ =>
           ts ← rows_text gt (levd 0 cols) (levels_below i cols);
           Some (t ++ newline :: ts, World m fl fr)
       end).
Proof.
  intros Hwf Hh0.
  assert (∀ (i : nat) hd (j : nat) cur, H !! i = Some hd →
            (hd :: lev i cols) !! j = Some cur →
            ∃ c, (0 :: levd i cols) !! j = Some c) as Hpayload.
  { intros i hd j cur Hhd Hcur.
    destruct (Forall2_lookup_l _ _ _ _ _
                (row_payloads _ _ _ _ _ Hwf Hhd) Hcur) as (c & ? & _).
    eauto. }
  induction i as [|i IHi]; intros hd Hhd;
    (induction r as [|r IHr]; intros j cur q x fuel Hcur Hr Hx Hfuel;
     (destruct fuel as [|fuel]; [lia|]);
     destruct (Hpayload _ _ _ _ Hhd Hcur) as [c Hc];
     rewrite (print_rows_round gt m fl fr H cols h0 _ hd j cur c q x fuel)
       by (done || lia);
     rewrite (drop_S _ _ _ Hc); cbn [row_text];
     (destruct (skip_count gt c (drop q (levd 0 cols))) as [n|] eqn:En;
      [|done]); cbn [mbind option_bind];
     (destruct ((h0 :: lev 0 cols) !! (q + n)%nat) as [y|] eqn:Ey;
      [|apply lookup_ge_None_1 in Ey; apply skip_count_lt in En;
        rewrite length_drop in En; simpl in Ey;
        rewrite <- length_levd in Ey; lia]);
     cbv zeta; rewrite drop_drop).
  - (* level 0, the last node *)
    rewrite lookup_ge_None_2 by (apply lookup_lt_Some in Hcur; simpl in *; lia).
    assert (hd = h0) as -> by congruence.
    destruct fuel as [|fuel]; [lia|].
    rewrite (run_bind _ _ _ _ _ (print_rows_end gt m fl fr H cols h0 y _ Hwf Hh0)).
    rewrite (drop_ge (0 :: levd 0 cols)) by (simpl; rewrite length_levd; lia).
    simpl. unfold ret. by rewrite !app_nil_r.
  - (* level 0, a node before the last *)
    destruct (lookup_lt_is_Some_2 (hd :: lev 0 cols) (S j)) as [cur' Hcur'];
      [simpl; lia|].
    rewrite Hcur', bind_unfold.
    rewrite (IHr (S j) cur' (q + n)%nat y fuel) by (done || lia).
    cbn [levels_below].
    destruct (row_text gt (drop (q + n) (levd 0 cols))
                (drop (S j) (0 :: levd 0 cols))) as [t|]; [|done].
    simpl. unfold ret. by rewrite <- app_assoc.
  - (* a higher level, the last node *)
    rewrite lookup_ge_None_2 by (apply lookup_lt_Some in Hcur; simpl in *; lia).
    destruct (lookup_lt_is_Some_2 H i) as [down Hd].
    { apply lookup_lt_Some in Hhd. lia. }
    rewrite Hd, bind_unfold.
    rewrite (IHi down Hd (length (lev i cols)) 0%nat down 0%nat h0 fuel)
      by (done || (pose proof (length_lev i cols); lia)).
    rewrite (drop_ge (0 :: levd (S i) cols))
      by (simpl; rewrite length_levd; lia).
    change (row_text gt (drop (q + n) (levd 0 cols)) [])
      with (Some ([] : list string)).
    change (drop 0 (levd 0 cols)) with (levd 0 cols).
    change (drop 0 (0 :: levd i cols)) with (0 :: levd i cols).
    cbn [levels_below rows_text].
    destruct (row_text gt (levd 0 cols) (0 :: levd i cols)) as [t|]; [|done].
    cbn [mbind option_bind].
    destruct (levels_below i cols) as [|r0 rs].
    + unfold ret. simpl. by rewrite <- ?app_assoc.
    + destruct (rows_text gt (levd 0 cols) (r0 :: rs)) as [ts|]; [|done].
      unfold ret. simpl. by rewrite <- ?app_assoc.
  - (* a higher level, a node before the last *)
    destruct (lookup_lt_is_Some_2 (hd :: lev (S i) cols) (S j)) as [cur' Hcur'];
      [simpl; lia|].
    rewrite Hcur', bind_unfold.
    rewrite (IHr (S j) cur' (q + n)%nat y fuel) by (done || lia).
    destruct (row_text gt (drop (q + n) (levd 0 cols))
                (drop (S j) (0 :: levd (S i) cols))) as [t|]; [|done].
    cbn [mbind option_bind levels_below].
    destruct (rows_text gt (levd 0 cols) (levd i cols :: levels_below i cols))
      as [ts|]; [|done].
    simpl. unfold ret. by rewrite <- !app_assoc.
Qed.

(** ** The whole printer *)

Lemma to_level0_spec m fl fr H cols h0 :
  wf m H cols → H !! 0%nat = Some h0 →
  ∀ (i : nat) hd fuel, H !! i = Some hd → (i < fuel)%nat →
    to_level0 fuel hd (World m fl fr) = Some (h0, World m fl fr).
Proof.
  intros Hwf Hh0.
  induction i as [|i IH]; intros hd fuel Hhd Hfuel;
    (destruct fuel as [|fuel]; [lia|]);
    destruct (header_down _ _ _ _ _ Hwf Hhd) as (nd & Hnd & Hdown);
    cbn [to_level0];
    rewrite (run_bind _ _ _ _ _ (load_ok _ _ _ _ _ Hnd)), Hdown.
  - unfold ret. congruence.
  - destruct (lookup_lt_is_Some_2 H i) as [down Hd].
    { apply lookup_lt_Some in Hhd. lia. }
    rewrite Hd. apply IH; [done|lia].
Qed.

Lemma last_levels_below (n : nat) cols :
  last (levels_below (S n) cols) = Some (levd 0 cols).
Proof.
  induction n as [|n IH]; [done|].
  change (levels_below (S (S n)) cols)
    with (levd (S n) cols :: levels_below (S n) cols).
  rewrite last_cons, IH. done.
Qed.

(** With enough fuel, the printer prints [print_text], and it fails where
    [print_text] is undefined. *)
Lemma skip_list_print_spec w sl H cols fuel :
  represents w sl H cols →
  (length H * (length cols + 2) + length cols + 3 ≤ fuel)%nat →
  skip_list_print fuel sl w =
    (t ← print_text (_gt_func sl) (levels_below (length H) cols);
     Some (t, w)).
Proof.
  intros [Htop Hwf] Hfuel. destruct w as [m fl fr]. simpl in *.
  destruct (wf_header0 _ _ _ Hwf) as [h0 Hh0].
  destruct (top_header _ _ _ _ Hwf Htop) as (nd & Hnd & _ & _ & _ & Hn & _).
  apply last_lookup_pred in Htop.
  assert (0 < length H)%nat as Hpos by (apply lookup_lt_Some in Htop; lia).
  unfold skip_list_print.
  rewrite (run_bind _ _ _ _ _
             (to_level0_spec m fl fr H cols h0 Hwf Hh0 _ _ fuel Htop
                ltac:(nia))).
  rewrite (run_bind _ _ _ _ _ (load_ok _ _ _ _ _ Hnd)), Hn.
  destruct (length H) as [|top] eqn:EH; [lia|]. simpl in Htop, Hn.
  change (Init.Nat.pred (S top)) with top.
  unfold print_text. rewrite last_levels_below. cbn [levels_below default].
  pose proof (length_levd top cols) as Hlen.
  destruct (lev top cols) as [|x rest] eqn:Elev.
  - destruct (levd top cols); [reflexivity|simpl in Hlen; lia].
  - destruct (levd top cols) as [|p ps] eqn:Elevd; [simpl in Hlen; lia|].
    cbn [hd_or]. rewrite bind_unfold.
    rewrite (print_rows_spec (_gt_func sl) m fl fr H cols h0 Hwf Hh0 top
               (_first_node sl) Htop (length (lev top cols)) 0%nat
               (_first_node sl) 0%nat h0 fuel)
      by (done || lia || (pose proof (length_lev top cols); nia)).
    change (drop 0 (levd 0 cols)) with (levd 0 cols).
    change (drop 0 (0 :: levd top cols)) with (0 :: levd top cols).
    rewrite Elevd. cbn [rows_text]. unfold id.
    destruct (row_text (_gt_func sl) (levd 0 cols) (0 :: p :: ps)) as [t|];
      [|done].
    cbn [mbind option_bind].
    destruct (levels_below top cols) as [|r0 rs]; [done|].
    by destruct (rows_text (_gt_func sl) (levd 0 cols) (r0 :: rs)).
Qed.

(** ** More fuel *)

Lemma to_level0_mono : ∀ n n' x,
  (n ≤ n')%nat → mle (to_level0 n x) (to_level0 n' x).
Proof.
  induction n as [|n IH]; intros n' x Hn; [by intros w r|].
  destruct n' as [|n']; [lia|]. cbn [to_level0]. mono_tac IH.
Qed.

Lemma print_skip_mono gt : ∀ n n' c x,
  (n ≤ n')%nat → mle (print_skip n gt c x) (print_skip n' gt c x).
Proof.
  induction n as [|n IH]; intros n' c x Hn; [by intros w r|].
  destruct n' as [|n']; [lia|]. cbn [print_skip]. mono_tac IH.
Qed.

Lemma print_rows_mono gt h0 : ∀ n n' cl cn x,
  (n ≤ n')%nat →
  mle (print_rows n gt h0 cl cn x) (print_rows n' gt h0 cl cn x).
Proof.
  induction n as [|n IH]; intros n' cl cn x Hn; [by intros w r|].
  destruct n' as [|n']; [lia|]. cbn [print_rows].
  apply mle_bind; [apply mle_refl|]. intros [|]; [|apply mle_refl].
  apply mle_bind.
  - destruct cn; [|apply mle_refl].
    apply mle_bind; [apply print_skip_mono; lia|]. intros ?. apply mle_refl.
  - intros [[text cn'] x']. mono_tac IH.
Qed.

Lemma skip_list_print_mono n n' sl :
  (n ≤ n')%nat → mle (skip_list_print n sl) (skip_list_print n' sl).
Proof.
  intros Hn. unfold skip_list_print.
  mono_with ltac:(first [apply to_level0_mono; lia
                        | apply print_rows_mono; lia]).
Qed.

(** ** When the text is defined *)

Lemma skip_count_none gt c l :
  Forall (λ p, gt c p = true) l → skip_count gt c l = None.
Proof. induction 1 as [|p l Hp _ IH]; [done|]. simpl. by rewrite Hp, IH. Qed.

Lemma skip_count_some gt c l :
  Exists (λ p, gt c p = false) l → is_Some (skip_count gt c l).
Proof.
  induction 1 as [p l Hp|p l _ IH]; simpl.
  - by rewrite Hp.
  - destruct (gt c p); [|done]. destruct IH as [n ->]. done.
Qed.

Lemma gt_asymmetric gt a b :
  gt_irreflexive gt → gt_transitive gt → gt a b = true → gt b a = false.
Proof.
  intros Hirr Htr Hab. destruct (gt b a) eqn:Hba; [|done].
  pose proof (Hirr a) as Ha. by rewrite (Htr _ _ _ Hab Hba) in Ha.
Qed.

(** In a strictly increasing [pre ++ rem], a member can be compared with
    the front of [rem] without passing the end of [rem]. *)
Lemma skip_count_member gt c (pre rem : list Z) :
  gt_irreflexive gt → gt_transitive gt →
  strictly_sorted gt (pre ++ rem) → rem ≠ [] → c ∈ pre ++ rem →
  is_Some (skip_count gt c rem).
Proof.
  intros Hirr Htr Hs Hne Hc. apply skip_count_some.
  apply elem_of_app in Hc as [Hc|Hc].
  - destruct rem as [|p rem]; [done|]. left.
    apply sorted_app_inv in Hs as (_ & _ & Hlt).
    apply (gt_asymmetric gt); [done|done|]. apply Hlt; [done|by left].
  - apply Exists_exists. exists c. split; [done|apply Hirr].
Qed.

Lemma row_text_some gt (row : list Z) : ∀ pre rem,
  gt_irreflexive gt → gt_transitive gt →
  strictly_sorted gt (pre ++ rem) → rem ≠ [] →
  Forall (λ c, c ∈ pre ++ rem) row →
  is_Some (row_text gt rem row).
Proof.
  induction row as [|c row IH]; intros pre rem Hirr Htr Hs Hne Hrow; [done|].
  apply Forall_cons in Hrow as [Hc Hrow]. cbn [row_text].
  destruct (skip_count_member gt c pre rem Hirr Htr Hs Hne Hc) as [n Hn].
  rewrite Hn. cbn [mbind option_bind].
  destruct (IH (pre ++ take n rem) (drop n rem)) as [t Ht]; try done.
  - by rewrite <- app_assoc, take_drop.
  - apply skip_count_lt in Hn. intros E. apply (f_equal length) in E.
    rewrite length_drop in E. simpl in E. lia.
  - by rewrite <- app_assoc, take_drop.
  - by rewrite Ht.
Qed.

Lemma rows_text_some gt l0 (rows : list (list Z)) :
  gt_irreflexive gt → gt_transitive gt →
  strictly_sorted gt l0 →
  Exists (λ p, gt 0 p = false) l0 →
  Forall (λ row, Forall (λ c, c ∈ l0) row) rows →
  is_Some (rows_text gt l0 rows).
Proof.
  intros Hirr Htr Hs Hex.
  induction 1 as [|row rows Hrow _ IH]; [done|].
  cbn [rows_text row_text].
  destruct (skip_count_some gt 0 l0 Hex) as [n Hn].
  rewrite Hn. cbn [mbind option_bind].
  destruct (row_text_some gt row (take n l0) (drop n l0)) as [t Ht]; try done.
  - by rewrite take_drop.
  - apply skip_count_lt in Hn. intros E. apply (f_equal length) in E.
    rewrite length_drop in E. simpl in E. lia.
  - by rewrite take_drop.
  - rewrite Ht. cbn [mbind option_bind].
    destruct rows; [done|]. destruct IH as [ts ->]. done.
Qed.

Lemma levd_in_level0 (i : nat) cols c :
  Forall (λ c : column, c.2 ≠ []) cols → c ∈ levd i cols → c ∈ cols.*1.
Proof.
  intros Hne Hc. rewrite <- (levd_zero cols Hne).
  induction i as [|i IH]; [done|].
  apply IH. eapply elem_of_sublist; [done|apply levd_sublist].
Qed.

Lemma levels_below_in_level0 (n : nat) cols :
  Forall (λ c : column, c.2 ≠ []) cols →
  Forall (λ row, Forall (λ c, c ∈ cols.*1) row) (levels_below n cols).
Proof.
  intros Hne. induction n as [|n IH]; [constructor|].
  cbn [levels_below]. constructor; [|done].
  apply Forall_forall. intros c Hc. by eapply levd_in_level0.
Qed.

(** The printer returns when the null pointer is not greater than some
    stored payload. *)
Lemma skip_list_print_defined w sl H cols :
  represents w sl H cols →
  strictly_sorted (_gt_func sl) (cols.*1) →
  gt_irreflexive (_gt_func sl) → gt_transitive (_gt_func sl) →
  cols = [] ∨ Exists (λ p, _gt_func sl 0 p = false) (cols.*1) →
  ∃ (n0 : nat) text,
    print_text (_gt_func sl) (levels_below (length H) cols) = Some text ∧
    (cols = [] → text = []) ∧
    ∀ fuel, (n0 ≤ fuel)%nat → skip_list_print fuel sl w = Some (text, w).
Proof.
  intros Hrep Hs Hirr Htr Hnull.
  assert (∃ text, print_text (_gt_func sl) (levels_below (length H) cols) =
                    Some text ∧ (cols = [] → text = [])) as (text & Ht & He).
  { destruct Hrep as [Htop (_ & Hne & _)].
    apply last_lookup_pred in Htop.
    destruct (length H) as [|top] eqn:EH;
      [apply lookup_lt_Some in Htop; lia|].
    unfold print_text. rewrite last_levels_below. cbn [levels_below default].
    destruct (levd top cols) as [|p ps] eqn:Elevd; [by eexists|].
    destruct Hnull as [->|Hex]; [done|].
    destruct (rows_text_some (_gt_func sl) (cols.*1)
                ((p :: ps) :: levels_below top cols) Hirr Htr Hs Hex)
      as [t Ht].
    { rewrite <- Elevd.
      apply (levels_below_in_level0 (S top) cols Hne). }
    unfold id. rewrite (levd_zero cols Hne), Ht. simpl.
    eexists. split; [done|]. intros ->. done. }
  exists (length H * (length cols + 2) + length cols + 3)%nat, text.
  split; [done|]. split; [done|]. intros fuel Hfuel.
  by rewrite (skip_list_print_spec w sl H cols fuel Hrep Hfuel), Ht.
Qed.

(** * More examples *)

Lemma neg_represents : represents neg_world neg_sl neg_H neg_cols.
Proof. check_wf. Qed.

Lemma demo_ordered : ordered demo_world demo_sl demo_H demo_cols.
Proof. split; [exact demo_represents|]. split; [exact demo_sorted|done]. Qed.

(** * The cells of the heap *)

Lemma extends_grow m0 m m' (N N' A : list loc) :
  extends m0 m N →
  same_outside N' m m' →
  Forall (λ x, m !! x = None) A →
  (∀ x, x ∈ N' ↔ x ∈ N ∨ x ∈ A) →
  extends m0 m' N'.
Proof.
  intros [Hfree Hsame] Hs HA HN. rewrite Forall_forall in HA. split.
  - intros x [Hx|Hx]%HN; [by apply Hfree|].
    destruct (decide (x ∈ N)) as [Hin|Hnin]; [by apply Hfree|].
    rewrite <- (Hsame x Hnin). by apply HA.
  - intros x Hx. rewrite (Hs x Hx). apply Hsame. intros Hin. apply Hx, HN.
    by left.
Qed.

Lemma extends_shrink m0 m m' (N N' F : list loc) :
  extends m0 m N →
  same_outside N m m' →
  Forall (λ x, m' !! x = None) F →
  (∀ x, x ∈ N ↔ x ∈ N' ∨ x ∈ F) →
  extends m0 m' N'.
Proof.
  intros [Hfree Hsame] Hs HF HN. rewrite Forall_forall in HF. split.
  - intros x Hx. apply Hfree, HN. by left.
  - intros x Hx. destruct (decide (x ∈ N)) as [Hin|Hnin].
    + apply HN in Hin as [?|Hin]; [done|].
      rewrite (HF x Hin). symmetry. apply Hfree, HN. by right.
    + rewrite (Hs x Hnin). by apply Hsame.
Qed.

(** The heap of a skip list of a history is the heap before
    [skip_list_create] and the nodes of the list. *)
Lemma history_inv coins m0 w sl :
  history coins m0 w sl →
  reachable coins w sl ∧
  ∃ H cols, represents w sl H cols ∧ extends m0 (mem w) (nodes_of H cols).
Proof.
  induction 1 as [gt w0 sl w Hm0 Hrun
                 |w sl fuel data r sl' w' Hhist IH Hrun
                 |w sl fuel data r sl' w' Hhist IH Hrun].
  - split; [by eapply reach_create|].
    destruct w0 as [m fl fr]. simpl in Hm0. subst m.
    destruct (skip_list_create_spec gt m0 fl fr) as [Hc Hrep].
    rewrite Hc in Hrun. injection Hrun as <- <-.
    eexists _, []. split; [exact Hrep|]. simpl. split.
    + intros x ->%list_elem_of_singleton. apply fresh_not_alloc.
    + intros x Hx. rewrite lookup_insert_ne; [done|]. set_solver.
  - destruct IH as (Hreach & H & cols & Hrep & Hext).
    split; [by eapply reach_insert|].
    destruct (skip_list_insert_inv coins w sl H cols data fuel r sl' w' Hrep Hrun)
      as [(-> & -> & ->)|(-> & k & _ & _ & _ & _ & _ & [Hheads Htails] & _)];
      [by eauto|].
    destruct w as [m fl fr]. simpl in *.
    set (F := (fuel + length cols + length H + k + 2)%nat).
    pose proof (skip_list_insert_mono coins fuel F sl data ltac:(lia) _ _ Hrun)
      as HrunF.
    destruct (skip_list_insert_heap coins m fl fr sl H cols data k F
                Hrep Hheads Htails ltac:(lia))
      as (D1 & D2 & -> & _ & _ & [(c & D & -> & _ & Hr)|[_ Hr]]).
    { rewrite Hr in HrunF. done. }
    destruct Hr as (m' & H0 & Hnew & newc & -> & Hr & _ & _ & Hwf' & Hso & Hfr).
    rewrite Hr in HrunF. injection HrunF as <- <-.
    eexists _, _. split; [split; [|exact Hwf']; by rewrite !last_app|].
    simpl. eapply extends_grow; [exact Hext|exact Hso|exact Hfr|].
    intros x. rewrite elem_of_nodes_mid. unfold nodes_of.
    rewrite !elem_of_app. tauto.
  - destruct IH as (Hreach & H & cols & Hrep & Hext).
    split; [by eapply reach_remove|].
    destruct w as [m fl fr]. simpl in *.
    set (F := (fuel + length cols + length H + 2)%nat).
    pose proof (skip_list_remove_mono fuel F sl data ltac:(lia) _ _ Hrun)
      as HrunF.
    destruct (skip_list_remove_heap m fl fr sl H cols data F Hrep ltac:(lia))
      as (D1 & D2 & -> & _ & _ & [[_ Hr]|Hr]).
    { rewrite Hr in HrunF. injection HrunF as <- <- <-. eauto. }
    destruct Hr as (c & D & m' & H1 & H2 & top' & -> & _ & -> & Hr & Htop'
                    & Hwf' & _ & Hso & Hfr).
    rewrite Hr in HrunF. injection HrunF as <- <- <-.
    eexists _, _. split; [split; [exact Htop'|exact Hwf']|].
    simpl. eapply extends_shrink; [exact Hext|exact Hso|exact Hfr|].
    intros x. destruct c as [v c]. rewrite elem_of_nodes_mid. unfold nodes_of.
    simpl. rewrite !elem_of_app. tauto.
Qed.

(** [skip_list_destroy] frees the nodes and nothing else. *)
Lemma destroy_spec w sl H cols fuel :
  represents w sl H cols →
  (length H + length cols + 4 ≤ fuel)%nat →
  ∃ w' log,
    skip_list_destroy fuel sl w = Some (0, w') ∧
    log ≡ₚ nodes_of H cols ∧
    freed w' = log ++ freed w ∧ flips w' = flips w ∧
    ∀ x, mem w' !! x =
         if decide (x ∈ nodes_of H cols) then None else mem w !! x.
Proof.
  intros [Htop Hwf] Hfuel. destruct w as [m fl fr]. simpl in *.
  pose proof Htop as Htop'. rewrite last_lookup in Htop'.
  assert (0 < length H)%nat by (apply lookup_lt_Some in Htop'; lia).
  pose proof (delete_levels_spec m H cols Hwf fl fr (pred (length H))
                (_first_node sl) fuel Htop' ltac:(lia)) as Hrun.
  replace (S (pred (length H))) with (length H) in Hrun by lia.
  pose proof (rows_upto_nodes m H cols Hwf) as Hperm.
  eexists _, (rows_upto H cols (length H)).
  split; [unfold skip_list_destroy; by rewrite (run_bind _ _ _ _ _ Hrun)|].
  split; [done|]. split; [done|]. split; [done|].
  intros x. simpl. rewrite after_free_lookup.
  destruct (decide (x ∈ rows_upto H cols (length H))) as [Hx|Hx].
  - rewrite decide_True; [done|]. by rewrite <- Hperm.
  - rewrite decide_False by (by rewrite <- Hperm).
    destruct (decide (x ∈ nodes_of H cols)) as [Hn|Hn];
      [by rewrite <- Hperm in Hn|].
    by destruct (m !! x).
Qed.

(** One more call of [skip_list_insert] in a history; the call is
    evaluated. *)
Ltac hist_insert_step R fuel data :=
  lazymatch type of R with
  | history ?c ?m0 ?w ?sl =>
      let v := eval vm_compute in (skip_list_insert c fuel sl data w) in
      lazymatch v with
      | Some (?r, ?sl', ?w') =>
          let E := fresh "E" in
          assert (skip_list_insert c fuel sl data w = Some (r, sl', w')) as E
            by (vm_compute; reflexivity);
          let R' := fresh "R" in
          pose proof (hist_insert c m0 w sl fuel data r sl' w' R E) as R';
          clear E
      end
  end.

Lemma demo_history : history demo_coins ∅ demo_world demo_sl.
Proof.
  assert (history demo_coins ∅
            (World {[1%positive := Node None None None None 0]} 0 [])
            (SkipList 1%positive fifo_gt 0)) as R0.
  { apply (hist_create demo_coins ∅ fifo_gt empty_world); [done|].
    vm_compute. reflexivity. }
  hist_insert_step R0 20%nat 10.
  hist_insert_step R 20%nat 30.
  hist_insert_step R1 20%nat 20.
  exact R2.
Qed.

(** After a history, [skip_list_destroy] leaves the heap that was there
    before [skip_list_create]. *)
Lemma history_destroy coins m0 w sl :
  history coins m0 w sl →
  ∃ n0 : nat, ∀ fuel, (n0 ≤ fuel)%nat →
    ∃ w', skip_list_destroy fuel sl w = Some (0, w') ∧
          mem w' = m0 ∧ flips w' = flips w.
Proof.
  intros Hhist.
  destruct (history_inv coins m0 w sl Hhist)
    as (_ & H & cols & Hrep & Hfree & Hsame).
  exists (length H + length cols + 4)%nat. intros fuel Hfuel.
  destruct (destroy_spec w sl H cols fuel Hrep Hfuel)
    as (w' & log & Hrun & _ & _ & Hfl & Hmem).
  exists w'. split; [done|]. split; [|done].
  apply map_eq. intros x. rewrite Hmem.
  destruct (decide (x ∈ nodes_of H cols)) as [Hx|Hx].
  - symmetry. by apply Hfree.
  - by apply Hsame.
Qed.

(** * Further properties of the library *)

Lemma fifo_gt_strict_total : gt_strict_total fifo_gt.
Proof.
  split; [exact fifo_gt_irreflexive|].
  split; [exact fifo_gt_transitive|exact fifo_gt_total].
Qed.

Lemma demo_tails : heads_then_tails demo_coins demo_world 0.
Proof. split; [intros j Hj; lia|reflexivity]. Qed.

(** A skip list of a history whose comparison is a strict total order is
    ordered. *)
Lemma reachable_ordered coins w sl :
  reachable coins w sl → gt_strict_total (_gt_func sl) →
  ∃ H cols, ordered w sl H cols ∧ top_used H cols.
Proof.
  intros Hr (_ & Htr & Htot).
  destruct (reachable_used coins w sl Hr) as (H & cols & ? & ? & ? & Hs).
  exists H, cols. split; [|done]. split; [done|]. split; [auto|done].
Qed.

(** X1.  [skip_list_create] succeeds on every heap: it allocates one cell,
    which was not allocated, as the header of an empty level 0, with null
    links and a null payload, and changes nothing else.  The new list has
    size 0 and no payload at level 0, and [skip_list_contains] and
    [skip_list_remove] return 0 on it for every payload and change
    nothing. *)
Theorem create_gives_empty_list gt w0 :
  ∃ sl w,
    skip_list_create gt w0 = Some (sl, w) ∧
    mem w0 !! _first_node sl = None ∧
    mem w = <[_first_node sl := Node None None None None 0]> (mem w0) ∧
    flips w = flips w0 ∧ freed w = freed w0 ∧
    _gt_func sl = gt ∧ skip_list_size sl = 0 ∧
    ∀ fuel, (3 ≤ fuel)%nat →
      level0_payloads fuel w sl = Some [] ∧
      ∀ data,
        skip_list_contains fuel sl data w = Some (0, w) ∧
        skip_list_remove fuel sl data w = Some ((0, sl), w).
Proof.
  destruct w0 as [m fl fr].
  destruct (skip_list_create_spec gt m fl fr) as [Hc Hrep].
  eexists _, _. split; [exact Hc|]. simpl.
  split; [apply fresh_not_alloc|].
  do 5 (split; [done|]). intros fuel Hfuel. split.
  - rewrite (level0_payloads_represents _ _ _ _ fuel Hrep); [done|simpl; lia].
  - intros data. split.
    + destruct (skip_list_contains_spec _ _ _ _ _ _ data fuel Hrep)
        as (D1 & D2 & E & _ & _ & Hrun); [simpl; lia|].
      symmetry in E. apply app_eq_nil in E as [-> ->]. exact Hrun.
    + destruct (skip_list_remove_spec _ _ _ _ _ _ data fuel Hrep)
        as (D1 & D2 & E & _ & _ & [[_ Hr]|Hr]); [simpl; lia|done|].
      destruct Hr as (c & D & _ & _ & _ & _ & -> & _).
      symmetry in E. apply app_eq_nil in E as [_ E]. done.
Qed.

(** X2.  In every skip list that [skip_list_create] and calls of
    [skip_list_insert] and [skip_list_remove] produce, [skip_list_size] is
    the number of nodes of level 0, the header not counted. *)
Theorem size_is_level0_length coins w sl :
  reachable coins w sl →
  ∃ n0 : nat, ∀ fuel, (n0 ≤ fuel)%nat →
    ∃ l, level0_payloads fuel w sl = Some l ∧
         skip_list_size sl = Z.of_nat (length l).
Proof.
  intros Hr.
  destruct (reachable_inv coins w sl Hr) as (H & cols & Hrep & Hsize & _).
  exists (S (length cols + length H)). intros fuel Hfuel.
  exists (cols.*1). split.
  - apply (level0_payloads_represents _ _ H); [done|lia].
  - unfold skip_list_size. by rewrite length_fmap.
Qed.

Lemma size_is_level0_length_witness :
  reachable demo_coins demo_world demo_sl ∧
  ∃ n0 : nat, ∀ fuel, (n0 ≤ fuel)%nat →
    ∃ l, level0_payloads fuel demo_world demo_sl = Some l ∧
         skip_list_size demo_sl = Z.of_nat (length l).
Proof.
  split; [exact demo_reachable|].
  exact (size_is_level0_length demo_coins demo_world demo_sl demo_reachable).
Defined.

(** X3.  In every skip list of a history, [_first_node] is the header of
    the top level: it has no node to its left and none above it, and it has
    a node to its right unless the list is empty, in which case it is the
    header of level 0: the list is empty exactly when [_first_node] has no
    [_next_node]. *)
Theorem first_node_heads_used_level coins w sl :
  reachable coins w sl →
  ∃ nd, mem w !! _first_node sl = Some nd ∧
    _prev_node nd = None ∧ _prev_layer nd = None ∧ _data nd = 0 ∧
    (_next_node nd = None ↔ skip_list_size sl = 0) ∧
    (_next_node nd = None → _next_layer nd = None).
Proof.
  intros Hr.
  destruct (reachable_used coins w sl Hr)
    as (H & cols & [Htop Hwf] & Hused & Hsize & _).
  destruct (top_header _ _ _ _ Hwf Htop)
    as (nd & Hnd & Hp & Hu & Hv & Hn & Hd).
  exists nd. do 4 (split; [done|]).
  assert (_next_node nd = None → length H = 1%nat ∧ cols = []) as Hempty.
  { rewrite Hn. intros Hnil.
    assert (lev (pred (length H)) cols = []) as Hlev
      by (by destruct (lev (pred (length H)) cols)).
    destruct Hused as [Hone|?]; [|done]. split; [done|].
    rewrite Hone in Hlev. simpl in Hlev.
    destruct Hwf as (_ & Hne & _).
    destruct cols as [|c cs]; [done|].
    apply Forall_cons in Hne as [Hc _].
    destruct c as [v [|x c]]; [done|]. done. }
  split; [split|].
  - intros Hnil. destruct (Hempty Hnil) as [_ ->]. done.
  - unfold skip_list_size. rewrite Hsize. intros Hz.
    destruct cols; [|simpl in Hz; lia]. by rewrite Hn, lev_nil.
  - intros Hnil. destruct (Hempty Hnil) as [Hone _]. by rewrite Hd, Hone.
Qed.

Lemma first_node_heads_used_level_witness :
  reachable demo_coins demo_world demo_sl ∧
  ∃ nd, mem demo_world !! _first_node demo_sl = Some nd ∧
    _prev_node nd = None ∧ _prev_layer nd = None ∧ _data nd = 0 ∧
    (_next_node nd = None ↔ skip_list_size demo_sl = 0) ∧
    (_next_node nd = None → _next_layer nd = None).
Proof.
  split; [exact demo_reachable|].
  exact (first_node_heads_used_level demo_coins demo_world demo_sl
           demo_reachable).
Defined.

(** X4.  [skip_list_insert] on a skip list of a history, whatever its
    comparison function is, when the coins give [k] heads and then tails:
    the call returns; it returns 0, with the argument stored at level 0 and
    nothing changed, or it returns 1, and then the argument has been added
    at one place of level 0, the other payloads are in their places, the
    size is one more, [_first_node] is the same, nothing was freed and
    [k + 1] coins were drawn. *)
Theorem insert_adds_one_payload coins w sl data (k : nat) :
  reachable coins w sl →
  heads_then_tails coins w k →
  ∃ n0 : nat, ∀ fuel, (n0 ≤ fuel)%nat →
    ∃ l r sl' w',
      level0_payloads fuel w sl = Some l ∧
      skip_list_insert coins fuel sl data w = Some ((r, sl'), w') ∧
      ((r = 0 ∧ sl' = sl ∧ w' = w ∧ data ∈ l) ∨
       (r = 1 ∧
        ∃ l1 l2, l = l1 ++ l2 ∧
          level0_payloads fuel w' sl' = Some (l1 ++ data :: l2) ∧
          skip_list_size sl' = skip_list_size sl + 1 ∧
          _first_node sl' = _first_node sl ∧
          freed w' = freed w ∧ flips w' = (flips w + S k)%nat)).
Proof.
  intros Hr [Hheads Htails].
  destruct (reachable_inv coins w sl Hr) as (H & cols & Hrep & _ & _).
  exists (length cols + length H + k + 3)%nat. intros fuel Hfuel.
  exists (cols.*1).
  rewrite (level0_payloads_represents _ _ H cols) by (done || lia).
  destruct w as [m fl fr]. simpl in *.
  destruct (skip_list_insert_spec coins m fl fr sl H cols data k fuel
              Hrep Hheads Htails ltac:(lia))
    as (D1 & D2 & -> & Hbt & Hst & [(c & D & -> & Hc & Hrun)|[Hnd Hrun]]).
  - eexists _, _, _. split; [done|]. split; [exact Hrun|]. left.
    do 3 (split; [done|]). rewrite fmap_app, fmap_cons, Hc. set_solver.
  - destruct Hrun as (m' & H0 & Hnew & newc & -> & Hrun & Hl & HlH & Hwf').
    eexists _, _, _. split; [done|]. split; [exact Hrun|]. right.
    split; [done|]. exists (D1.*1), (D2.*1). split; [by rewrite fmap_app|].
    split; [|split; [done|split; [done|split; [done|simpl; lia]]]].
    rewrite (level0_payloads_represents _ _ (H0 ++ Hnew ++ [_first_node sl])
               (D1 ++ (data, newc) :: D2)).
    + by rewrite fmap_app, fmap_cons.
    + split; [by rewrite !last_app|done].
    + rewrite !length_app in *. simpl in *. lia.
Qed.

Lemma insert_adds_one_payload_witness :
  reachable demo_coins demo_world demo_sl ∧
  heads_then_tails demo_coins demo_world 0 ∧
  ∃ n0 : nat, ∀ fuel, (n0 ≤ fuel)%nat →
    ∃ l r sl' w',
      level0_payloads fuel demo_world demo_sl = Some l ∧
      skip_list_insert demo_coins fuel demo_sl 25 demo_world =
        Some ((r, sl'), w') ∧
      ((r = 0 ∧ sl' = demo_sl ∧ w' = demo_world ∧ 25 ∈ l) ∨
       (r = 1 ∧
        ∃ l1 l2, l = l1 ++ l2 ∧
          level0_payloads fuel w' sl' = Some (l1 ++ 25 :: l2) ∧
          skip_list_size sl' = skip_list_size demo_sl + 1 ∧
          _first_node sl' = _first_node demo_sl ∧
          freed w' = freed demo_world ∧
          flips w' = (flips demo_world + 1)%nat)).
Proof.
  split; [exact demo_reachable|]. split; [exact demo_tails|].
  exact (insert_adds_one_payload demo_coins demo_world demo_sl 25 0
           demo_reachable demo_tails).
Defined.

(** X5.  [skip_list_remove] on a skip list of a history, whatever its
    comparison function is: the call returns; it returns 0 and nothing is
    changed, or it returns 1, and then one occurrence of the argument has
    been taken out of level 0, the other payloads are in their places, the
    size is one less, no coin was drawn, and the cells freed are headers
    of emptied top levels and then the nodes of one column, all of which
    held the argument. *)
Theorem remove_takes_one_payload coins w sl data :
  reachable coins w sl →
  ∃ n0 : nat, ∀ fuel, (n0 ≤ fuel)%nat →
    ∃ l r sl' w',
      level0_payloads fuel w sl = Some l ∧
      skip_list_remove fuel sl data w = Some ((r, sl'), w') ∧
      ((r = 0 ∧ sl' = sl ∧ w' = w) ∨
       (r = 1 ∧
        ∃ l1 l2 hs col, l = l1 ++ data :: l2 ∧
          level0_payloads fuel w' sl' = Some (l1 ++ l2) ∧
          skip_list_size sl' = skip_list_size sl - 1 ∧
          flips w' = flips w ∧
          freed w' = hs ++ col ++ freed w ∧ col ≠ [] ∧
          Forall (λ x, payload (mem w) x = Some data) col ∧
          Forall (λ x, payload (mem w) x = Some 0) hs)).
Proof.
  intros Hr.
  destruct (reachable_inv coins w sl Hr) as (H & cols & Hrep & _ & _).
  exists (length cols + length H + 2)%nat. intros fuel Hfuel.
  exists (cols.*1).
  rewrite (level0_payloads_represents _ _ H cols) by (done || lia).
  destruct w as [m fl fr]. simpl in *.
  destruct (skip_list_remove_spec m fl fr sl H cols data fuel Hrep Hfuel)
    as (D1 & D2 & -> & Hbt & Hst & [[Hnd Hrun]|Hrun]).
  - eexists _, _, _. split; [done|]. split; [exact Hrun|]. by left.
  - destruct Hrun as (c & D & m' & H1 & H2 & top' & -> & Hc & -> & Hrun
                      & Htop' & Hwf' & Hused).
    eexists _, _, _. split; [done|]. split; [exact Hrun|]. right.
    split; [done|]. exists (D1.*1), (D.*1), H2, c.2.
    destruct Hrep as [_ (_ & Hne & _ & Hh & Hv)].
    apply Forall_app in Hne as [_ [Hcne _]%Forall_cons].
    apply Forall_app in Hv as [_ [Hcv _]%Forall_cons].
    split; [by rewrite fmap_app, fmap_cons, Hc|].
    split; [|split; [done|split; [done|split; [done|split; [done|split]]]]].
    + rewrite (level0_payloads_represents _ _ H1 (D1 ++ D)).
      * by rewrite fmap_app.
      * done.
      * rewrite !length_app in *. simpl in *. lia.
    + apply Forall_forall. intros x [i Hi]%list_elem_of_lookup.
      destruct (vcol_data _ _ _ _ Hcv Hi) as (nd & Hnd & Hd).
      unfold payload. simpl in *. by rewrite Hnd, <- Hc, <- Hd.
    + apply Forall_forall. intros x [i Hi]%list_elem_of_lookup.
      destruct (Hh (length H1 + i)%nat x) as (nd & Hnd & _ & _ & Hd).
      { by rewrite lookup_app_r, Nat.add_comm, Nat.add_sub by lia. }
      unfold payload. simpl in *. rewrite Hnd. simpl. by rewrite Hd.
Qed.

Lemma remove_takes_one_payload_witness :
  reachable demo_coins demo_world demo_sl ∧
  ∃ n0 : nat, ∀ fuel, (n0 ≤ fuel)%nat →
    ∃ l r sl' w',
      level0_payloads fuel demo_world demo_sl = Some l ∧
      skip_list_remove fuel demo_sl 20 demo_world = Some ((r, sl'), w') ∧
      ((r = 0 ∧ sl' = demo_sl ∧ w' = demo_world) ∨
       (r = 1 ∧
        ∃ l1 l2 hs col, l = l1 ++ 20 :: l2 ∧
          level0_payloads fuel w' sl' = Some (l1 ++ l2) ∧
          skip_list_size sl' = skip_list_size demo_sl - 1 ∧
          flips w' = flips demo_world ∧
          freed w' = hs ++ col ++ freed demo_world ∧ col ≠ [] ∧
          Forall (λ x, payload (mem demo_world) x = Some 20) col ∧
          Forall (λ x, payload (mem demo_world) x = Some 0) hs)).
Proof.
  split; [exact demo_reachable|].
  exact (remove_takes_one_payload demo_coins demo_world demo_sl 20
           demo_reachable).
Defined.

Lemma demo_coins_fair : fair demo_coins.
Proof.
  intros n. exists 4%nat. unfold demo_coins.
  destruct (n + 4)%nat as [|[|[|[|?]]]] eqn:E; (done || lia).
Qed.

(** X6.  With a comparison that is a strict total order of the payload
    pointers, and coins of which every run of heads ends, a new skip list
    behaves as a finite set of pointers: for every sequence of calls of
    [skip_list_insert], [skip_list_remove] and [skip_list_contains] after
    [skip_list_create], all calls return, with the results of the same
    calls on a set that is empty at first (insert: 1 if the pointer is
    new, else 0; remove: 1 if it is a member, else 0; contains: 1 for a
    member, else 0); at the end, level 0 holds the members of the set in
    strictly increasing order and [skip_list_size] is their number. *)
Theorem calls_behave_as_a_set coins gt cs w0 :
  gt_strict_total gt → fair coins →
  ∃ (n0 : nat) sl w l,
    (∀ fuel, (n0 ≤ fuel)%nat →
       (let* sl := skip_list_create gt in run_calls coins fuel cs sl) w0 =
         Some (((set_calls ∅ cs).1, sl), w) ∧
       level0_payloads fuel w sl = Some l) ∧
    strictly_sorted gt l ∧
    list_to_set l = (set_calls ∅ cs).2 ∧
    skip_list_size sl = Z.of_nat (size (set_calls ∅ cs).2).
Proof.
  intros Hgt Hfair. destruct w0 as [m fl fr].
  destruct (skip_list_create_spec gt m fl fr) as [Hc Hrep].
  pose proof (conj Hrep (conj (SSorted_nil _) eq_refl)
              : ordered _ _ [fresh (dom m)] []) as Hord.
  destruct (run_calls_set coins cs _ _ _ _ Hord) as
    (n0 & sl & w & H & cols & Hrun & (Hrep' & Hs & Hsize) & _ & Hgt' & Hset);
    [by left|done|done|].
  exists (n0 `max` S (length cols + length H))%nat, sl, w, (cols.*1).
  simpl in Hgt'.
  change (list_to_set ([] : list column).*1) with (∅ : gset Z) in *.
  split; [|split; [by rewrite <- Hgt'|split; [done|]]].
  - intros fuel Hfuel. split.
    + rewrite (run_bind _ _ _ _ _ Hc). apply Hrun. lia.
    + apply (level0_payloads_represents _ _ H); [done|lia].
  - unfold skip_list_size. rewrite Hsize, <- Hset.
    rewrite size_list_to_set, length_fmap; [done|].
    destruct Hgt as (Hirr & _). apply (sorted_NoDup (_gt_func sl)); [|done].
    by rewrite Hgt'.
Qed.

Lemma calls_behave_as_a_set_witness :
  gt_strict_total fifo_gt ∧ fair demo_coins ∧
  ∃ (n0 : nat) sl w l,
    (∀ fuel, (n0 ≤ fuel)%nat →
       (let* sl := skip_list_create fifo_gt in
        run_calls demo_coins fuel
          [Insert 4; Insert 2; Insert 4; Contains 2; Remove 4; Contains 4]
          sl) empty_world =
         Some (((set_calls ∅
                   [Insert 4; Insert 2; Insert 4; Contains 2; Remove 4;
                    Contains 4]).1, sl), w) ∧
       level0_payloads fuel w sl = Some l) ∧
    strictly_sorted fifo_gt l ∧
    list_to_set l =
      (set_calls ∅
         [Insert 4; Insert 2; Insert 4; Contains 2; Remove 4; Contains 4]).2 ∧
    skip_list_size sl =
      Z.of_nat (size (set_calls ∅
         [Insert 4; Insert 2; Insert 4; Contains 2; Remove 4; Contains 4]).2).
Proof.
  split; [exact fifo_gt_strict_total|]. split; [exact demo_coins_fair|].
  exact (calls_behave_as_a_set demo_coins fifo_gt
           [Insert 4; Insert 2; Insert 4; Contains 2; Remove 4; Contains 4]
           empty_world fifo_gt_strict_total demo_coins_fair).
Defined.

(** X7.  [_find_node], called on the topmost header of a well-formed skip
    list: when the target is greater than the payload of the first node of
    the top level, it returns that node, whatever comes after it and
    without going down to level 0; otherwise it returns the node that
    [_find_previous] returns.  It changes nothing. *)
Theorem find_node_stops_after_first_step w sl H cols data :
  represents w sl H cols →
  ∃ n0 : nat, ∀ fuel, (n0 ≤ fuel)%nat →
    ∃ prev,
      _find_previous fuel (_gt_func sl) (_first_node sl) data w =
        Some (prev, w) ∧
      match lev (pred (length H)) cols with
      | x :: _ =>
          ∃ p, payload (mem w) x = Some p ∧
            _find_node fuel (_gt_func sl) (_first_node sl) data w =
              Some (if _gt_func sl data p then x else prev, w)
      | [] =>
          _find_node fuel (_gt_func sl) (_first_node sl) data w =
            Some (prev, w)
      end.
Proof.
  intros [Htop Hwf]. destruct w as [m fl fr]. simpl in *.
  exists (length cols + length H + 2)%nat. intros fuel Hfuel.
  destruct (find_previous_top (_gt_func sl) data m fl fr H cols
              (_first_node sl) fuel Hwf Htop ltac:(lia))
    as (D1 & D2 & h0 & prev & p & _ & _ & Hfind & _).
  exists prev. split; [exact Hfind|].
  destruct (top_header _ _ _ _ Hwf Htop) as (nd & Hnd & _ & _ & _ & Hn & _).
  destruct fuel as [|[|fuel]]; [lia|lia|].
  destruct (lev (pred (length H)) cols) as [|x rest] eqn:Elev; simpl in Hn.
  - apply (find_node_no_step _ _ _ _ _ _ _ nd); [done|by rewrite Hn|done].
  - pose proof Hwf as (_ & _ & Hrows & _).
    apply last_lookup_pred in Htop.
    specialize (Hrows _ _ Htop). rewrite Elev in Hrows.
    destruct Hrows as [_ [(n & Hx & _) _]].
    exists (_data n). split; [unfold payload; by rewrite Hx|].
    destruct (_gt_func sl data (_data n)) eqn:Hgt.
    + by apply (find_node_step _ _ _ _ _ _ _ nd x n).
    + apply (find_node_no_step _ _ _ _ _ _ _ nd); [done| |done].
      rewrite Hn. eauto.
Qed.

Lemma find_node_stops_after_first_step_witness :
  represents demo_world demo_sl demo_H demo_cols ∧
  ∃ n0 : nat, ∀ fuel, (n0 ≤ fuel)%nat →
    ∃ prev,
      _find_previous fuel (_gt_func demo_sl) (_first_node demo_sl) 30
        demo_world = Some (prev, demo_world) ∧
      match lev (pred (length demo_H)) demo_cols with
      | x :: _ =>
          ∃ p, payload (mem demo_world) x = Some p ∧
            _find_node fuel (_gt_func demo_sl) (_first_node demo_sl) 30
              demo_world =
              Some (if _gt_func demo_sl 30 p then x else prev, demo_world)
      | [] =>
          _find_node fuel (_gt_func demo_sl) (_first_node demo_sl) 30
            demo_world = Some (prev, demo_world)
      end.
Proof.
  split; [exact demo_represents|].
  exact (find_node_stops_after_first_step demo_world demo_sl demo_H demo_cols
           30 demo_represents).
Defined.

(** X8.  [skip_list_print] on a well-formed skip list with strictly
    increasing payloads, when the comparison is irreflexive and transitive
    and the list is empty or the null pointer is not greater than some
    stored payload: the call returns and changes nothing, and the text it
    prints is [print_text] of the payloads of its levels: for each level
    from the top one down, an arrow with 0 for the header, then for each
    node a dash for every payload of level 0 that is passed on the way to
    the node's column, and an arrow with its payload; a newline after each
    level.  Nothing is printed for an empty list. *)
Theorem print_gives_levels_text w sl H cols :
  represents w sl H cols →
  strictly_sorted (_gt_func sl) (cols.*1) →
  gt_irreflexive (_gt_func sl) → gt_transitive (_gt_func sl) →
  cols = [] ∨ Exists (λ p, _gt_func sl 0 p = false) (cols.*1) →
  ∃ (n0 : nat) text,
    print_text (_gt_func sl) (levels_below (length H) cols) = Some text ∧
    (cols = [] → text = []) ∧
    ∀ fuel, (n0 ≤ fuel)%nat → skip_list_print fuel sl w = Some (text, w).
Proof. apply skip_list_print_defined. Qed.

Lemma print_gives_levels_text_witness :
  represents demo_world demo_sl demo_H demo_cols ∧
  strictly_sorted (_gt_func demo_sl) (demo_cols.*1) ∧
  gt_irreflexive (_gt_func demo_sl) ∧ gt_transitive (_gt_func demo_sl) ∧
  (demo_cols = [] ∨ Exists (λ p, _gt_func demo_sl 0 p = false) (demo_cols.*1)) ∧
  ∃ (n0 : nat) text,
    print_text (_gt_func demo_sl) (levels_below (length demo_H) demo_cols) =
      Some text ∧
    (demo_cols = [] → text = []) ∧
    ∀ fuel, (n0 ≤ fuel)%nat →
      skip_list_print fuel demo_sl demo_world = Some (text, demo_world).
Proof.
  assert (demo_cols = [] ∨
          Exists (λ p, _gt_func demo_sl 0 p = false) (demo_cols.*1)) as Hex.
  { right. left. reflexivity. }
  split; [exact demo_represents|]. split; [exact demo_sorted|].
  split; [exact fifo_gt_irreflexive|]. split; [exact fifo_gt_transitive|].
  split; [exact Hex|].
  exact (print_gives_levels_text demo_world demo_sl demo_H demo_cols
           demo_represents demo_sorted fifo_gt_irreflexive fifo_gt_transitive
           Hex).
Defined.

(** X9.  [skip_list_print] on a well-formed skip list whose top level is
    not empty, when the null pointer is greater than every stored payload:
    the call does not return.  At the header of the top level the printer
    walks along level 0 to its last node and reads the payload of the node
    after it, which does not exist: the test for that node comes second in
    the loop condition. *)
Theorem print_reads_past_level0 w sl H cols :
  represents w sl H cols →
  lev (pred (length H)) cols ≠ [] →
  Forall (λ p, _gt_func sl 0 p = true) (cols.*1) →
  print_text (_gt_func sl) (levels_below (length H) cols) = None ∧
  ∀ fuel, skip_list_print fuel sl w = None.
Proof.
  intros Hrep Htopne Hall.
  assert (print_text (_gt_func sl) (levels_below (length H) cols) = None)
    as Hnone.
  { destruct Hrep as [Htop (_ & Hne & _)].
    apply last_lookup_pred in Htop.
    destruct (length H) as [|top] eqn:EH;
      [apply lookup_lt_Some in Htop; lia|].
    simpl in Htopne.
    unfold print_text. rewrite last_levels_below. cbn [levels_below default].
    destruct (levd top cols) as [|p ps] eqn:Elevd.
    { destruct Htopne. pose proof (length_levd top cols) as Hl.
      rewrite Elevd in Hl. by destruct (lev top cols). }
    unfold id. cbn [rows_text row_text].
    by rewrite (levd_zero cols Hne), (skip_count_none _ _ _ Hall). }
  split; [done|]. intros fuel.
  destruct (skip_list_print fuel sl w) as [r|] eqn:Hrun; [|done].
  set (n := (fuel `max` (length H * (length cols + 2) + length cols + 3))%nat).
  pose proof (skip_list_print_mono fuel n sl ltac:(lia) _ _ Hrun) as Hrun'.
  rewrite (skip_list_print_spec w sl H cols n Hrep ltac:(lia)), Hnone in Hrun'.
  done.
Qed.

Lemma print_reads_past_level0_witness :
  represents neg_world neg_sl neg_H neg_cols ∧
  lev (pred (length neg_H)) neg_cols ≠ [] ∧
  Forall (λ p, _gt_func neg_sl 0 p = true) (neg_cols.*1) ∧
  print_text (_gt_func neg_sl) (levels_below (length neg_H) neg_cols) = None ∧
  ∀ fuel, skip_list_print fuel neg_sl neg_world = None.
Proof.
  assert (lev (pred (length neg_H)) neg_cols ≠ []) as Hne by done.
  assert (Forall (λ p, _gt_func neg_sl 0 p = true) (neg_cols.*1)) as Hall
    by (by repeat constructor).
  split; [exact neg_represents|]. split; [exact Hne|]. split; [exact Hall|].
  exact (print_reads_past_level0 neg_world neg_sl neg_H neg_cols
           neg_represents Hne Hall).
Defined.

(** X10.  No cell is leaked: after [skip_list_create] on any heap and any
    calls of [skip_list_insert] and [skip_list_remove] that return,
    [skip_list_destroy] returns 0 and leaves exactly the heap that was there
    before [skip_list_create]: every node that was allocated since then
    has been freed, and no other cell has been freed or changed.  No coin
    is drawn. *)
Theorem destroy_restores_heap coins m0 w sl :
  history coins m0 w sl →
  ∃ n0 : nat, ∀ fuel, (n0 ≤ fuel)%nat →
    ∃ w', skip_list_destroy fuel sl w = Some (0, w') ∧
          mem w' = m0 ∧ flips w' = flips w.
Proof. apply history_destroy. Qed.

Lemma destroy_restores_heap_witness :
  history demo_coins ∅ demo_world demo_sl ∧
  ∃ n0 : nat, ∀ fuel, (n0 ≤ fuel)%nat →
    ∃ w', skip_list_destroy fuel demo_sl demo_world = Some (0, w') ∧
          mem w' = ∅ ∧ flips w' = flips demo_world.
Proof.
  split; [exact demo_history|].
  exact (destroy_restores_heap demo_coins ∅ demo_world demo_sl demo_history).
Defined.

(** X11.  The library keeps to its own cells: in every state of a history
    that began with [skip_list_create] on the heap [m0], each cell of [m0]
    is still allocated with its content unchanged, and the other allocated
    cells are exactly the nodes that can be reached from [_first_node];
    these were not allocated in [m0]. *)
Theorem heap_is_old_cells_and_nodes coins m0 w sl :
  history coins m0 w sl →
  (∀ x nd, m0 !! x = Some nd → mem w !! x = Some nd) ∧
  (∀ x, is_Some (mem w !! x) ↔
        is_Some (m0 !! x) ∨ reachable_from (mem w) (_first_node sl) x) ∧
  (∀ x, reachable_from (mem w) (_first_node sl) x → m0 !! x = None).
Proof.
  intros Hhist.
  destruct (history_inv coins m0 w sl Hhist)
    as (_ & H & cols & [Htop Hwf] & Hfree & Hsame).
  assert (∀ x, reachable_from (mem w) (_first_node sl) x ↔
               x ∈ nodes_of H cols) as Hreach.
  { intros x. by apply reachable_from_nodes. }
  assert (∀ x, x ∈ nodes_of H cols → is_Some (mem w !! x)) as Halloc.
  { intros x Hx. destruct cols as [|[v c] cs].
    - apply (wf_wfp_nil _ _ [] 0 (λ _, None) []) in Hwf.
      eapply wfp_alloc; [exact Hwf|]. by rewrite nodes_of_mid_nil.
    - apply (wf_wfp_full _ _ [] v c cs) in Hwf as [Hwf _].
      eapply wfp_alloc; [exact Hwf|done]. }
  split; [|split].
  - intros x nd Hx. rewrite Hsame; [done|]. intros Hin.
    by rewrite (Hfree x Hin) in Hx.
  - intros x. rewrite Hreach. split.
    + intros Hs. destruct (decide (x ∈ nodes_of H cols)) as [?|Hn]; [by right|].
      left. by rewrite <- (Hsame x Hn).
    + intros [Hs|Hx]; [|by apply Halloc].
      destruct (decide (x ∈ nodes_of H cols)) as [?|Hn]; [by apply Halloc|].
      by rewrite (Hsame x Hn).
  - intros x Hx. by apply Hfree, Hreach.
Qed.

Lemma heap_is_old_cells_and_nodes_witness :
  history demo_coins ∅ demo_world demo_sl ∧
  (∀ x nd, (∅ : gmap loc node) !! x = Some nd →
           mem demo_world !! x = Some nd) ∧
  (∀ x, is_Some (mem demo_world !! x) ↔
        is_Some ((∅ : gmap loc node) !! x) ∨
        reachable_from (mem demo_world) (_first_node demo_sl) x) ∧
  (∀ x, reachable_from (mem demo_world) (_first_node demo_sl) x →
        (∅ : gmap loc node) !! x = None).
Proof.
  split; [exact demo_history|].
  exact (heap_is_old_cells_and_nodes demo_coins ∅ demo_world demo_sl
           demo_history).
Defined.

(** ** The driver *)

Lemma pure_contains fuel sl data : keeps_world (skip_list_contains fuel sl data).
Proof.
  unfold skip_list_contains.
  pure_with ltac:(apply pure_find_previous).
Qed.

Lemma run_calls_history coins m0 fuel cs : ∀ sl w r w',
  history coins m0 w sl →
  run_calls coins fuel cs sl w = Some (r, w') →
  history coins m0 w' r.2.
Proof.
  induction cs as [|c cs IH]; intros sl w r w' Hh Hrun.
  - by injection Hrun as <- <-.
  - cbn [run_calls] in Hrun.
    apply bind_inv in Hrun as ([r1 sl1] & w1 & Hc & Hrun).
    apply bind_inv in Hrun as ([rs sl2] & w2 & Hcs & Hrun).
    injection Hrun as <- <-. simpl in *.
    refine (IH _ _ (rs, sl2) _ _ Hcs).
    destruct c as [data|data|data]; simpl in Hc.
    + by eapply hist_insert.
    + by eapply hist_remove.
    + apply bind_inv in Hc as (r0 & w0 & Hc & [= _ <- <-]).
      by apply pure_contains in Hc as ->.
Qed.

Lemma set_calls_insert l : ∀ S : gset Z,
  (set_calls S (Insert <$> l)).2 = list_to_set l ∪ S.
Proof.
  induction l as [|x l IH]; intros S; simpl; [set_solver|].
  rewrite IH. destruct (decide (x ∈ S)); simpl; set_solver.
Qed.

Lemma set_calls_remove l : ∀ S : gset Z,
  (set_calls S (Remove <$> l)).2 = S ∖ list_to_set l.
Proof.
  induction l as [|x l IH]; intros S; simpl; [set_solver|].
  rewrite IH. destruct (decide (x ∈ S)); simpl; set_solver.
Qed.

(** Two strictly increasing lists with the same elements are equal. *)
Lemma sorted_same_elements gt (l1 l2 : list Z) :
  gt_irreflexive gt → gt_transitive gt →
  strictly_sorted gt l1 → strictly_sorted gt l2 →
  (∀ x, x ∈ l1 ↔ x ∈ l2) → l1 = l2.
Proof.
  intros Hirr Htr H1 H2 E.
  apply (StronglySorted_unique_strong (λ a b, gt b a = true)); [|done|done|].
  { intros x1 x2 _ _ Ha Hb. pose proof (Htr _ _ _ Hb Ha) as Hc.
    by rewrite Hirr in Hc. }
  apply NoDup_Permutation; [by eapply sorted_NoDup..|done].
Qed.

Section MainLoops.
Variable coins : nat → bool.
Variable fuel : nat.

Lemma main_insert_calls : ∀ (c : nat) i (n : nat) sl w,
  Forall (λ x, x < 30) (range_from 2 c i) →
  30 ≤ i + 2 * Z.of_nat c → (c < n)%nat →
  main_insert coins n fuel i sl w =
    bind (run_calls coins fuel (Insert <$> range_from 2 c i) sl)
      (λ r, ret r.2) w.
Proof.
  induction c as [|c IH]; intros i [|n] sl w Hlt Hge Hn; [lia| |lia|].
  - cbn [main_insert]. by rewrite decide_False by lia.
  - cbn [range_from] in *. apply Forall_cons in Hlt as [Hi Hlt].
    cbn [main_insert]. rewrite decide_True by done.
    rewrite fmap_cons. cbn [run_calls run_call].
    rewrite !bind_assoc. unfold bind at 1 2.
    destruct (skip_list_insert coins fuel sl i w) as [[r w1]|]; [|done].
    rewrite (IH (i + 2) n) by (done || lia).
    rewrite !bind_assoc. done.
Qed.

Lemma main_remove_calls : ∀ (c : nat) i (n : nat) sl w,
  Forall (λ x, x < 30) (range_from 4 c i) →
  30 ≤ i + 4 * Z.of_nat c → (c < n)%nat →
  main_remove n fuel i sl w =
    bind (run_calls coins fuel (Remove <$> range_from 4 c i) sl)
      (λ r, ret r.2) w.
Proof.
  induction c as [|c IH]; intros i [|n] sl w Hlt Hge Hn; [lia| |lia|].
  - cbn [main_remove]. by rewrite decide_False by lia.
  - cbn [range_from] in *. apply Forall_cons in Hlt as [Hi Hlt].
    cbn [main_remove]. rewrite decide_True by done.
    rewrite fmap_cons. cbn [run_calls run_call].
    rewrite !bind_assoc. unfold bind at 1 2.
    destruct (skip_list_remove fuel sl i w) as [[r w1]|]; [|done].
    rewrite (IH (i + 4) n) by (done || lia).
    rewrite !bind_assoc. done.
Qed.

Lemma main_contains_spec w sl H cols :
  ordered w sl H cols →
  gt_irreflexive (_gt_func sl) → gt_transitive (_gt_func sl) →
  (length cols + length H < fuel)%nat →
  ∀ (c : nat) j (n : nat),
    Forall (λ x, x < 30) (range_from 1 c j) →
    30 ≤ j + Z.of_nat c → (c < n)%nat →
    main_contains n fuel j sl w =
      Some ((λ x, contains_line x (if decide (x ∈ cols.*1) then 1 else 0))
              <$> range_from 1 c j, w).
Proof.
  intros Hord Hirr Htr Hfuel.
  induction c as [|c IH]; intros j [|n] Hlt Hge Hn; [lia| |lia|].
  - cbn [main_contains]. by rewrite decide_False by lia.
  - cbn [range_from] in *. apply Forall_cons in Hlt as [Hj Hlt].
    cbn [main_contains]. rewrite decide_True by done.
    rewrite (run_bind _ _ _ _ _
               (contains_ordered w sl H cols j fuel Hord Hirr Htr Hfuel)).
    rewrite (run_bind _ _ _ _ _ (IH (j + 1) n Hlt ltac:(lia) ltac:(lia))).
    done.
Qed.

End MainLoops.

(** X12. [main] with a coin that does not come up heads forever: it returns
    the exit status 0; it prints one line for each of 0 .. 29, with 1 for the
    even numbers and 0 for the odd ones, then the levels of a list that
    holds 0, 2, .., 28, an empty line and the levels of a list that holds
    2, 6, .., 26; and it leaves the heap as it found it. *)
Theorem main_prints_and_frees coins w0 :
  fair coins →
  ∃ (n0 : nat) rows2 rows3 text2 text3,
    print_text fifo_gt rows2 = Some text2 ∧
    last rows2 = Some [0; 2; 4; 6; 8; 10; 12; 14; 16; 18; 20; 22; 24; 26; 28] ∧
    print_text fifo_gt rows3 = Some text3 ∧
    last rows3 = Some [2; 6; 10; 14; 18; 22; 26] ∧
    ∀ fuel, (n0 ≤ fuel)%nat →
      ∃ w', main coins fuel w0 =
              Some (((λ j, contains_line j (if Z.even j then 1 else 0))
                       <$> seqZ 0 30) ++ text2 ++ newline :: text3, 0, w') ∧
            mem w' = mem w0.
Proof.
  intros Hfair. destruct w0 as [m fl fr].
  destruct (skip_list_create_spec fifo_gt m fl fr) as [Hcr Hrep1].
  set (g := fresh (dom m)) in *.
  set (w1 := World (<[g := Node None None None None 0]> m) fl fr) in *.
  set (sl1 := SkipList g fifo_gt 0) in *.
  assert (ordered w1 sl1 [g] []) as Hord1.
  { split; [done|]. split; [constructor|done]. }
  destruct fifo_gt_strict_total as (Hirr & Htr & Htot).
  set (evens := range_from 2 15 0). set (fours := range_from 4 8 0).
  destruct (run_calls_set coins (Insert <$> evens) w1 sl1 [g] [] Hord1
              ltac:(by left) fifo_gt_strict_total Hfair)
    as (n1 & sl2 & w2 & H2 & cols2 & Hrun1 & Hord2 & Htop2 & Hgt2 & Hset2).
  simpl in Hgt2.
  destruct (run_calls_set coins (Remove <$> fours) w2 sl2 H2 cols2 Hord2
              Htop2 ltac:(rewrite Hgt2; exact fifo_gt_strict_total) Hfair)
    as (n3 & sl3 & w3 & H3 & cols3 & Hrun3 & Hord3 & Htop3 & Hgt3 & Hset3).
  rewrite Hgt2 in Hgt3.
  rewrite set_calls_insert in Hset2. rewrite set_calls_remove, Hset2 in Hset3.
  pose proof Hord2 as Hord2'.
  destruct Hord2 as (Hrep2 & Hs2 & Hsz2). destruct Hord3 as (Hrep3 & Hs3 & Hsz3).
  rewrite Hgt2 in Hs2. rewrite Hgt3 in Hs3.
  assert (cols2.*1 = evens) as E2.
  { apply (sorted_same_elements fifo_gt); [done|done|done| |].
    - unfold evens, strictly_sorted. simpl.
      repeat (constructor; [|repeat (constructor; [reflexivity|]); constructor]).
      constructor.
    - intros x. rewrite <- (elem_of_list_to_set (C := gset Z)), Hset2.
      rewrite elem_of_union, !elem_of_list_to_set, fmap_nil, elem_of_nil. tauto. }
  assert (cols3.*1 = [2; 6; 10; 14; 18; 22; 26]) as E3.
  { apply (sorted_same_elements fifo_gt); [done|done|done| |].
    - unfold strictly_sorted.
      repeat (constructor; [|repeat (constructor; [reflexivity|]); constructor]).
      constructor.
    - intros x. rewrite <- (elem_of_list_to_set (C := gset Z)), Hset3.
      assert (filter (λ x, x ∉ fours) evens = [2; 6; 10; 14; 18; 22; 26])
        as <- by (vm_compute; reflexivity).
      rewrite list_elem_of_filter, elem_of_difference, elem_of_union,
        !elem_of_list_to_set, fmap_nil, elem_of_nil.
      tauto. }
  (* the two printed texts *)
  destruct (skip_list_print_defined w2 sl2 H2 cols2 Hrep2
              ltac:(by rewrite Hgt2) ltac:(by rewrite Hgt2)
              ltac:(by rewrite Hgt2))
    as (np2 & text2 & Ht2 & _ & Hpr2).
  { right. rewrite E2, Hgt2. by apply Exists_cons_hd. }
  destruct (skip_list_print_defined w3 sl3 H3 cols3 Hrep3
              ltac:(by rewrite Hgt3) ltac:(by rewrite Hgt3)
              ltac:(by rewrite Hgt3))
    as (np3 & text3 & Ht3 & _ & Hpr3).
  { right. rewrite E3, Hgt3. by apply Exists_cons_hd. }
  rewrite Hgt2 in Ht2. rewrite Hgt3 in Ht3.
  (* the heap *)
  pose proof (hist_create coins m fifo_gt (World m fl fr) sl1 w1 eq_refl Hcr)
    as Hh1.
  pose proof (run_calls_history coins m n1 _ _ _ _ _ Hh1 (Hrun1 n1 ltac:(lia)))
    as Hh2.
  pose proof (run_calls_history coins m n3 _ _ _ _ _ Hh2 (Hrun3 n3 ltac:(lia)))
    as Hh3.
  simpl in Hh2, Hh3.
  destruct (history_destroy coins m w3 sl3 Hh3) as (n4 & Hdes).
  exists (n1 + n3 + np2 + np3 + n4 + length cols2 + length H2 + 31)%nat,
    (levels_below (length H2) cols2), (levels_below (length H3) cols3),
    text2, text3.
  split; [done|]. split.
  { destruct Hrep2 as [Hl2 Hwf2]. destruct H2 as [|h H2]; [done|].
    rewrite length_cons, last_levels_below, levd_zero, E2; [done|].
    apply Hwf2. }
  split; [done|]. split.
  { destruct Hrep3 as [Hl3 Hwf3]. destruct H3 as [|h H3]; [done|].
    rewrite length_cons, last_levels_below, levd_zero, E3; [done|].
    apply Hwf3. }
  intros fuel Hfuel.
  destruct (Hdes fuel ltac:(lia)) as (w' & Hd & Hm & _).
  exists w'. split; [|done].
  unfold main. rewrite (run_bind _ _ _ _ _ Hcr).
  assert (main_insert coins fuel fuel 0 sl1 w1 = Some (sl2, w2)) as Hins.
  { rewrite (main_insert_calls coins fuel 15); [|by repeat constructor|lia..].
    by rewrite (run_bind _ _ _ _ _ (Hrun1 fuel ltac:(lia))). }
  rewrite (run_bind _ _ _ _ _ Hins).
  rewrite (run_bind _ _ _ _ _
             (main_contains_spec fuel w2 sl2 H2 cols2
                Hord2'
                ltac:(by rewrite Hgt2) ltac:(by rewrite Hgt2) ltac:(lia)
                30%nat 0 fuel ltac:(by repeat constructor) ltac:(lia)
                ltac:(lia))).
  rewrite (run_bind _ _ _ _ _ (Hpr2 fuel ltac:(lia))).
  assert (main_remove fuel fuel 0 sl2 w2 = Some (sl3, w3)) as Hrem.
  { rewrite (main_remove_calls coins fuel 8); [|by repeat constructor|lia..].
    by rewrite (run_bind _ _ _ _ _ (Hrun3 fuel ltac:(lia))). }
  rewrite (run_bind _ _ _ _ _ Hrem).
  rewrite (run_bind _ _ _ _ _ (Hpr3 fuel ltac:(lia))).
  rewrite (run_bind _ _ _ _ _ Hd). rewrite E2. reflexivity.
Qed.

Lemma main_prints_and_frees_witness :
  fair demo_coins ∧
  ∃ (n0 : nat) rows2 rows3 text2 text3,
    print_text fifo_gt rows2 = Some text2 ∧
    last rows2 = Some [0; 2; 4; 6; 8; 10; 12; 14; 16; 18; 20; 22; 24; 26; 28] ∧
    print_text fifo_gt rows3 = Some text3 ∧
    last rows3 = Some [2; 6; 10; 14; 18; 22; 26] ∧
    ∀ fuel, (n0 ≤ fuel)%nat →
      ∃ w', main demo_coins fuel empty_world =
              Some (((λ j, contains_line j (if Z.even j then 1 else 0))
                       <$> seqZ 0 30) ++ text2 ++ newline :: text3, 0, w') ∧
            mem w' = mem empty_world.
Proof.
  split; [exact demo_coins_fair|].
  exact (main_prints_and_frees demo_coins empty_world demo_coins_fair).
Defined.
